(** * Hand2Word: a shallow embedding of the stream-processing spine

    The development follows the Python sources of the repository:

    - [iac/lambda/kb-aliases/lambda_function.py]   (alias validation, edit distance)
    - [iac/lambda/ingress_handler.py]              (ingress multiplexer)
    - [src/letter-model-service/services/*.py]     (hand extractor, classifier bridge)
    - [src/word-resolver-service/services/*.py]    (session store, commit engine,
                                                    word resolver, stream consumer)

    Modelling conventions.

    - A Python [str] that is processed character by character is a
      [list ascii]; identifiers that are only compared or used as keys
      (session ids, connection ids) are [string].
    - Python [float] values (confidences, timestamps, scores, landmark
      coordinates) are idealised as exact rationals [Q]; comparisons are the
      rational ones and equalities between computed values are stated
      with [==].
    - Unbounded Python [int] values are [nat] where the code only produces
      non-negative numbers (lengths, distances, counts) and [Z] otherwise.
    - The Redis keyspace is a pair of finite maps keyed by session id, the
      Kinesis streams and the outbound Lambda are append-only logs, and the
      wall clock is an arbitrary sequence of readings consumed one per call
      of [datetime.now()].
    - List indexing that raises [IndexError] in Python is an [option] in the
      model; the theorems show where it cannot happen.
    - Calls to Redis and to the outbound Lambda succeed; the [except]
      branches that only log a failure of these services, and the expiry of
      Redis keys, are outside the model. *)

From Stdlib Require Import QArith Qminmax Qabs Lqa Ascii String ZArith Lia Permutation Sorted.
From stdpp Require Import gmap strings list fin_maps.


(* ===================================================================== *)
(** * Part I. The embedding                                               *)
(* ===================================================================== *)

(** ** Python primitives shared by the services *)

Module Py.

(** A Python string read character by character. *)
Abbreviation str := (list ascii).

Definition lit (s : string) : str := String.list_ascii_of_string s.

(** [min(a, b, c)] on non-negative integers. *)
Definition min3 (a b c : nat) : nat := Nat.min a (Nat.min b c).

(** [ord(c)]. *)
Definition ord (c : ascii) : Z := Z.of_nat (nat_of_ascii c).

(** The strings of the model are ASCII text: the character predicates below
    are those of Python on code points below 128. *)
Definition is_ascii (c : ascii) : bool := (ord c <? 128)%Z.

Definition ascii_text (s : str) : Prop := Forall (fun c => is_ascii c = true) s.

Definition isdigit (c : ascii) : bool := ((48 <=? ord c) && (ord c <=? 57))%Z.
Definition isupper (c : ascii) : bool := ((65 <=? ord c) && (ord c <=? 90))%Z.
Definition islower (c : ascii) : bool := ((97 <=? ord c) && (ord c <=? 122))%Z.
Definition isalpha (c : ascii) : bool := isupper c || islower c.

(** [str.isspace] (also the class [\s] of [re] on [str] patterns):
    TAB, LF, VT, FF, CR, the separators FS, GS, RS, US, and the space. *)
Definition isspace (c : ascii) : bool :=
  (((9 <=? ord c) && (ord c <=? 13)) || ((28 <=? ord c) && (ord c <=? 32)))%Z.

Definition upper_char (c : ascii) : ascii :=
  if islower c then ascii_of_nat (nat_of_ascii c - 32) else c.

(** [s.upper()]. *)
Definition upper (s : str) : str := List.map upper_char s.

Definition lower_char (c : ascii) : ascii :=
  if isupper c then ascii_of_nat (nat_of_ascii c + 32) else c.

(** [s.lower()]. *)
Definition lower (s : str) : str := List.map lower_char s.

(** [s.startswith(p)]. *)
Definition startswith (s p : str) : bool := bool_decide (take (length p) s = p).

(** [sub in s]. *)
Fixpoint contains (sub s : str) : bool :=
  startswith s sub
  || match s with
     | [] => false
     | _ :: s' => contains sub s'
     end.

(** [s.lstrip()] and [s.strip()]. *)
Fixpoint lstrip (s : str) : str :=
  match s with
  | [] => []
  | c :: s' => if isspace c then lstrip s' else s
  end.

Definition strip (s : str) : str := rev (lstrip (rev (lstrip s))).

(** [s.replace(c, '')] for a one-character pattern [c]. *)
Definition remove_char (c : ascii) (s : str) : str :=
  List.filter (fun x => negb (Ascii.eqb x c)) s.

(** [l[i]] for an integer [i]: negative indices count from the end, and an
    index outside the list raises [IndexError] ([None]). *)
Definition index {A} (l : list A) (i : Z) : option A :=
  if (0 <=? i)%Z then l !! Z.to_nat i
  else if (- Z.of_nat (length l) <=? i)%Z then l !! Z.to_nat (Z.of_nat (length l) + i)
  else None.

(** [l[a:b]] for [0 <= a <= b]: the bounds are clamped to the list. *)
Definition slice {A} (l : list A) (a b : nat) : list A := take (b - a) (drop a l).

(** [range(0, stop, step)]. *)
Definition range_step (stop step : nat) : list nat :=
  List.map (fun k => (k * step)%nat) (seq 0 ((stop + step - 1) / step)).

(** Strict comparison of floats. *)
Definition Qltb (x y : Q) : bool := negb (Qle_bool y x).

(** [max(l)] on floats: the first greatest element; [ValueError] ([None]) on
    an empty list. *)
Definition maxQ (l : list Q) : option Q :=
  match l with
  | [] => None
  | x :: l' => Some (fold_left (fun m y => if Qltb m y then y else m) l' x)
  end.

(** [l[start:]] for an integer [start]. *)
Definition slice_from {A} (l : list A) (start : Z) : list A :=
  if (start <? 0)%Z then drop (Z.to_nat (Z.of_nat (length l) + start)) l
  else drop (Z.to_nat start) l.

#[global] Instance Qlt_decision (x y : Q) : Decision (x < y)%Q.
Proof.
  destruct (Qlt_le_dec x y) as [H|H]; [left; exact H | right].
  apply Qle_not_lt, H.
Defined.

#[global] Instance Qle_decision (x y : Q) : Decision (x <= y)%Q.
Proof.
  destruct (Qlt_le_dec y x) as [H|H]; [right | left; exact H].
  apply Qlt_not_le, H.
Defined.

(** The sum of a list of floats. *)
Definition sumQ (l : list Q) : Q := fold_right Qplus 0%Q l.

(** [sum(l)] on integers. *)
Definition sumZ (l : list Z) : Z := fold_left Z.add l 0%Z.

End Py.

Import Py.

(** ** Edit distance: the reference notion and the two implementations *)

Module Levenshtein.

Definition subst_cost (a b : ascii) : nat := if Ascii.eqb a b then 0 else 1.

(** The textbook recurrence on the first characters. *)
Fixpoint lev (s t : str) : nat :=
  match s with
  | [] => length t
  | a :: s' =>
      (fix lev_row (t : str) : nat :=
         match t with
         | [] => length s
         | b :: t' =>
             min3 (lev s' t + 1) (lev_row t' + 1) (lev s' t' + subst_cost a b)
         end) t
  end.

(** Edit scripts: [edit n s t] when [s] is turned into [t] by a left-to-right
    alignment using deletions, insertions and substitutions of total cost
    [n] (a substitution of a character by itself is free). *)
Inductive edit : nat -> str -> str -> Prop :=
| edit_nil : edit 0 [] []
| edit_del a s t n : edit n s t -> edit (S n) (a :: s) t
| edit_ins b s t n : edit n s t -> edit (S n) s (b :: t)
| edit_sub a b s t n : edit n s t -> edit (n + subst_cost a b) (a :: s) (b :: t).

(** *** [WordResolver._levenshtein_distance]  (word_resolver.py) *)

(** The loop [for i1, c1 in enumerate(s1)]: [distances] is the previous row,
    [distances_] the row under construction. *)
Fixpoint wr_inner (c2 : ascii) (distances : list nat) (i1 : nat) (s1 : str)
    (distances_ : list nat) : option (list nat) :=
  match s1 with
  | [] => Some distances_
  | c1 :: s1' =>
      if Ascii.eqb c1 c2 then
        d ← distances !! i1;
        wr_inner c2 distances (S i1) s1' (distances_ ++ [d])
      else
        d0 ← distances !! i1;
        d1 ← distances !! (i1 + 1);
        dl ← last distances_;
        wr_inner c2 distances (S i1) s1' (distances_ ++ [1 + min3 d0 d1 dl])
  end.

(** The loop [for i2, c2 in enumerate(s2)]. *)
Fixpoint wr_outer (s1 : str) (i2 : nat) (s2 : str) (distances : list nat)
    : option (list nat) :=
  match s2 with
  | [] => Some distances
  | c2 :: s2' =>
      distances_ ← wr_inner c2 distances 0 s1 [i2 + 1];
      wr_outer s1 (S i2) s2' distances_
  end.

Definition _levenshtein_distance (s1 s2 : str) : option nat :=
  let '(s1, s2) := if length s2 <? length s1 then (s2, s1) else (s1, s2) in
  distances ← wr_outer s1 0 s2 (seq 0 (length s1 + 1));
  last distances.

(** *** [levenshtein_distance]  (kb-aliases/lambda_function.py) *)

(** The loop [for j, c2 in enumerate(s2)]. *)
Fixpoint kb_inner (c1 : ascii) (previous_row : list nat) (j : nat) (s2 : str)
    (current_row : list nat) : option (list nat) :=
  match s2 with
  | [] => Some current_row
  | c2 :: s2' =>
      p1 ← previous_row !! (j + 1);
      cj ← current_row !! j;
      p0 ← previous_row !! j;
      let insertions := p1 + 1 in
      let deletions := cj + 1 in
      let substitutions := p0 + (if Ascii.eqb c1 c2 then 0 else 1) in
      kb_inner c1 previous_row (S j) s2'
        (current_row ++ [min3 insertions deletions substitutions])
  end.

(** The loop [for i, c1 in enumerate(s1)]. *)
Fixpoint kb_outer (s2 : str) (i : nat) (s1 : str) (previous_row : list nat)
    : option (list nat) :=
  match s1 with
  | [] => Some previous_row
  | c1 :: s1' =>
      current_row ← kb_inner c1 previous_row 0 s2 [i + 1];
      kb_outer s2 (S i) s1' current_row
  end.

(** The body below the length guard. *)
Definition levenshtein_rows (s1 s2 : str) : option nat :=
  if length s2 =? 0 then Some (length s1)
  else
    previous_row ← kb_outer s2 0 s1 (seq 0 (length s2 + 1));
    last previous_row.

(** [if len(s1) < len(s2): return levenshtein_distance(s2, s1)]: the guard of
    the swapped call is false, so the recursion is one level deep. *)
Definition levenshtein_distance (s1 s2 : str) : option nat :=
  if length s1 <? length s2 then levenshtein_rows s2 s1
  else levenshtein_rows s1 s2.

End Levenshtein.

(** ** Alias validation  (iac/lambda/kb-aliases/lambda_function.py) *)

Module AliasBuilder.
Import Levenshtein.
#[local] Open Scope Q_scope.

(** Indices: 0-9 = digits 0-9, 10-35 = letters A-Z, 36 = "_". *)
Definition CONFUSION_MATRIX : list (list Z) :=
  [
   [434; 12; 1; 0; 1; 1; 0; 2; 0; 0; 2; 0; 9; 2; 2; 0; 0; 0; 0; 2; 0; 0; 0; 3; 8; 1; 0; 0; 0; 4; 0; 0; 0; 1; 1; 0; 20];
   [2; 681; 19; 0; 0; 0; 3; 2; 0; 0; 18; 2; 0; 48; 1; 0; 1; 0; 2; 0; 3; 0; 0; 7; 2; 1; 0; 1; 3; 10; 0; 0; 1; 7; 1; 0; 3];
   [5; 129; 542; 11; 0; 3; 11; 3; 2; 1; 6; 2; 1; 9; 2; 0; 1; 0; 1; 0; 25; 3; 0; 4; 2; 0; 0; 0; 7; 10; 8; 40; 0; 0; 1; 0; 1];
   [5; 20; 8; 1100; 3; 12; 0; 2; 2; 3; 3; 0; 1; 8; 0; 0; 0; 0; 0; 0; 7; 9; 0; 0; 0; 0; 1; 0; 0; 2; 0; 2; 0; 0; 0; 0; 5];
   [4; 1; 1; 2; 1272; 23; 0; 1; 0; 1; 0; 10; 0; 1; 1; 1; 0; 0; 0; 0; 0; 0; 0; 2; 0; 0; 0; 0; 0; 0; 0; 0; 1; 0; 0; 0; 3];
   [1; 1; 0; 2; 19; 1862; 0; 1; 4; 2; 1; 1; 0; 1; 0; 0; 0; 0; 0; 1; 2; 0; 0; 0; 0; 0; 1; 0; 0; 0; 0; 1; 1; 0; 0; 0; 0];
   [7; 13; 24; 2; 7; 10; 680; 9; 8; 0; 7; 0; 5; 1; 1; 0; 0; 0; 0; 0; 1; 0; 0; 0; 0; 0; 0; 0; 0; 2; 3; 5; 44; 3; 1; 1; 2];
   [9; 10; 5; 2; 40; 7; 7; 1018; 9; 3; 12; 0; 7; 0; 0; 0; 0; 0; 8; 0; 1; 0; 0; 1; 3; 0; 0; 0; 0; 3; 0; 4; 0; 0; 0; 0; 6];
   [4; 3; 1; 2; 26; 13; 4; 25; 1049; 21; 2; 1; 0; 0; 1; 0; 0; 0; 2; 0; 0; 0; 0; 1; 6; 0; 0; 0; 0; 4; 0; 0; 0; 0; 1; 1; 1];
   [5; 3; 1; 2; 3; 12; 1; 1; 1; 1138; 0; 1; 1; 0; 0; 22; 0; 0; 0; 0; 7; 0; 0; 0; 1; 0; 0; 0; 0; 1; 0; 0; 0; 0; 0; 0; 0];
   [3; 19; 2; 3; 1; 2; 0; 5; 0; 2; 954; 7; 3; 3; 0; 0; 0; 0; 1; 0; 8; 0; 0; 0; 0; 0; 0; 0; 0; 5; 0; 0; 0; 2; 0; 0; 0];
   [0; 0; 0; 0; 0; 0; 0; 0; 0; 0; 0; 1772; 0; 0; 0; 0; 0; 0; 0; 0; 0; 0; 0; 0; 0; 0; 0; 0; 0; 0; 0; 0; 0; 0; 0; 0; 0];
   [10; 0; 0; 0; 0; 0; 0; 0; 0; 0; 0; 0; 1685; 0; 0; 0; 0; 0; 0; 0; 0; 0; 0; 0; 0; 0; 0; 0; 0; 0; 0; 0; 0; 0; 0; 2; 16];
   [0; 21; 1; 0; 0; 0; 0; 0; 0; 0; 0; 0; 0; 1746; 0; 0; 0; 0; 0; 0; 0; 0; 0; 2; 0; 0; 0; 0; 0; 1; 0; 1; 0; 0; 0; 0; 0];
   [1; 1; 0; 0; 0; 0; 0; 0; 0; 0; 2; 0; 0; 0; 63; 0; 0; 0; 0; 0; 0; 0; 0; 1; 2; 0; 1; 0; 0; 5; 0; 0; 0; 0; 0; 0; 0];
   [0; 0; 0; 0; 0; 0; 0; 0; 0; 31; 0; 10; 0; 0; 0; 1740; 0; 0; 0; 0; 0; 0; 0; 0; 0; 0; 0; 0; 0; 0; 0; 0; 0; 0; 0; 0; 0];
   [1; 1; 0; 0; 0; 0; 0; 0; 0; 0; 0; 0; 0; 0; 0; 0; 1762; 3; 0; 0; 0; 0; 0; 0; 0; 1; 0; 0; 0; 0; 0; 0; 0; 0; 0; 2; 0];
   [0; 0; 0; 0; 0; 0; 0; 0; 0; 0; 0; 0; 0; 1; 0; 0; 0; 1770; 0; 0; 0; 0; 0; 0; 0; 0; 0; 0; 0; 0; 0; 0; 0; 0; 1; 1; 3];
   [0; 0; 0; 0; 0; 0; 0; 0; 0; 0; 0; 0; 0; 1; 0; 0; 0; 0; 1700; 4; 0; 0; 0; 0; 0; 0; 0; 0; 0; 0; 0; 0; 0; 0; 0; 0; 0];
   [4; 2; 0; 0; 1; 0; 0; 2; 0; 0; 1; 0; 0; 0; 0; 0; 2; 0; 4; 1360; 0; 0; 0; 1; 0; 1; 0; 0; 0; 3; 0; 0; 0; 1; 0; 2; 4];
   [0; 1; 2; 0; 0; 3; 0; 1; 0; 0; 1; 0; 0; 0; 0; 0; 0; 0; 0; 0; 1670; 0; 0; 1; 0; 0; 0; 0; 0; 0; 0; 0; 0; 0; 0; 0; 0];
   [0; 0; 0; 0; 0; 0; 0; 0; 0; 0; 0; 0; 0; 0; 0; 0; 0; 0; 0; 0; 0; 1547; 0; 0; 0; 0; 0; 0; 0; 0; 0; 0; 0; 0; 0; 0; 0];
   [6; 0; 0; 0; 0; 0; 0; 0; 0; 0; 0; 0; 1; 1; 3; 0; 0; 0; 0; 0; 0; 0; 16; 3; 0; 0; 0; 0; 0; 1; 0; 0; 0; 0; 0; 1; 2];
   [2; 2; 0; 0; 0; 0; 0; 0; 0; 0; 1; 0; 0; 0; 2; 0; 0; 0; 0; 0; 1; 0; 5; 1509; 0; 0; 0; 0; 2; 1; 0; 0; 0; 0; 0; 0; 0];
   [79; 2; 0; 0; 0; 0; 0; 0; 2; 0; 1; 0; 0; 3; 0; 0; 0; 0; 0; 0; 0; 0; 0; 0; 36; 0; 0; 0; 1; 1; 0; 0; 0; 0; 0; 0; 0];
   [0; 0; 1; 0; 0; 0; 0; 0; 0; 0; 0; 0; 0; 0; 0; 0; 0; 0; 0; 0; 0; 0; 0; 0; 0; 1760; 0; 0; 0; 1; 0; 0; 0; 0; 0; 1; 0];
   [1; 0; 0; 0; 0; 0; 0; 0; 0; 0; 0; 0; 0; 0; 0; 0; 0; 0; 0; 0; 0; 0; 0; 0; 0; 0; 1761; 0; 1; 4; 0; 0; 0; 0; 0; 0; 0];
   [0; 2; 1; 0; 0; 0; 0; 0; 0; 0; 0; 0; 0; 4; 0; 0; 0; 0; 0; 0; 4; 0; 0; 0; 0; 0; 0; 852; 0; 0; 12; 5; 0; 0; 0; 0; 0];
   [9; 12; 0; 0; 0; 0; 0; 1; 0; 0; 4; 0; 6; 2; 3; 0; 0; 0; 0; 0; 0; 0; 0; 12; 10; 0; 3; 0; 19; 6; 0; 0; 0; 0; 0; 0; 1];
   [4; 11; 0; 0; 0; 3; 0; 1; 1; 1; 10; 0; 0; 2; 1; 0; 0; 0; 0; 0; 1; 0; 0; 3; 3; 0; 1; 0; 0; 394; 0; 0; 0; 1; 1; 0; 0];
   [0; 0; 0; 0; 0; 0; 0; 0; 0; 0; 0; 0; 0; 0; 0; 0; 0; 0; 0; 0; 0; 0; 0; 0; 0; 0; 0; 0; 0; 0; 1553; 0; 0; 0; 0; 0; 0];
   [0; 0; 14; 0; 0; 0; 0; 2; 0; 0; 0; 0; 0; 12; 0; 0; 0; 0; 0; 0; 2; 0; 0; 0; 0; 0; 0; 2; 0; 0; 6; 852; 1; 0; 0; 0; 0];
   [0; 0; 0; 0; 0; 0; 8; 0; 0; 9; 0; 0; 0; 0; 0; 0; 0; 0; 0; 0; 0; 0; 0; 0; 0; 0; 0; 0; 0; 0; 0; 0; 1738; 0; 0; 0; 0];
   [1; 0; 0; 0; 0; 0; 0; 0; 0; 0; 0; 0; 1; 0; 0; 0; 0; 0; 0; 0; 0; 0; 0; 1; 0; 0; 0; 1; 0; 0; 0; 0; 0; 1765; 0; 0; 1];
   [3; 6; 3; 0; 0; 3; 0; 2; 3; 2; 15; 0; 0; 0; 3; 0; 0; 0; 0; 0; 3; 0; 0; 0; 1; 0; 0; 0; 0; 4; 0; 0; 0; 1; 97; 0; 5];
   [2; 2; 0; 0; 0; 0; 0; 0; 0; 0; 0; 0; 0; 0; 0; 0; 1; 1; 0; 0; 0; 0; 0; 0; 0; 1; 1; 0; 0; 0; 0; 0; 0; 0; 1; 1499; 16];
   [1; 1; 0; 0; 0; 0; 0; 0; 0; 0; 0; 0; 0; 0; 0; 0; 0; 0; 0; 0; 0; 0; 0; 0; 0; 0; 0; 0; 0; 0; 0; 0; 0; 0; 0; 1; 881]
  ]%Z.

Definition char_to_idx (char : ascii) : Z :=
  if isdigit char then (ord char - 48)%Z
  else if isalpha char then (ord (upper_char char) - ord "A" + 10)%Z
  else if Ascii.eqb char "_" then 36%Z
  else (-1)%Z.

Definition KNOWN_CONFUSION_PAIRS : list (ascii * ascii) :=
  [
    (* Digit-Letter swaps (from test_pairs) *)
    ("W", "6"); ("6", "W");
    ("W", "3"); ("3", "W");
    ("V", "2"); ("2", "V");
    ("F", "9"); ("9", "F");
    ("D", "1"); ("1", "D");
    ("O", "0"); ("0", "O");
    (* Compact-fist group (E, S, N, T, M, A) - excluding pairs model handles well *)
    ("A", "T"); ("T", "A"); ("A", "E"); ("E", "A");
    ("E", "S"); ("S", "E"); ("E", "T"); ("T", "E");
    ("E", "N"); ("N", "E"); ("E", "M"); ("M", "E");
    ("T", "M"); ("M", "T"); ("S", "N"); ("N", "S"); ("S", "T"); ("T", "S");
    ("N", "M"); ("M", "N");
    (* Orientation/mirror pairs (H, 7, V, U, R) *)
    ("H", "U"); ("U", "H"); ("H", "V"); ("V", "H"); ("H", "7"); ("7", "H");
    ("R", "U"); ("U", "R"); ("R", "V"); ("V", "R");
    ("U", "V"); ("V", "U"); ("U", "7"); ("7", "U");
    ("V", "7"); ("7", "V");
    (* Circle/thumb-contact *)
    ("C", "O"); ("O", "C"); ("C", "0"); ("0", "C");
    (* Dynamic/motion *)
    ("J", "Z"); ("Z", "J");
    ("J", "I"); ("I", "J");
    ("Z", "1"); ("1", "Z")
  ]%char.

Definition is_known_confusion (char1 char2 : ascii) : bool :=
  existsb (fun p => Ascii.eqb (fst p) (upper_char char1)
                    && Ascii.eqb (snd p) (upper_char char2))
    KNOWN_CONFUSION_PAIRS.

Definition get_confusion_prob (char1 char2 : ascii) : option Q :=
  let idx1 := char_to_idx char1 in
  let idx2 := char_to_idx char2 in
  if ((idx1 =? -1) || (idx2 =? -1))%Z then Some 0
  else
    row ← index CONFUSION_MATRIX idx1;
    count ← index row idx2;
    let total := sumZ row in
    Some (if (0 <? total)%Z then inject_Z count / inject_Z total else 0).

(** The loop [for i in range(min_len)] of [confusion_weighted_edit_distance],
    with its two accumulators. *)
Fixpoint score_loop (surface_clean alias_clean : str) (range : list nat)
    (score : Q) (matches : nat) : option (Q * nat) :=
  match range with
  | [] => Some (score, matches)
  | i :: range' =>
      a ← surface_clean !! i;
      b ← alias_clean !! i;
      if Ascii.eqb a b then
        score_loop surface_clean alias_clean range' (score + 1) (matches + 1)%nat
      else
        conf_prob ← get_confusion_prob a b;
        let conf_prob :=
          if Qltb conf_prob (3 # 10) && is_known_confusion a b
          then Qmax conf_prob (2 # 5)
          else conf_prob in
        score_loop surface_clean alias_clean range' (score + conf_prob) matches
  end.

Definition confusion_weighted_edit_distance (surface alias : str) : option Q :=
  let surface_clean := remove_char "-" (remove_char " " surface) in
  let alias_clean := remove_char "-" (remove_char " " alias) in
  edit_dist ← levenshtein_distance surface_clean alias_clean;
  if 2 <? edit_dist then Some 0
  else
    let min_len := Nat.min (length surface_clean) (length alias_clean) in
    r ← score_loop surface_clean alias_clean (seq 0 min_len) 0 0%nat;
    let score := fst r in
    let max_score := length surface_clean in
    Some (if 0 <? max_score then score / inject_Z (Z.of_nat max_score) else 0).

(** The character class [[A-Z0-9\-\s]]. *)
Definition alias_class (c : ascii) : bool :=
  isupper c || isdigit c || Ascii.eqb c "-" || isspace c.

Definition class_run (s : str) : bool :=
  (2 <=? length s) && (length s <=? 40) && forallb alias_class s.

(** [re.match(r'^[A-Z0-9\-\s]{2,40}$', s)]: the run covers the whole string,
    or all of it but a final line feed (where [$] also matches). *)
Definition alias_pattern_match (s : str) : bool :=
  class_run s
  || match rev s with
     | c :: s' => Ascii.eqb c "010" && class_run (rev s')
     | [] => false
     end.

Definition validate_alias (surface alias : str) : option (bool * Q) :=
  let alias := strip (upper alias) in
  let surface := strip (upper surface) in
  if (length alias <? 2) || (40 <? length alias) then Some (false, 0)
  else if negb (alias_pattern_match alias) then Some (false, 0)
  else
    let clean_alias := remove_char "-" (remove_char " " alias) in
    let clean_surface := remove_char "-" (remove_char " " surface) in
    d ← levenshtein_distance clean_surface clean_alias;
    if 2 <? d then Some (false, 0)
    else
      score ← confusion_weighted_edit_distance surface alias;
      if Qltb score (1 # 2) then Some (false, score) else Some (true, score).

End AliasBuilder.

(** The validity conditions as the specification words them. *)

Module AliasSpec.
Import Levenshtein.
#[local] Open Scope Q_scope.

(** Position in the 37-symbol alphabet: digits, then letters, then ["_"]. *)
Definition ALPHABET : str := lit "0123456789ABCDEFGHIJKLMNOPQRSTUVWXYZ_".

Fixpoint position (c : ascii) (l : str) : option nat :=
  match l with
  | [] => None
  | x :: l' => if Ascii.eqb x c then Some 0%nat else S <$> position c l'
  end.

Definition symbol (c : ascii) : option nat := position (upper_char c) ALPHABET.

Definition count (i j : nat) : Z :=
  nth j (nth i AliasBuilder.CONFUSION_MATRIX []) 0%Z.

Definition row_total (i : nat) : Z :=
  sumZ (nth i AliasBuilder.CONFUSION_MATRIX []).

(** Row-normalised confusion probability; 0 outside the alphabet. *)
Definition confusion_probability (a b : ascii) : Q :=
  match symbol a, symbol b with
  | Some i, Some j => inject_Z (count i j) / inject_Z (row_total i)
  | _, _ => 0
  end.

Definition known_confusion (a b : ascii) : Prop :=
  In (upper_char a, upper_char b) AliasBuilder.KNOWN_CONFUSION_PAIRS.

#[global] Instance known_confusion_dec a b : Decision (known_confusion a b).
Proof. unfold known_confusion. apply _. Defined.

(** Contribution of one aligned pair of characters. *)
Definition pair_score (a b : ascii) : Q :=
  if decide (a = b) then 1
  else
    let p := confusion_probability a b in
    if decide (p < 3 # 10 /\ known_confusion a b) then 2 # 5 else p.

Definition clean (s : str) : str :=
  List.filter (fun c => negb (Ascii.eqb c " ") && negb (Ascii.eqb c "-")) s.

(** The confusion-weighted score of an alias against a surface. *)
Definition confusion_score (surface alias : str) : Q :=
  sumQ (zip_with pair_score (clean surface) (clean alias))
  / inject_Z (Z.of_nat (length (clean surface))).

(** The character class of aliases, and the pattern [[A-Z0-9\-\s]{2,40}]. *)
Definition alias_symbol (c : ascii) : Prop :=
  isupper c = true \/ isdigit c = true \/ c = "-"%char \/ isspace c = true.

Definition well_formed (s : str) : Prop :=
  (2 <= length s <= 40)%nat /\ Forall alias_symbol s.


End AliasSpec.

(** ** Hand extractor and classifier bridge
       (src/letter-model-service/services/asl_service.py,
        src/letter-model-service/services/keypoint_classifier.py) *)

Module KeyPointClassifier.
#[local] Open Scope Q_scope.

(** [np.argmax]: the first index of a greatest entry. *)
Fixpoint argmax_from (i best : nat) (best_val : Q) (l : list Q) : nat :=
  match l with
  | [] => best
  | x :: l' =>
      if Qltb best_val x then argmax_from (S i) i x l'
      else argmax_from (S i) best best_val l'
  end.

Definition argmax (l : list Q) : option nat :=
  match l with
  | [] => None
  | x :: l' => Some (argmax_from 1 0 x l')
  end.

(** [landmark_input = landmark_list[2:]], the tensor handed to the
    interpreter. *)
Definition landmark_input (landmark_list : list Q) : list Q :=
  slice_from landmark_list 2.

(** [__call__]: the TensorFlow Lite interpreter is the function
    [interpreter] from the input tensor to the squeezed output tensor. *)
Definition call (interpreter : list Q -> list Q) (landmark_list : list Q)
    : option (nat * Q) :=
  let probabilities := interpreter (landmark_input landmark_list) in
  result_index ← argmax probabilities;
  confidence_score ← probabilities !! result_index;
  Some (result_index, confidence_score).

End KeyPointClassifier.

Module LetterASLService.
#[local] Open Scope Q_scope.

Definition POSE_LANDMARKS : nat := 33.
Definition FACE_LANDMARKS : nat := 468.
Definition HAND_LANDMARKS : nat := 21.

Definition POSE_START : nat := 0.
Definition POSE_END : nat := POSE_LANDMARKS * 4.
Definition FACE_START : nat := POSE_END.
Definition FACE_END : nat := FACE_START + FACE_LANDMARKS * 3.
Definition LEFT_HAND_START : nat := FACE_END.
Definition LEFT_HAND_END : nat := LEFT_HAND_START + HAND_LANDMARKS * 3.
Definition RIGHT_HAND_START : nat := LEFT_HAND_END.
Definition RIGHT_HAND_END : nat := RIGHT_HAND_START + HAND_LANDMARKS * 3.

Inductive Hand := LeftHand | RightHand.

(** The dictionary returned by [extract_hand_from_holistic]. *)
Record Extraction := {
  hand_landmarks : option (list (Q * Q));
  handedness : option Hand;
  multi_hand : bool;
  skip_inference : bool
}.

(** [any(abs(val) > 0.01 for val in hand_data)]. *)
Definition hand_active (hand_data : list Q) : bool :=
  existsb (fun val => Qltb (1 # 100) (Qabs val)) hand_data.

(** The loop [for i in range(0, len(hand_data), 3)]. *)
Fixpoint reshape_xy (range : list nat) (hand_data : list Q)
    (hand_landmarks : list (Q * Q)) : option (list (Q * Q)) :=
  match range with
  | [] => Some hand_landmarks
  | i :: range' =>
      x ← hand_data !! i;
      y ← hand_data !! (i + 1)%nat;
      reshape_xy range' hand_data (hand_landmarks ++ [(x, y)])
  end.

Definition extract_hand_from_holistic (holistic_landmarks : list Q)
    : option Extraction :=
  let left_hand_data := slice holistic_landmarks LEFT_HAND_START LEFT_HAND_END in
  let right_hand_data := slice holistic_landmarks RIGHT_HAND_START RIGHT_HAND_END in
  let left_hand_active := hand_active left_hand_data in
  let right_hand_active := hand_active right_hand_data in
  if left_hand_active && right_hand_active then
    Some {| hand_landmarks := None; handedness := None;
            multi_hand := true; skip_inference := true |}
  else
    let selected :=
      if right_hand_active then Some (right_hand_data, RightHand)
      else if left_hand_active then Some (left_hand_data, LeftHand)
      else None in
    match selected with
    | None =>
        Some {| hand_landmarks := None; handedness := None;
                multi_hand := false; skip_inference := true |}
    | Some (hand_data, hand) =>
        pts ← reshape_xy (range_step (length hand_data) 3) hand_data [];
        Some {| hand_landmarks := Some pts; handedness := Some hand;
                multi_hand := false; skip_inference := false |}
    end.

(** The loop [for index, landmark_point in enumerate(temp_landmark_list)]:
    the base point is taken at index 0 and subtracted from every point. *)
Fixpoint to_relative (index : nat) (base : Q * Q) (points : list (Q * Q))
    : list (Q * Q) :=
  match points with
  | [] => []
  | landmark_point :: points' =>
      let base := if (index =? 0)%nat then landmark_point else base in
      (fst landmark_point - fst base, snd landmark_point - snd base)
        :: to_relative (S index) base points'
  end.

(** [itertools.chain.from_iterable]. *)
Definition flatten (points : list (Q * Q)) : list Q :=
  concat (List.map (fun p => [fst p; snd p]) points).

Definition normalize_ (max_value n : Q) : Q :=
  if negb (Qeq_bool max_value 0) then n / max_value else 0.

Definition pre_process_landmark (landmark_list : list (Q * Q)) : option (list Q) :=
  let temp_landmark_list := to_relative 0 (0, 0) landmark_list in
  let temp_landmark_list := flatten temp_landmark_list in
  max_value ← maxQ (List.map Qabs temp_landmark_list);
  Some (List.map (normalize_ max_value) temp_landmark_list).

Inductive Exn := RuntimeError | ValueError.

Inductive Result (A : Type) :=
| Return (a : A)
| Raise (e : Exn).
Arguments Return {A} a.
Arguments Raise {A} e.

(** The response of [predict_from_landmarks], without its clock-derived
    fields ([timestamp], [processing_time_ms]). *)
Inductive Response :=
| Skipped (skip_reason : string) (multi_hand : bool) (handedness : option Hand)
| Predicted (prediction : str) (confidence : Q) (handedness : option Hand).

Definition strip_ASL_prefix (label : str) : str :=
  if decide (take 4 label = lit "ASL ") then drop 4 label else label.

Definition predict_from_landmarks (model_initialized : bool)
    (interpreter : list Q -> list Q) (keypoint_classifier_labels : list str)
    (landmarks_list : list Q) : Result Response :=
  if negb model_initialized then Raise RuntimeError
  else
    match extract_hand_from_holistic landmarks_list with
    | None => Raise RuntimeError
    | Some hand_extraction =>
        if skip_inference hand_extraction then
          Return (Skipped
                    (if multi_hand hand_extraction then "multi_hand" else "no_hands")
                    (multi_hand hand_extraction) (handedness hand_extraction))
        else
          match hand_landmarks hand_extraction ≫= pre_process_landmark with
          | None => Raise RuntimeError
          | Some pre_processed_landmarks =>
              if negb (length pre_processed_landmarks =? 42)%nat then Raise ValueError
              else
                match KeyPointClassifier.call interpreter pre_processed_landmarks with
                | None => Raise RuntimeError
                | Some (hand_sign_id, confidence) =>
                    match keypoint_classifier_labels !! hand_sign_id with
                    | Some prediction =>
                        Return (Predicted (strip_ASL_prefix prediction) confidence
                                  (handedness hand_extraction))
                    | None =>
                        Return (Predicted (lit "Unknown") 0
                                  (handedness hand_extraction))
                    end
                end
          end
    end.

End LetterASLService.

(** The preprocessing as the specification words it. *)

Module HandSpec.
#[local] Open Scope Q_scope.

(** A hand block is active when some magnitude in it exceeds 0.01. *)
Definition active (block : list Q) : Prop := Exists (fun v => 1 # 100 < Qabs v) block.

Definition left_block (frame : list Q) : list Q := take 63 (drop 1536 frame).
Definition right_block (frame : list Q) : list Q := take 63 (drop 1599 frame).

(** The 21 points of a block: x and y of each triple, z dropped. *)
Definition points_of (block : list Q) : list (Q * Q) :=
  List.map (fun k => (nth (k * 3) block 0, nth (k * 3 + 1) block 0)) (seq 0 21).

(** [m] is the greatest magnitude among the values of [l]. *)
Definition greatest_magnitude (m : Q) (l : list Q) : Prop :=
  Forall (fun v => Qabs v <= m) l /\ Exists (fun v => Qabs v == m) l.


End HandSpec.

(** ** Ingress multiplexer  (iac/lambda/ingress_handler.py) *)

Module IngressHandler.

(** A number as [json.loads] reads it: besides finite values, the literals
    [NaN], [Infinity] and [-Infinity] are accepted. *)
Inductive JNumber := Finite (q : Q) | NaN | PosInfinity | NegInfinity.

Definition is_finite (x : JNumber) : bool :=
  match x with Finite _ => true | _ => false end.

(** The parsed message: [session_id] and [data] may be absent. *)
Record Message := {
  msg_session_id : option string;
  msg_data : option (list JNumber)
}.

(** What [json.loads(body)] gives: a decode error, a value that is not an
    object (on which [.get] raises), or an object. *)
Inductive Body :=
| Malformed
| NotAnObject
| Object (message_data : Message).

Record Event := {
  routeKey : option string;
  connectionId : option string;
  body : Body;
  requestTimeEpoch : option Z
}.

Record KinesisRecord := {
  session_id : string;
  connection_id : option string;
  timestamp : Z;
  landmarks : list JNumber;
  event_time : option Z
}.

(** A row of the connection registry. *)
Record Connection := {
  conn_session_id : string;
  connected_at : option Z;
  last_activity : option Z;
  ttl : option Z
}.

(** The landmarks stream and the connection registry. *)
Record Cloud := {
  stream : list KinesisRecord;
  connections : gmap string Connection
}.

(** Whether the calls to the two services succeed during one invocation. *)
Record Availability := {
  dynamodb_ok : bool;
  kinesis_ok : bool
}.

Record Response := {
  statusCode : Z;
  response_body : option string
}.

Definition put_stream (r : KinesisRecord) (c : Cloud) : Cloud :=
  {| stream := stream c ++ [r]; connections := connections c |}.

Definition put_connections (m : gmap string Connection) (c : Cloud) : Cloud :=
  {| stream := stream c; connections := m |}.

Definition handle_connect (up : Availability) (now : Z) (event : Event) (c : Cloud)
    : Response * Cloud :=
  let c :=
    match connectionId event with
    | Some connection_id =>
        if dynamodb_ok up then
          put_connections
            (<[connection_id :=
                 {| conn_session_id := "pending"; connected_at := Some now;
                    last_activity := None; ttl := Some (now + 86400)%Z |}]>
               (connections c)) c
        else c
    | None => c
    end in
  ({| statusCode := 200; response_body := Some "Connected" |}, c).

Definition handle_disconnect (up : Availability) (event : Event) (c : Cloud)
    : Response * Cloud :=
  let c :=
    match connectionId event with
    | Some connection_id =>
        if dynamodb_ok up then put_connections (delete connection_id (connections c)) c
        else c
    | None => c
    end in
  ({| statusCode := 200; response_body := Some "Disconnected" |}, c).

(** [update_item] sets [session_id] and [last_activity] on the row of the
    connection, creating the row when it is missing. *)
Definition update_item (connection_id session_id : string) (now : Z)
    (m : gmap string Connection) : gmap string Connection :=
  let old := m !! connection_id in
  <[connection_id :=
      {| conn_session_id := session_id;
         connected_at := old ≫= connected_at;
         last_activity := Some now;
         ttl := old ≫= ttl |}]> m.

Definition handle_landmarks (up : Availability) (now : Z) (event : Event) (c : Cloud)
    : Response * Cloud :=
  let connection_id := connectionId event in
  match body event with
  | Malformed => ({| statusCode := 400; response_body := None |}, c)
  | NotAnObject => ({| statusCode := 500; response_body := None |}, c)
  | Object message_data =>
      let session_id :=
        match msg_session_id message_data with
        | Some s => Some s
        | None => connection_id
        end in
      let landmarks := default [] (msg_data message_data) in
      if bool_decide (length landmarks = 0%nat) then
        ({| statusCode := 400;
            response_body := Some "No landmark data provided" |}, c)
      else
        let c :=
          match connection_id, session_id with
          | Some cid, Some sid =>
              if dynamodb_ok up then
                put_connections (update_item cid sid now (connections c)) c
              else c
          | _, _ => c
          end in
        match session_id with
        | Some sid =>
            if kinesis_ok up then
              ({| statusCode := 200; response_body := None |},
               put_stream {| session_id := sid; connection_id := connection_id;
                             timestamp := now; landmarks := landmarks;
                             event_time := requestTimeEpoch event |} c)
            else ({| statusCode := 500; response_body := None |}, c)
        | None => ({| statusCode := 500; response_body := None |}, c)
        end
  end.

Definition lambda_handler (up : Availability) (now : Z) (event : Event) (c : Cloud)
    : Response * Cloud :=
  match routeKey event with
  | Some "$connect" => handle_connect up now event c
  | Some "$disconnect" => handle_disconnect up event c
  | Some "$default" | Some "sendlandmarks" => handle_landmarks up now event c
  | _ => ({| statusCode := 400; response_body := Some "Unsupported route" |}, c)
  end.

End IngressHandler.

(** ** Word resolver service: configuration and data models
       (src/word-resolver-service/config.py, models.py) *)

Module Config.

Record Settings := {
  window_duration_ms : Z;
  stability_duration_ms : Z;
  pause_duration_ms : Z;
  max_consecutive_same : Z;
  min_confidence : Q;
  fuzzy_max_edits : Z;
  fuzzy_prefix_length : Z
}.

(** The defaults of [config.py]. *)
Definition settings : Settings :=
  {| window_duration_ms := 300;
     stability_duration_ms := 200;
     pause_duration_ms := 2000;
     max_consecutive_same := 1;
     min_confidence := 3 # 10;
     fuzzy_max_edits := 2;
     fuzzy_prefix_length := 0 |}.

End Config.

Module Models.
#[local] Open Scope Q_scope.

Record LetterEntry := {
  char : str;
  confidence : Q;
  timestamp : Q
}.

Record CommitCandidate := {
  cand_char : str;
  aggregate_confidence : Q;
  first_seen : Q;
  last_seen : Q;
  count : nat
}.

Definition stability_duration_ms (c : CommitCandidate) : Q :=
  (last_seen c - first_seen c) * 1000.

Record WordBuffer := {
  session_id : string;
  user_id : string;
  letters : list str;
  last_commit_time : option Q;
  created_at : Q
}.

Definition current_word (b : WordBuffer) : str := concat (letters b).

Record SearchResult := {
  surface : str;
  atlas_score : Q;
  alias_confidence : Q;
  hybrid_score : Q;
  matched_via : option str
}.

Record ResolvedWord := {
  rw_session_id : string;
  rw_user_id : string;
  raw_word : str;
  all_results : list SearchResult;
  rw_timestamp : Q;
  search_method : string
}.

(** A record of the letters stream, parsed into [LetterPrediction]. *)
Record LetterPrediction := {
  lp_session_id : string;
  event_type : string;
  prediction : option str;
  lp_confidence : option Q;
  skip_reason : option string
}.

End Models.

(** ** The state the service runs on *)

Module Runtime.
Import Models.

(** The Redis keys [window:<sid>] and [word:<sid>], the number of clock
    readings taken so far, and the payloads handed to the outbound Lambda.
    Key expiry (the 300 s TTL) is outside the model. *)
Record World := {
  windows : gmap string (list LetterEntry);
  words : gmap string WordBuffer;
  ticks : nat;
  outbound : list (string * ResolvedWord)
}.

Definition initial : World :=
  {| windows := ∅; words := ∅; ticks := 0; outbound := [] |}.

Definition with_windows (f : gmap string (list LetterEntry) -> gmap string (list LetterEntry))
    (w : World) : World :=
  {| windows := f (windows w); words := words w; ticks := ticks w;
     outbound := outbound w |}.

Definition with_words (f : gmap string WordBuffer -> gmap string WordBuffer)
    (w : World) : World :=
  {| windows := windows w; words := f (words w); ticks := ticks w;
     outbound := outbound w |}.

(** Computations that read and change the world. *)
Definition M (A : Type) : Type := World -> A * World.

#[global] Instance M_ret : MRet M := fun A (a : A) w => (a, w).

#[global] Instance M_bind : MBind M :=
  fun A B (k : A -> M B) (m : M A) w => let (a, w') := m w in k a w'.

Definition get : M World := fun w => (w, w).

Definition modify (f : World -> World) : M unit := fun w => (tt, f w).

(** [datetime.now().timestamp()] under the clock [clock]: each call takes
    the next reading. *)
Definition now (clock : nat -> Q) : M Q :=
  fun w => (clock (ticks w),
            {| windows := windows w; words := words w; ticks := S (ticks w);
               outbound := outbound w |}).

(** [lambda_client.invoke(...)] with the payload of a session. *)
Definition invoke_outbound (sid : string) (r : ResolvedWord) : M unit :=
  fun w => (tt, {| windows := windows w; words := words w; ticks := ticks w;
                   outbound := outbound w ++ [(sid, r)] |}).

(** [for x in l: f(x)]. *)
Fixpoint for_each {A} (l : list A) (f : A -> M unit) : M unit :=
  match l with
  | [] => mret tt
  | x :: l' => _ ← f x; for_each l' f
  end.

End Runtime.

(** ** Session store  (src/word-resolver-service/services/redis_manager.py) *)

Module RedisManager.
Import Models Runtime.
#[local] Open Scope Q_scope.

Section WithClock.
Variable clock : nat -> Q.

(** [rpush] on the window key. *)
Definition push_letter (session_id : string) (entry : LetterEntry) : M unit :=
  modify (with_windows (fun m => <[session_id := default [] (m !! session_id) ++ [entry]]> m)).

(** [lrange key 0 -1]: a missing key reads as the empty list. *)
Definition get_window (session_id : string) : M (list LetterEntry) :=
  w ← get; mret (default [] (windows w !! session_id)).

(** The loop of [prune_window] on the list stored under the key: pop from
    the left while the leftmost entry is older than the cutoff. *)
Fixpoint prune_loop (cutoff_timestamp : Q) (entries : list LetterEntry)
    (removed_count : nat) : list LetterEntry * nat :=
  match entries with
  | [] => ([], removed_count)
  | entry :: entries' =>
      if Qltb (timestamp entry) cutoff_timestamp
      then prune_loop cutoff_timestamp entries' (removed_count + 1)
      else (entries, removed_count)
  end.

(** Redis removes a list key when its last element is popped. *)
Definition store_list (session_id : string) (l : list LetterEntry)
    (m : gmap string (list LetterEntry)) : gmap string (list LetterEntry) :=
  match l with
  | [] => delete session_id m
  | _ => <[session_id := l]> m
  end.

Definition prune_window (session_id : string) (cutoff_timestamp : Q) : M nat :=
  w ← get;
  match windows w !! session_id with
  | None => mret 0%nat
  | Some entries =>
      let (rest, removed_count) := prune_loop cutoff_timestamp entries 0 in
      _ ← modify (with_windows (store_list session_id rest));
      mret removed_count
  end.

Definition clear_window (session_id : string) : M unit :=
  modify (with_windows (delete session_id)).

Definition set_word_buffer (buffer : WordBuffer) : M unit :=
  modify (with_words (<[Models.session_id buffer := buffer]>)).

(** Get or create the word buffer of a session. *)
Definition get_word_buffer (session_id user_id : string) : M WordBuffer :=
  w ← get;
  match words w !! session_id with
  | Some buffer => mret buffer
  | None =>
      t ← now clock;
      let buffer :=
        {| Models.session_id := session_id; Models.user_id := user_id;
           letters := []; last_commit_time := None; created_at := t |} in
      _ ← set_word_buffer buffer;
      mret buffer
  end.

Definition append_to_word (session_id user_id : string) (char : str) : M WordBuffer :=
  buffer ← get_word_buffer session_id user_id;
  t ← now clock;
  let buffer :=
    {| Models.session_id := Models.session_id buffer;
       Models.user_id := Models.user_id buffer;
       letters := letters buffer ++ [char];
       last_commit_time := Some t;
       created_at := created_at buffer |} in
  _ ← set_word_buffer buffer;
  mret buffer.

Definition clear_word_buffer (session_id : string) : M unit :=
  modify (with_words (delete session_id)).

Definition cleanup_session (session_id : string) : M unit :=
  _ ← clear_window session_id;
  clear_word_buffer session_id.

End WithClock.
End RedisManager.

(** ** Commit engine  (src/word-resolver-service/services/commit_engine.py) *)

Module CommitEngine.
Import Config Models Runtime.
#[local] Open Scope Q_scope.

(** The value kept for a character in [char_data]. *)
Record CharData := {
  total_confidence : Q;
  cd_count : nat;
  cd_first_seen : Q;
  cd_last_seen : Q
}.

(** [char_data]: a dictionary, in insertion order. *)
Fixpoint dict_get (k : str) (d : list (str * CharData)) : option CharData :=
  match d with
  | [] => None
  | (k', v) :: d' => if decide (k = k') then Some v else dict_get k d'
  end.

Fixpoint dict_set (k : str) (v : CharData) (d : list (str * CharData))
    : list (str * CharData) :=
  match d with
  | [] => [(k, v)]
  | (k', v') :: d' =>
      if decide (k = k') then (k, v) :: d' else (k', v') :: dict_set k v d'
  end.

(** [max(a, b)] and [min(a, b)] on floats. *)
Definition max2 (a b : Q) : Q := if Qltb a b then b else a.
Definition min2 (a b : Q) : Q := if Qltb b a then b else a.

(** The body of [for entry in valid_entries]. *)
Definition tally (char_data : list (str * CharData)) (entry : LetterEntry)
    : list (str * CharData) :=
  let char_data :=
    match dict_get (char entry) char_data with
    | None =>
        dict_set (char entry)
          {| total_confidence := 0; cd_count := 0;
             cd_first_seen := timestamp entry;
             cd_last_seen := timestamp entry |} char_data
    | Some _ => char_data
    end in
  match dict_get (char entry) char_data with
  | Some data =>
      dict_set (char entry)
        {| total_confidence := total_confidence data + confidence entry;
           cd_count := cd_count data + 1;
           cd_first_seen := min2 (cd_first_seen data) (timestamp entry);
           cd_last_seen := max2 (cd_last_seen data) (timestamp entry) |}
        char_data
  | None => char_data
  end.

(** [char_data[c]['total_confidence']]. *)
Definition total_of (char_data : list (str * CharData)) (c : str) : Q :=
  match dict_get c char_data with
  | Some data => total_confidence data
  | None => 0
  end.

(** [max(keys, key=...)]: the first key whose value is greatest. *)
Fixpoint max_by (key : str -> Q) (best : str) (rest : list str) : str :=
  match rest with
  | [] => best
  | c :: rest' => if Qltb (key best) (key c) then max_by key c rest' else max_by key best rest'
  end.

Section WithSettings.
Variable settings : Settings.
Variable clock : nat -> Q.

Definition window_duration_ms : Z := Config.window_duration_ms settings.
Definition stability_ms : Z := Config.stability_duration_ms settings.
Definition min_confidence : Q := Config.min_confidence settings.
Definition commit_min_confidence : Q := 2 # 5.
Definition max_consecutive_same : Z := Config.max_consecutive_same settings.

Definition valid_entries (window : list LetterEntry) : list LetterEntry :=
  List.filter (fun e => Qle_bool min_confidence (confidence e)) window.

Definition _find_top_candidate (window : list LetterEntry) : option CommitCandidate :=
  let valid_entries := valid_entries window in
  match valid_entries with
  | [] => None
  | _ =>
      let char_data := fold_left tally valid_entries [] in
      match List.map fst char_data with
      | [] => None
      | k :: keys =>
          let top_char := max_by (total_of char_data) k keys in
          data ← dict_get top_char char_data;
          Some {| cand_char := top_char;
                  aggregate_confidence := total_confidence data;
                  first_seen := cd_first_seen data;
                  last_seen := cd_last_seen data;
                  count := cd_count data |}
      end
  end.

(** [all(letter == c for letter in buffer.letters[-max_consecutive_same:])]
    under the guard [len(buffer.letters) >= max_consecutive_same]. *)
Definition repeats (letters : list str) (c : str) : bool :=
  (max_consecutive_same <=? Z.of_nat (length letters))%Z
  && forallb (fun letter => bool_decide (letter = c))
       (slice_from letters (- max_consecutive_same)).

Definition process_letter (session_id user_id : string) (char : str)
    (confidence timestamp : Q) : M (option WordBuffer) :=
  let entry := {| Models.char := char; Models.confidence := confidence;
                  Models.timestamp := timestamp |} in
  _ ← RedisManager.push_letter session_id entry;
  now ← now clock;
  let cutoff := now - inject_Z window_duration_ms / 1000 in
  _ ← RedisManager.prune_window session_id cutoff;
  window ← RedisManager.get_window session_id;
  match window with
  | [] => mret None
  | _ =>
      match _find_top_candidate window with
      | None => mret None
      | Some candidate =>
          let avg_confidence :=
            aggregate_confidence candidate / inject_Z (Z.of_nat (count candidate)) in
          if Qltb avg_confidence commit_min_confidence then mret None
          else if Qltb (stability_duration_ms candidate) (inject_Z stability_ms)
          then mret None
          else
            buffer ← RedisManager.get_word_buffer clock session_id user_id;
            if repeats (letters buffer) (cand_char candidate) then mret None
            else
              buffer ← RedisManager.append_to_word clock session_id user_id
                         (cand_char candidate);
              mret (Some buffer)
      end
  end.

(** [check_pause]: the elapsed time is read only when a commit time is set. *)
Definition check_pause (session_id : string) : M bool :=
  buffer ← RedisManager.get_word_buffer clock session_id "temp";
  match letters buffer with
  | [] => mret false
  | _ =>
      match last_commit_time buffer with
      | None => mret false
      | Some t =>
          now ← now clock;
          let time_since_last := (now - t) * 1000 in
          mret (Qle_bool (inject_Z (Config.pause_duration_ms settings)) time_since_last)
      end
  end.

End WithSettings.
End CommitEngine.

(** ** Word resolver  (src/word-resolver-service/services/word_resolver.py) *)

Module WordResolver.
Import Config Models Runtime Levenshtein.
#[local] Open Scope Q_scope.

(** A document of the lexicon as the search returns it. *)
Record Doc := {
  doc_surface : str;
  doc_aliases : list str;
  doc_confidence_scores : list (str * Q);
  doc_score : option Q
}.

(** The two aggregation pipelines sent to the store. *)
Inductive Pipeline :=
| Autocomplete (query : str) (maxEdits prefixLength : Z) (limit : nat)
| FuzzyText (query : str) (maxEdits prefixLength : Z) (limit : nat).

(** [distance < best_distance], where [None] is [float('inf')]. *)
Definition below (distance : nat) (best_distance : option nat) : bool :=
  match best_distance with
  | None => true
  | Some b => distance <? b
  end.

(** The loop of [_find_best_matching_alias]; the outer [None] is an
    exception of the edit distance. *)
Fixpoint alias_loop (query_upper : str) (aliases : list str)
    (best_alias : option str) (best_distance : option nat) : option (option str) :=
  match aliases with
  | [] => Some best_alias
  | alias :: aliases' =>
      let alias_upper := remove_char "-" (remove_char " " (upper alias)) in
      if bool_decide (alias_upper = query_upper) then Some (Some alias)
      else if startswith alias_upper query_upper || contains query_upper alias_upper then
        let distance :=
          Z.abs_nat (Z.of_nat (length alias_upper) - Z.of_nat (length query_upper)) in
        if below distance best_distance
        then alias_loop query_upper aliases' (Some alias) (Some distance)
        else alias_loop query_upper aliases' best_alias best_distance
      else
        distance ← _levenshtein_distance alias_upper query_upper;
        if (distance <=? 2) && below distance best_distance
        then alias_loop query_upper aliases' (Some alias) (Some distance)
        else alias_loop query_upper aliases' best_alias best_distance
  end.

Definition _find_best_matching_alias (query : str) (aliases : list str)
    : option (option str) :=
  match aliases with
  | [] => Some None
  | _ =>
      let query_upper := remove_char "-" (remove_char " " (upper query)) in
      alias_loop query_upper aliases None None
  end.

(** [confidence_scores.get(matched_alias, 0.0)]. *)
Fixpoint scores_get (k : str) (d : list (str * Q)) : Q :=
  match d with
  | [] => 0
  | (k', v) :: d' => if decide (k = k') then v else scores_get k d'
  end.

(** [list.sort(key=lambda x: x.hybrid_score, reverse=True)]: a stable sort,
    greatest score first; results of equal score keep their order. *)
Fixpoint insert_by_score (x : SearchResult) (l : list SearchResult)
    : list SearchResult :=
  match l with
  | [] => [x]
  | y :: l' =>
      if Qltb (hybrid_score x) (hybrid_score y) then y :: insert_by_score x l'
      else x :: l
  end.

Definition sort_by_score (l : list SearchResult) : list SearchResult :=
  fold_right insert_by_score [] l.

Section WithStore.
Variable settings : Settings.
Variable clock : nat -> Q.

(** The collection: [None] when MongoDB is not configured or unreachable;
    otherwise the aggregation, which answers [None] when it raises. *)
Variable collection : option (Pipeline -> option (list Doc)).

(** The documents of the search, each with its [matched_alias]. *)
Definition _atlas_fuzzy_search (aggregate : Pipeline -> option (list Doc))
    (query : str) (user_id : string) : option (list (Doc * str)) :=
  let use_autocomplete := length query <=? 3 in
  let pipeline :=
    if use_autocomplete then Autocomplete (lower query) 1 0 20
    else FuzzyText (lower query) (fuzzy_max_edits settings)
           (fuzzy_prefix_length settings) 20 in
  results ← aggregate pipeline;
  mapM (fun result =>
          matched_alias ← _find_best_matching_alias query (doc_aliases result);
          Some (result,
                match matched_alias with
                | Some (c :: a) => c :: a
                | _ => doc_surface result
                end))
    results.

Definition _get_alias_confidence (raw_word : str) (result : Doc * str) : Q :=
  scores_get (snd result) (doc_confidence_scores (fst result)).

Definition to_search_result (raw_word : str) (result : Doc * str) : SearchResult :=
  let atlas_score := default 0 (doc_score (fst result)) in
  let alias_confidence := _get_alias_confidence raw_word result in
  let hybrid_score := atlas_score * (7 # 10) + alias_confidence * (3 # 10) in
  {| surface := doc_surface (fst result);
     atlas_score := atlas_score;
     alias_confidence := alias_confidence;
     hybrid_score := hybrid_score;
     matched_via := Some (snd result) |}.

(** [ResolvedWord(...)]: the timestamp is a reading of the clock. *)
Definition make_resolved (buffer : WordBuffer) (raw_word : str)
    (all_results : list SearchResult) (search_method : string) : M ResolvedWord :=
  t ← now clock;
  mret {| rw_session_id := session_id buffer;
          rw_user_id := user_id buffer;
          raw_word := raw_word;
          all_results := all_results;
          rw_timestamp := t;
          search_method := search_method |}.

Definition resolve_word (buffer : WordBuffer) (search_method : string)
    : M ResolvedWord :=
  let raw_word := current_word buffer in
  match raw_word with
  | [] => make_resolved buffer [] [] search_method
  | _ =>
      match collection with
      | None => make_resolved buffer raw_word [] search_method
      | Some aggregate =>
          match _atlas_fuzzy_search aggregate raw_word (user_id buffer) with
          | Some (result :: results) =>
              let all_search_results :=
                List.map (to_search_result raw_word) (result :: results) in
              let all_search_results := sort_by_score all_search_results in
              make_resolved buffer raw_word all_search_results search_method
          | Some [] => make_resolved buffer raw_word [] search_method
          | None => make_resolved buffer raw_word [] search_method
          end
      end
  end.

End WithStore.
End WordResolver.

(** ** Stream consumer  (src/word-resolver-service/services/kinesis_consumer.py) *)

Module KinesisConsumer.
Import Config Models Runtime.
#[local] Open Scope Q_scope.

(** A record of the letters stream: [Data] is [None] when it does not parse
    into a [LetterPrediction]. *)
Record StreamRecord := {
  Data : option LetterPrediction;
  ApproximateArrivalTimestamp : option Q
}.

Section WithServices.
Variable settings : Settings.
Variable clock : nat -> Q.
Variable collection : option (WordResolver.Pipeline -> option (list WordResolver.Doc)).

Definition _send_to_outbound_lambda (session_id : string) (resolved_word : ResolvedWord)
    : M unit :=
  invoke_outbound session_id resolved_word.

Definition _finalize_word (session_id : string) (search_method : string) : M unit :=
  buffer ← RedisManager.get_word_buffer clock session_id session_id;
  match letters buffer with
  | [] => mret tt
  | _ =>
      resolved ← WordResolver.resolve_word settings clock collection buffer search_method;
      _ ← _send_to_outbound_lambda session_id resolved;
      _ ← RedisManager.clear_word_buffer session_id;
      RedisManager.clear_window session_id
  end.

(** The pattern of every call site:
    [if self.commit_engine.check_pause(sid): self._finalize_word(sid, ...)]. *)
Definition finalize_if_paused (session_id : string) (search_method : string) : M unit :=
  CommitEngine.check_pause settings clock session_id ≫= fun paused : bool =>
  if paused then _finalize_word session_id search_method else mret tt.

Definition process_record (record : StreamRecord) : M unit :=
  match Data record with
  | None => mret tt
  | Some prediction =>
      let session_id := lp_session_id prediction in
      if bool_decide (event_type prediction = "skip") then
        finalize_if_paused session_id "skip_event"
      else
        match Models.prediction prediction with
        | Some (c :: char') =>
            if bool_decide (event_type prediction = "prediction") then
              let char := c :: char' in
              let confidence := default 0 (lp_confidence prediction) in
              let timestamp := default 0 (ApproximateArrivalTimestamp record) in
              _ ← CommitEngine.process_letter settings clock session_id session_id
                    char confidence timestamp;
              finalize_if_paused session_id "fuzzy"
            else mret tt
        | _ => mret tt
        end
  end.

(** The periodic sweep over the keys [word:*]. *)
Definition _check_all_sessions_for_pause : M unit :=
  w ← get;
  let keys := List.map fst (map_to_list (words w)) in
  for_each keys (fun session_id => finalize_if_paused session_id "fuzzy").

(** One turn of the main loop: a record of the stream, or the sweep. *)
Inductive Step :=
| Incoming (record : StreamRecord)
| Sweep.

Definition step (s : Step) : M unit :=
  match s with
  | Incoming record => process_record record
  | Sweep => _check_all_sessions_for_pause
  end.

Definition run (steps : list Step) : M unit := for_each steps step.

End WithServices.
End KinesisConsumer.

(** The commit rules as the specification words them. *)

Module CommitSpec.
Import Models.
#[local] Open Scope Q_scope.

(** The observations of a window that vote for [c]: those of character [c]
    whose confidence reaches the voting threshold [theta_vote]. *)
Definition votes (theta_vote : Q) (c : str) (window : list LetterEntry)
    : list LetterEntry :=
  List.filter (fun e => bool_decide (char e = c) && Qle_bool theta_vote (confidence e))
    window.

(** The aggregate confidence of [c]. *)
Definition total_votes (theta_vote : Q) (c : str) (window : list LetterEntry) : Q :=
  sumQ (List.map confidence (votes theta_vote c window)).

(** [m] is the least, or the greatest, element of [l]. *)
Definition least (m : Q) (l : list Q) : Prop := In m l /\ Forall (fun x => m <= x) l.
Definition greatest (m : Q) (l : list Q) : Prop := In m l /\ Forall (fun x => x <= m) l.

(** [c] is observed in [l] before anything of [c'] is. *)
Definition seen_before {A} (c c' : A) (l : list A) : Prop :=
  exists l1 l2, l = l1 ++ c :: l2 /\ c' ∉ l1.




End CommitSpec.

(** ** Frame replay  (test_replay_AWS.py) *)

Module Replay.
#[local] Open Scope Q_scope.

(** The loop [for point in hand_coordinates: hand_data.extend([x, y, 0.0])]. *)
Fixpoint extend_points (hand_data : list Q) (hand_coordinates : list (Q * Q)) : list Q :=
  match hand_coordinates with
  | [] => hand_data
  | point :: rest => extend_points (hand_data ++ [fst point; snd point; 0]) rest
  end.

(** A hand of (x, y) points laid out as a frame of the holistic format:
    pose, face, left hand, right hand. *)
Definition convert_hand_landmarks_to_holistic (hand_coordinates : list (Q * Q))
    (hand_side : string) : list Q :=
  let pose := repeat 0 (33 * 4) in
  let face := repeat 0 (468 * 3) in
  let hand_data := extend_points [] hand_coordinates in
  let '(left_hand, right_hand) :=
    if String.eqb hand_side "left" then (hand_data, repeat 0 (21 * 3))
    else (repeat 0 (21 * 3), hand_data) in
  pose ++ face ++ left_hand ++ right_hand.

End Replay.

(** ** Alias builder: index table and placeholder aliases
       (iac/lambda/kb-aliases/lambda_function.py) *)

Module AliasTools.
#[local] Open Scope Q_scope.

(** [idx_to_char]: every branch returns a string of one character. *)
Definition idx_to_char (idx : Z) : ascii :=
  if ((0 <=? idx) && (idx <=? 9))%Z then ascii_of_nat (Z.to_nat (48 + idx))
  else if ((10 <=? idx) && (idx <=? 35))%Z
       then ascii_of_nat (Z.to_nat (ord "A" + idx - 10))
  else if (idx =? 36)%Z then "_"%char
  else "?"%char.

(** [sep.join(s)] on the characters of a string. *)
Fixpoint join (sep : ascii) (s : str) : str :=
  match s with
  | [] => []
  | c :: s' =>
      match s' with
      | [] => [c]
      | _ => c :: sep :: join sep s'
      end
  end.

(** A dictionary with string keys, in insertion order: [d.get(k)] and
    [d[k] = v]. *)
Fixpoint dict_find {V} (k : str) (d : list (str * V)) : option V :=
  match d with
  | [] => None
  | (k', v) :: d' => if decide (k = k') then Some v else dict_find k d'
  end.

Fixpoint dict_put {V} (k : str) (v : V) (d : list (str * V)) : list (str * V) :=
  match d with
  | [] => [(k, v)]
  | (k', v') :: d' =>
      if decide (k = k') then (k, v) :: d' else (k', v') :: dict_put k v d'
  end.

(** The body of [for term in terms[:10]]. *)
Definition placeholder_step (aliases : list (str * list (str * Q))) (term : str)
    : list (str * list (str * Q)) :=
  let term_upper := upper term in
  let placeholder_list :=
    if 2 <? length term_upper then [(join " " term_upper, 4 # 5)] else [] in
  dict_put term_upper placeholder_list aliases.

Definition generate_placeholder_aliases (terms : list str)
    : list (str * list (str * Q)) :=
  fold_left placeholder_step (take 10 terms) [].

End AliasTools.

(* ===================================================================== *)
(** * Part II. Properties                                                 *)
(* ===================================================================== *)

(** ** Python primitives *)

Section PyFacts.
#[local] Open Scope Q_scope.

Lemma Qltb_lt x y : Qltb x y = true <-> x < y.
Proof.
  unfold Qltb. rewrite negb_true_iff. split.
  - intros H. apply Qnot_le_lt. intros Hle. apply Qle_bool_iff in Hle. congruence.
  - intros H. destruct (Qle_bool y x) eqn:E; [|done].
    apply Qle_bool_iff in E. exfalso. by apply (Qlt_not_le x y).
Qed.

Lemma maxQ_spec l m :
  maxQ l = Some m -> Forall (fun v => v <= m) l /\ In m l.
Proof.
  destruct l as [|x l]; [done|]. simpl. intros [= <-].
  assert (forall l acc,
            (acc <= fold_left (fun m y => if Qltb m y then y else m) l acc
             /\ Forall (fun v => v <= fold_left (fun m y => if Qltb m y then y else m) l acc) l)
            /\ (fold_left (fun m y => if Qltb m y then y else m) l acc = acc
                \/ In (fold_left (fun m y => if Qltb m y then y else m) l acc) l)) as H.
  { clear. induction l as [|y l IH]; intros acc; simpl.
    - split; [split; [apply Qle_refl | constructor] | by left].
    - destruct (IH (if Qltb acc y then y else acc)) as [[Hacc Hall] Hin].
      destruct (Qltb acc y) eqn:E.
      + apply Qltb_lt in E. split; [split|].
        * apply Qlt_le_weak, (Qlt_le_trans _ y); done.
        * constructor; done.
        * destruct Hin as [->|Hin]; right; [by left | by right].
      + assert (y <= acc) as Hle.
        { apply Qnot_lt_le. intros Hlt. apply Qltb_lt in Hlt. congruence. }
        split; [split|].
        * done.
        * constructor; [|done]. by apply (Qle_trans _ acc).
        * destruct Hin as [Heq|Hin]; [by left | right; by right]. }
  destruct (H l x) as [[Hx Hall] Hin]. split.
  - constructor; done.
  - destruct Hin as [->|Hin]; [by left | by right].
Qed.

Lemma sumQ_snoc l x : sumQ (l ++ [x]) == sumQ l + x.
Proof.
  induction l as [|y l IH]; simpl; [ring|]. rewrite IH. ring.
Qed.

Lemma sumQ_app l1 l2 : sumQ (l1 ++ l2) == sumQ l1 + sumQ l2.
Proof.
  induction l1 as [|y l1 IH]; simpl; [ring|]. rewrite IH. ring.
Qed.

End PyFacts.

(** ** Edit distance *)

Section LevenshteinFacts.
Import Levenshtein.

#[local] Arguments lev : simpl never.

Lemma min3_cases a b c : min3 a b c = a \/ min3 a b c = b \/ min3 a b c = c.
Proof. unfold min3. lia. Qed.

Lemma min3_le a b c : min3 a b c <= a /\ min3 a b c <= b /\ min3 a b c <= c.
Proof. unfold min3. lia. Qed.

Lemma lev_nil_l t : lev [] t = length t.
Proof. reflexivity. Qed.

Lemma lev_nil_r s : lev s [] = length s.
Proof. destruct s; reflexivity. Qed.

Lemma lev_cons_cons a b s t :
  lev (a :: s) (b :: t) =
  min3 (lev s (b :: t) + 1) (lev (a :: s) t + 1) (lev s t + subst_cost a b).
Proof. reflexivity. Qed.

Lemma subst_cost_refl a : subst_cost a a = 0.
Proof. unfold subst_cost. by rewrite Ascii.eqb_refl. Qed.

Lemma subst_cost_sym a b : subst_cost a b = subst_cost b a.
Proof. unfold subst_cost. by rewrite Ascii.eqb_sym. Qed.

Lemma subst_cost_zero a b : subst_cost a b = 0 -> a = b.
Proof.
  unfold subst_cost. destruct (Ascii.eqb_spec a b); [done | discriminate].
Qed.

(** *** [lev] is the least cost of an edit script *)

Lemma edit_nil_l t : edit (length t) [] t.
Proof. induction t; simpl; constructor; assumption. Qed.

Lemma edit_nil_r s : edit (length s) s [].
Proof. induction s; simpl; constructor; assumption. Qed.

Lemma lev_edit s t : edit (lev s t) s t.
Proof.
  revert t. induction s as [|a s IHs]; intros t.
  - apply edit_nil_l.
  - induction t as [|b t IHt].
    + rewrite lev_nil_r. apply edit_nil_r.
    + rewrite lev_cons_cons.
      destruct (min3_cases (lev s (b :: t) + 1) (lev (a :: s) t + 1)
                  (lev s t + subst_cost a b)) as [-> | [-> | ->]].
      * rewrite Nat.add_1_r. apply edit_del, IHs.
      * rewrite Nat.add_1_r. apply edit_ins, IHt.
      * apply edit_sub, IHs.
Qed.

Lemma edit_lev n s t : edit n s t -> lev s t <= n.
Proof.
  induction 1 as [ | a s t n _ IH | b s t n _ IH | a b s t n _ IH ].
  - rewrite lev_nil_l. simpl. lia.
  - destruct t as [|b t].
    + rewrite lev_nil_r in *. simpl. lia.
    + rewrite lev_cons_cons.
      pose proof (min3_le (lev s (b :: t) + 1) (lev (a :: s) t + 1)
                    (lev s t + subst_cost a b)). lia.
  - destruct s as [|a s].
    + rewrite lev_nil_l in *. simpl. lia.
    + rewrite lev_cons_cons.
      pose proof (min3_le (lev s (b :: t) + 1) (lev (a :: s) t + 1)
                    (lev s t + subst_cost a b)). lia.
  - rewrite lev_cons_cons.
    pose proof (min3_le (lev s (b :: t) + 1) (lev (a :: s) t + 1)
                  (lev s t + subst_cost a b)). lia.
Qed.

(** *** Symmetry and separation *)

Lemma edit_sym n s t : edit n s t -> edit n t s.
Proof.
  induction 1; try (constructor; assumption).
  rewrite subst_cost_sym. by constructor.
Qed.

Lemma lev_sym s t : lev s t = lev t s.
Proof.
  apply Nat.le_antisymm; apply edit_lev, edit_sym, lev_edit.
Qed.

Lemma edit_zero n s t : edit n s t -> n = 0 -> s = t.
Proof.
  induction 1 as [ | | | a b s t n _ IH ]; intros Hn; try done.
  assert (n = 0) as Hn0 by lia.
  assert (subst_cost a b = 0) as Hc by lia.
  by rewrite (subst_cost_zero _ _ Hc), (IH Hn0).
Qed.

Lemma lev_refl s : lev s s = 0.
Proof.
  induction s as [|a s IH]; [done|].
  rewrite lev_cons_cons, IH, subst_cost_refl. unfold min3. lia.
Qed.

Lemma lev_zero_iff s t : lev s t = 0 <-> s = t.
Proof.
  split.
  - intros H. apply (edit_zero (lev s t)); [apply lev_edit | done].
  - intros ->. apply lev_refl.
Qed.

(** *** Reading both strings from the right *)

Lemma edit_del_snoc n s t a : edit n s t -> edit (S n) (s ++ [a]) t.
Proof.
  induction 1; simpl.
  - apply edit_del, edit_nil.
  - by apply edit_del.
  - by apply edit_ins.
  - replace (S (n + subst_cost a0 b)) with (S n + subst_cost a0 b) by lia.
    by apply edit_sub.
Qed.

Lemma edit_ins_snoc n s t b : edit n s t -> edit (S n) s (t ++ [b]).
Proof. intros H. apply edit_sym, edit_del_snoc, edit_sym, H. Qed.

Lemma edit_sub_snoc n s t a b :
  edit n s t -> edit (n + subst_cost a b) (s ++ [a]) (t ++ [b]).
Proof.
  induction 1 as [ | a' s t n _ IH | b' s t n _ IH | a' b' s t n _ IH ]; simpl.
  - apply (edit_sub a b [] [] 0), edit_nil.
  - by apply edit_del.
  - by apply edit_ins.
  - replace (n + subst_cost a' b' + subst_cost a b)
      with (n + subst_cost a b + subst_cost a' b') by lia.
    by apply edit_sub.
Qed.

Lemma edit_rev n s t : edit n s t -> edit n (rev s) (rev t).
Proof.
  induction 1; simpl.
  - constructor.
  - by apply edit_del_snoc.
  - by apply edit_ins_snoc.
  - by apply edit_sub_snoc.
Qed.

Lemma lev_rev s t : lev (rev s) (rev t) = lev s t.
Proof.
  apply Nat.le_antisymm.
  - apply edit_lev, edit_rev, lev_edit.
  - rewrite <- (rev_involutive s), <- (rev_involutive t) at 1.
    apply edit_lev, edit_rev, lev_edit.
Qed.

(** The Wagner-Fischer recurrence on prefixes. *)
Lemma lev_snoc s t a b :
  lev (s ++ [a]) (t ++ [b]) =
  min3 (lev s (t ++ [b]) + 1) (lev (s ++ [a]) t + 1) (lev s t + subst_cost a b).
Proof.
  rewrite <- (lev_rev (s ++ [a]) (t ++ [b])), !rev_unit, lev_cons_cons.
  rewrite <- (rev_unit t b), <- (rev_unit s a), !lev_rev. done.
Qed.

Lemma lev_snoc_nil_r s a : lev (s ++ [a]) [] = S (length s).
Proof. rewrite lev_nil_r, length_app. simpl. lia. Qed.

Lemma lev_snoc_nil_l t b : lev [] (t ++ [b]) = S (length t).
Proof. rewrite lev_nil_l, length_app. simpl. lia. Qed.

(** Dropping one character changes the distance by at most one. *)
Lemma edit_uncons n a s t : edit n (a :: s) t -> exists m, m <= S n /\ edit m s t.
Proof.
  intros H. remember (a :: s) as u eqn:E.
  induction H as [ | a' s' t n H _ | b s' t n H IH | a' b s' t n H _ ].
  - discriminate.
  - injection E as -> ->. exists n. split; [lia | done].
  - destruct (IH E) as (m & Hm & Hed). exists (S m). split; [lia|].
    by apply edit_ins.
  - injection E as -> ->. exists (S n). split; [lia|]. by apply edit_ins.
Qed.

Lemma lev_uncons_l a s t : lev s t <= S (lev (a :: s) t).
Proof.
  destruct (edit_uncons _ _ _ _ (lev_edit (a :: s) t)) as (m & Hm & Hed).
  apply edit_lev in Hed. lia.
Qed.

Lemma lev_unsnoc_l a s t : lev s t <= S (lev (s ++ [a]) t).
Proof.
  rewrite <- (lev_rev s t), <- (lev_rev (s ++ [a]) t), rev_unit.
  apply lev_uncons_l.
Qed.

Lemma lev_unsnoc_r b s t : lev s t <= S (lev s (t ++ [b])).
Proof. rewrite (lev_sym s t), (lev_sym s (t ++ [b])). apply lev_unsnoc_l. Qed.

Lemma lev_snoc_same s t a : lev (s ++ [a]) (t ++ [a]) = lev s t.
Proof.
  rewrite lev_snoc, subst_cost_refl.
  pose proof (lev_unsnoc_l a s t). pose proof (lev_unsnoc_r a s t).
  unfold min3. lia.
Qed.

Lemma lev_snoc_diff s t a b :
  a <> b ->
  lev (s ++ [a]) (t ++ [b]) =
  1 + min3 (lev s t) (lev (s ++ [a]) t) (lev s (t ++ [b])).
Proof.
  intros Hab. rewrite lev_snoc. unfold subst_cost.
  destruct (Ascii.eqb_spec a b); [done|]. unfold min3. lia.
Qed.

(** *** The rows of the dynamic programme *)

(** [row_of f full]: the row whose [k]-th cell is [f] of the length-[k]
    prefix of [full]. *)
Definition row_of (f : str -> nat) (full : str) : list nat :=
  (fun k => f (take k full)) <$> seq 0 (S (length full)).

Definition row_upto (f : str -> nat) (full : str) (j : nat) : list nat :=
  (fun k => f (take k full)) <$> seq 0 (S j).

#[local] Arguments row_of : simpl never.
#[local] Arguments row_upto : simpl never.

Lemma row_upto_full f full : row_upto f full (length full) = row_of f full.
Proof. reflexivity. Qed.

Lemma row_upto_snoc f full j :
  row_upto f full (S j) = row_upto f full j ++ [f (take (S j) full)].
Proof. unfold row_upto. by rewrite (seq_S (S j)), fmap_app. Qed.

Lemma row_of_lookup f full k :
  k <= length full -> row_of f full !! k = Some (f (take k full)).
Proof.
  intros Hk. unfold row_of.
  rewrite list_lookup_fmap, lookup_seq_lt by lia. done.
Qed.

Lemma row_upto_lookup f full j k :
  k <= j -> row_upto f full j !! k = Some (f (take k full)).
Proof.
  intros Hk. unfold row_upto.
  rewrite list_lookup_fmap, lookup_seq_lt by lia. done.
Qed.

Lemma row_upto_last f full j : last (row_upto f full j) = Some (f (take j full)).
Proof.
  rewrite last_lookup. unfold row_upto at 1.
  rewrite length_fmap, length_seq. simpl. by apply row_upto_lookup.
Qed.

Lemma row_of_last f full : last (row_of f full) = Some (f full).
Proof.
  rewrite <- row_upto_full, row_upto_last. by rewrite firstn_all.
Qed.

Lemma row_of_nil_row full : row_of (lev []) full = seq 0 (length full + 1).
Proof.
  unfold row_of. rewrite Nat.add_1_r.
  apply list_eq. intros i. rewrite list_lookup_fmap.
  destruct (decide (i < S (length full))) as [Hi|Hi].
  - rewrite lookup_seq_lt by done. simpl.
    rewrite lev_nil_l, length_take. f_equal. lia.
  - by rewrite lookup_seq_ge by lia.
Qed.

Lemma take_snoc_split (full q rest : str) c j :
  full = q ++ c :: rest -> j = length q ->
  take j full = q /\ take (j + 1) full = q ++ [c] /\ take (S j) full = q ++ [c].
Proof.
  intros -> ->. rewrite take_app_length.
  assert (take (S (length q)) (q ++ c :: rest) = q ++ [c]) as E.
  { replace (S (length q)) with (length q + 1) by lia.
    by rewrite (take_app_add' q (c :: rest) (length q) 1 eq_refl). }
  rewrite Nat.add_1_r. done.
Qed.

(** *** The alias builder's loops *)

Lemma kb_inner_spec c1 p full :
  forall rest q j,
    full = q ++ rest -> j = length q ->
    kb_inner c1 (row_of (lev p) full) j rest (row_upto (lev (p ++ [c1])) full j)
    = Some (row_of (lev (p ++ [c1])) full).
Proof.
  induction rest as [|c2 rest IH]; intros q j Hfull Hj.
  - rewrite app_nil_r in Hfull. subst. done.
  - cbn [kb_inner wr_inner kb_outer wr_outer].
    assert (length full = length q + S (length rest)) as Hlen.
    { subst full. rewrite length_app. done. }
    rewrite row_of_lookup by lia. cbn [mbind option_bind].
    rewrite row_upto_lookup by lia. cbn [mbind option_bind].
    rewrite row_of_lookup by lia. cbn [mbind option_bind].
    destruct (take_snoc_split full q rest c2 j Hfull Hj) as (E0 & E1 & E2).
    rewrite E0, E1. fold (subst_cost c1 c2). rewrite <- lev_snoc.
    rewrite <- E2, <- (row_upto_snoc (lev (p ++ [c1])) full j).
    apply (IH (q ++ [c2])).
    + rewrite <- app_assoc. done.
    + rewrite length_app. simpl. lia.
Qed.

Lemma kb_outer_spec s2 :
  forall rest p,
    kb_outer s2 (length p) rest (row_of (lev p) s2) = Some (row_of (lev (p ++ rest)) s2).
Proof.
  induction rest as [|c1 rest IH]; intros p.
  - by rewrite app_nil_r.
  - cbn [kb_inner wr_inner kb_outer wr_outer].
    assert ([length p + 1] = row_upto (lev (p ++ [c1])) s2 0) as ->.
    { unfold row_upto. cbn [seq fmap list_fmap]. rewrite take_0, lev_snoc_nil_r. f_equal. lia. }
    rewrite (kb_inner_spec c1 p s2 s2 [] 0 eq_refl eq_refl). cbn [mbind option_bind].
    replace (S (length p)) with (length (p ++ [c1])) by (rewrite length_app; simpl; lia).
    rewrite IH, <- app_assoc. done.
Qed.

Lemma levenshtein_rows_spec s1 s2 : levenshtein_rows s1 s2 = Some (lev s1 s2).
Proof.
  unfold levenshtein_rows. destruct (Nat.eqb_spec (length s2) 0) as [H0|H0].
  - apply length_zero_iff_nil in H0 as ->. by rewrite lev_nil_r.
  - rewrite <- row_of_nil_row.
    change 0 with (length (@nil ascii)) at 1.
    rewrite (kb_outer_spec s2 s1 []). cbn [mbind option_bind app].
    apply row_of_last.
Qed.

Lemma levenshtein_distance_spec s1 s2 : levenshtein_distance s1 s2 = Some (lev s1 s2).
Proof.
  unfold levenshtein_distance. destruct (length s1 <? length s2).
  - rewrite levenshtein_rows_spec, lev_sym. done.
  - apply levenshtein_rows_spec.
Qed.

(** *** The resolver's loops *)

Lemma wr_inner_spec c2 p full :
  forall rest q i1,
    full = q ++ rest -> i1 = length q ->
    wr_inner c2 (row_of (fun u => lev u p) full) i1 rest
      (row_upto (fun u => lev u (p ++ [c2])) full i1)
    = Some (row_of (fun u => lev u (p ++ [c2])) full).
Proof.
  induction rest as [|c1 rest IH]; intros q i1 Hfull Hi.
  - rewrite app_nil_r in Hfull. subst. done.
  - cbn [kb_inner wr_inner kb_outer wr_outer].
    assert (length full = length q + S (length rest)) as Hlen.
    { subst full. rewrite length_app. done. }
    destruct (take_snoc_split full q rest c1 i1 Hfull Hi) as (E0 & E1 & E2).
    assert (wr_inner c2 (row_of (fun u => lev u p) full) (S i1) rest
              (row_upto (fun u => lev u (p ++ [c2])) full (S i1))
            = Some (row_of (fun u => lev u (p ++ [c2])) full)) as Hnext.
    { apply (IH (q ++ [c1])).
      - rewrite <- app_assoc. done.
      - rewrite length_app. simpl. lia. }
    destruct (Ascii.eqb_spec c1 c2) as [->|Hne].
    + rewrite row_of_lookup by lia. cbn [mbind option_bind].
      rewrite <- Hnext, (row_upto_snoc (fun u => lev u (p ++ [c2])) full i1).
      do 2 f_equal. rewrite E0, E2. by rewrite lev_snoc_same.
    + rewrite row_of_lookup by lia. cbn [mbind option_bind].
      rewrite row_of_lookup by lia. cbn [mbind option_bind].
      rewrite row_upto_last. cbn [mbind option_bind].
      rewrite <- Hnext, (row_upto_snoc (fun u => lev u (p ++ [c2])) full i1).
      do 2 f_equal. rewrite E0, E1, E2. by rewrite lev_snoc_diff.
Qed.

Lemma wr_outer_spec s1 :
  forall rest p,
    wr_outer s1 (length p) rest (row_of (fun u => lev u p) s1)
    = Some (row_of (fun u => lev u (p ++ rest)) s1).
Proof.
  induction rest as [|c2 rest IH]; intros p.
  - by rewrite app_nil_r.
  - cbn [kb_inner wr_inner kb_outer wr_outer].
    assert ([length p + 1] = row_upto (fun u => lev u (p ++ [c2])) s1 0) as ->.
    { unfold row_upto. cbn [seq fmap list_fmap]. rewrite take_0, lev_snoc_nil_l. f_equal. lia. }
    rewrite (wr_inner_spec c2 p s1 s1 [] 0 eq_refl eq_refl). cbn [mbind option_bind].
    replace (S (length p)) with (length (p ++ [c2])) by (rewrite length_app; simpl; lia).
    rewrite IH, <- app_assoc. done.
Qed.

Lemma wr_rows_spec s1 s2 :
  wr_outer s1 0 s2 (seq 0 (length s1 + 1)) ≫= last = Some (lev s1 s2).
Proof.
  assert (seq 0 (length s1 + 1) = row_of (fun u => lev u []) s1) as ->.
  { rewrite <- row_of_nil_row. unfold row_of.
    apply list_fmap_ext. intros _ k _. by rewrite lev_nil_l, lev_nil_r. }
  change 0 with (length (@nil ascii)) at 1.
  rewrite (wr_outer_spec s1 s2 []). cbn [mbind option_bind app].
  apply (row_of_last (fun u => lev u s2)).
Qed.

Lemma _levenshtein_distance_spec s1 s2 :
  _levenshtein_distance s1 s2 = Some (lev s1 s2).
Proof.
  unfold _levenshtein_distance. destruct (length s2 <? length s1).
  - rewrite wr_rows_spec, lev_sym. done.
  - apply wr_rows_spec.
Qed.

(** C10. The resolver's [_levenshtein_distance] and the alias builder's
    [levenshtein_distance] never fail and return the same number on every
    pair of strings: the Levenshtein distance [lev], that is the least cost
    of an edit script from the first string to the second.  The distance is
    zero exactly when the strings are equal and it is symmetric. *)
Theorem levenshtein_implementations_agree (s1 s2 : str) :
  _levenshtein_distance s1 s2 = levenshtein_distance s1 s2
  /\ levenshtein_distance s1 s2 = Some (lev s1 s2)
  /\ (edit (lev s1 s2) s1 s2 /\ forall n, edit n s1 s2 -> lev s1 s2 <= n)
  /\ (lev s1 s2 = 0 <-> s1 = s2)
  /\ lev s1 s2 = lev s2 s1.
Proof.
  rewrite _levenshtein_distance_spec, levenshtein_distance_spec.
  repeat split.
  - apply lev_edit.
  - intros n. apply edit_lev.
  - apply lev_zero_iff.
  - intros ->. apply lev_refl.
  - apply lev_sym.
Qed.

End LevenshteinFacts.

(** ** Alias validation *)

Section AliasFacts.
Import Levenshtein AliasBuilder AliasSpec.
#[local] Open Scope Q_scope.

(** *** Finite checks over the 8-bit character codes *)

Definition all_codes : list ascii := List.map ascii_of_nat (seq 0 256).

Lemma in_all_codes c : In c all_codes.
Proof.
  unfold all_codes. rewrite <- (ascii_nat_embedding c).
  apply in_map, in_seq. pose proof (nat_ascii_bounded c). lia.
Qed.

Lemma forall_codes (P : ascii -> bool) :
  forallb P all_codes = true -> forall c, P c = true.
Proof.
  intros H c. rewrite forallb_forall in H. apply H, in_all_codes.
Qed.

Definition same_Q (o : option Q) (q : Q) : bool :=
  match o with
  | Some p => (Qnum p =? Qnum q)%Z && (Qden p =? Qden q)%positive
  | None => false
  end.

Lemma same_Q_eq o q : same_Q o q = true -> o = Some q.
Proof.
  destruct o as [[pn pd]|], q as [qn qd]; simpl; [|done].
  intros [Hn Hd]%andb_true_iff.
  apply Z.eqb_eq in Hn. apply Pos.eqb_eq in Hd. by subst.
Qed.

Lemma forall_below (n : nat) (P : nat -> bool) :
  forallb P (seq 0 n) = true -> forall i, (i < n)%nat -> P i = true.
Proof.
  intros H i Hi. rewrite forallb_forall in H. apply H, in_seq. lia.
Qed.

Lemma position_lt c l i : position c l = Some i -> (i < length l)%nat.
Proof.
  revert i. induction l as [|x l IH]; intros i; simpl; [done|].
  destruct (Ascii.eqb x c).
  - intros [= <-]. lia.
  - destruct (position c l) as [k|]; simpl; [|done].
    intros [= <-]. specialize (IH k eq_refl). lia.
Qed.

Lemma char_to_idx_symbol c :
  char_to_idx c = match symbol c with Some i => Z.of_nat i | None => (-1)%Z end.
Proof.
  apply Z.eqb_eq. revert c. apply forall_codes. vm_compute. reflexivity.
Qed.

(** Reading a cell of the matrix and normalising it by its row. *)
Definition read_cell (idx1 idx2 : Z) : option Q :=
  row ← index CONFUSION_MATRIX idx1;
  count ← index row idx2;
  let total := sumZ row in
  Some (if (0 <? total)%Z then inject_Z count / inject_Z total else 0).

Lemma read_cell_spec i j :
  (i < 37)%nat -> (j < 37)%nat ->
  read_cell (Z.of_nat i) (Z.of_nat j)
  = Some (inject_Z (count i j) / inject_Z (row_total i)).
Proof.
  intros Hi Hj. apply same_Q_eq. revert j Hj. apply forall_below.
  revert i Hi. apply forall_below. vm_compute. reflexivity.
Qed.

(** The matrix lookup never fails and yields the row-normalised count. *)
Lemma get_confusion_prob_spec a b :
  get_confusion_prob a b = Some (confusion_probability a b).
Proof.
  unfold get_confusion_prob, confusion_probability. cbv zeta.
  rewrite !char_to_idx_symbol.
  destruct (symbol a) as [i|] eqn:Ea; [|done].
  destruct (symbol b) as [j|] eqn:Eb.
  - apply position_lt in Ea, Eb.
    destruct (Z.eqb_spec (Z.of_nat i) (-1)) as [?|_]; [lia|].
    destruct (Z.eqb_spec (Z.of_nat j) (-1)) as [?|_]; [lia|].
    apply (read_cell_spec i j Ea Eb).
  - destruct (Z.eqb_spec (Z.of_nat i) (-1)) as [?|_]; [lia|]. done.
Qed.

Lemma is_known_confusion_spec a b :
  is_known_confusion a b = true <-> known_confusion a b.
Proof.
  unfold is_known_confusion, known_confusion. rewrite existsb_exists. split.
  - intros ([x y] & Hin & [Hx Hy]%andb_true_iff). simpl in *.
    apply Ascii.eqb_eq in Hx, Hy. by subst.
  - intros Hin. exists (upper_char a, upper_char b). split; [done|].
    simpl. by rewrite !Ascii.eqb_refl.
Qed.

(** The contribution of a pair of different characters. *)
Lemma floored_prob_spec a b :
  a <> b ->
  (if Qltb (confusion_probability a b) (3 # 10) && is_known_confusion a b
   then Qmax (confusion_probability a b) (2 # 5)
   else confusion_probability a b) == pair_score a b.
Proof.
  intros Hab. unfold pair_score. destruct (decide (a = b)) as [|_]; [done|].
  cbv zeta.
  destruct (decide (confusion_probability a b < 3 # 10 /\ known_confusion a b))
    as [[Hlt Hk]|Hn].
  - apply Qltb_lt in Hlt as Hb. apply is_known_confusion_spec in Hk as Hkb.
    rewrite Hb, Hkb. simpl. apply Q.max_r.
    apply Qlt_le_weak, (Qlt_trans _ (3 # 10)); [done | reflexivity].
  - destruct (Qltb _ _ && _) eqn:E; [|reflexivity].
    apply andb_true_iff in E as [Hb Hkb]. exfalso. apply Hn.
    split; [by apply Qltb_lt | by apply is_known_confusion_spec].
Qed.

(** *** Cleaning *)

Lemma clean_spec s : remove_char "-" (remove_char " " s) = clean s.
Proof.
  unfold remove_char, clean. induction s as [|c s IH]; [done|].
  simpl. destruct (Ascii.eqb c " "); simpl; [done|].
  destruct (Ascii.eqb c "-"); simpl; by rewrite IH.
Qed.

(** *** The scoring loop *)

Lemma score_loop_spec s a :
  forall n k acc m,
    (k + n <= length s)%nat -> (k + n <= length a)%nat ->
    exists sc m',
      score_loop s a (seq k n) acc m = Some (sc, m')
      /\ sc == acc + sumQ (zip_with pair_score (take n (drop k s)) (take n (drop k a))).
Proof.
  induction n as [|n IH]; intros k acc m Hs Ha.
  - exists acc, m. split; [done|]. rewrite !take_0. simpl. ring.
  - cbn [seq score_loop].
    destruct (lookup_lt_is_Some_2 s k) as [x Hx]; [lia|].
    destruct (lookup_lt_is_Some_2 a k) as [y Hy]; [lia|].
    rewrite Hx, Hy. cbn [mbind option_bind].
    rewrite (drop_S s x k Hx), (drop_S a y k Hy). cbn [take zip_with sumQ fold_right].
    fold (sumQ (zip_with pair_score (take n (drop (S k) s)) (take n (drop (S k) a)))).
    destruct (Ascii.eqb_spec x y) as [->|Hne].
    + destruct (IH (S k) (acc + 1) (m + 1)%nat) as (sc & m' & -> & Hsc); [lia..|].
      exists sc, m'. split; [done|]. rewrite Hsc. unfold pair_score.
      rewrite decide_True by done. ring.
    + rewrite get_confusion_prob_spec. cbn [mbind option_bind].
      match goal with
      | |- context [score_loop _ _ _ (acc + ?v) m] =>
          destruct (IH (S k) (acc + v) m) as (sc & m' & -> & Hsc); [lia..|];
          exists sc, m'; split; [done|]; rewrite Hsc
      end.
      rewrite (floored_prob_spec x y Hne). ring.
Qed.

Lemma zip_with_take_min {A B C} (f : A -> B -> C) (l : list A) (k : list B) :
  zip_with f (take (Nat.min (length l) (length k)) l)
             (take (Nat.min (length l) (length k)) k) = zip_with f l k.
Proof.
  revert k. induction l as [|x l IH]; intros [|y k]; simpl; try done.
  by rewrite IH.
Qed.

Lemma confusion_weighted_edit_distance_spec surface alias :
  (lev (clean surface) (clean alias) <= 2)%nat ->
  exists sc, confusion_weighted_edit_distance surface alias = Some sc
             /\ sc == confusion_score surface alias.
Proof.
  intros Hd. unfold confusion_weighted_edit_distance. rewrite !clean_spec.
  rewrite levenshtein_distance_spec. cbn [mbind option_bind].
  destruct (Nat.ltb_spec 2 (lev (clean surface) (clean alias))) as [?|_]; [lia|].
  destruct (score_loop_spec (clean surface) (clean alias)
              (Nat.min (length (clean surface)) (length (clean alias))) 0 0 0%nat)
    as (sc & m' & -> & Hsc); [lia..|].
  cbn [mbind option_bind fst]. rewrite !drop_0, zip_with_take_min in Hsc.
  eexists. split; [reflexivity|]. unfold confusion_score.
  destruct (Nat.ltb_spec 0 (length (clean surface))) as [Hpos|Hz].
  - rewrite Hsc. field.
    change 0 with (inject_Z 0). rewrite inject_Z_injective. lia.
  - assert (clean surface = []) as -> by (apply length_zero_iff_nil; lia).
    simpl. reflexivity.
Qed.

(** *** The pattern *)

Lemma alias_class_spec c : alias_class c = true <-> alias_symbol c.
Proof.
  unfold alias_class, alias_symbol.
  rewrite !orb_true_iff, Ascii.eqb_eq. tauto.
Qed.

Lemma class_run_spec s : class_run s = true <-> well_formed s.
Proof.
  unfold class_run, well_formed.
  rewrite !andb_true_iff, Nat.leb_le, Nat.leb_le, forallb_forall, List.Forall_forall.
  setoid_rewrite alias_class_spec. tauto.
Qed.

(** Below 41 characters the alternative ending of [$] adds nothing. *)
Lemma alias_pattern_match_spec s :
  (length s <= 40)%nat -> alias_pattern_match s = class_run s.
Proof.
  intros Hlen. unfold alias_pattern_match.
  destruct (class_run s) eqn:E; [done|]. simpl.
  destruct (rev s) as [|c s'] eqn:Er; [done|].
  destruct (Ascii.eqb_spec c "010") as [->|]; [|done]. simpl.
  destruct (class_run (rev s')) eqn:E'; [|done]. exfalso.
  assert (s = rev s' ++ ["010"%char]) as Hs.
  { rewrite <- (rev_involutive s), Er. done. }
  apply class_run_spec in E' as [[H2 _] Hall].
  assert (class_run s = true) as E2; [|congruence].
  apply class_run_spec. split; [rewrite Hs in Hlen |- *; rewrite length_app in *; simpl in *; lia|].
  rewrite Hs. apply Forall_app. split; [done|].
  constructor; [|constructor]. unfold alias_symbol. do 3 right. reflexivity.
Qed.

(** *** The validator *)




(** Scenario 8 of the specification. *)
Example validate_alias_AW6 :
  validate_alias (lit "AWS") (lit "AW6") = Some (true, 176 # 264).
Proof. reflexivity. Qed.

Example validate_alias_XYZ :
  validate_alias (lit "AWS") (lit "XYZ") = Some (false, 0).
Proof. reflexivity. Qed.

End AliasFacts.

(** ** Hand extractor and classifier bridge *)

Section HandFacts.
Import KeyPointClassifier LetterASLService HandSpec.
#[local] Open Scope Q_scope.

Lemma hand_active_spec block : hand_active block = true <-> active block.
Proof.
  unfold hand_active, active. rewrite existsb_exists, List.Exists_exists.
  split; intros (v & Hin & Hv); exists v; (split; [done|]); by apply Qltb_lt.
Qed.

Lemma hand_active_false block : hand_active block = false <-> ~ active block.
Proof.
  rewrite <- hand_active_spec. destruct (hand_active block); split; congruence.
Qed.

Lemma reshape_xy_spec data :
  forall n k0 acc,
    (3 * (k0 + n) <= length data)%nat ->
    reshape_xy (List.map (fun k => (k * 3)%nat) (seq k0 n)) data acc
    = Some (acc ++ List.map (fun k => (nth (k * 3) data 0, nth (k * 3 + 1) data 0))
                     (seq k0 n)).
Proof.
  induction n as [|n IH]; intros k0 acc Hlen.
  - simpl. by rewrite app_nil_r.
  - cbn [seq List.map reshape_xy].
    destruct (lookup_lt_is_Some_2 data (k0 * 3)) as [x Hx]; [lia|].
    destruct (lookup_lt_is_Some_2 data (k0 * 3 + 1)) as [y Hy]; [lia|].
    rewrite Hx, Hy. cbn [mbind option_bind].
    rewrite IH by lia.
    rewrite (nth_lookup_Some _ _ 0 _ Hx), (nth_lookup_Some _ _ 0 _ Hy).
    by rewrite <- app_assoc.
Qed.

Lemma reshape_block block :
  length block = 63%nat ->
  reshape_xy (range_step (length block) 3) block [] = Some (points_of block).
Proof.
  intros Hlen. rewrite Hlen.
  change (range_step 63 3) with (List.map (fun k => (k * 3)%nat) (seq 0 21)).
  rewrite reshape_xy_spec by lia. done.
Qed.

Lemma to_relative_succ i base points :
  to_relative (S i) base points
  = List.map (fun p => (fst p - fst base, snd p - snd base)) points.
Proof.
  revert i. induction points as [|p points IH]; intros i; simpl; [done|].
  by rewrite IH.
Qed.

Lemma to_relative_zero base p points :
  to_relative 0 base (p :: points)
  = List.map (fun q => (fst q - fst p, snd q - snd p)) (p :: points).
Proof. simpl. by rewrite to_relative_succ. Qed.

Lemma flatten_length points : length (flatten points) = (2 * length points)%nat.
Proof.
  unfold flatten. induction points as [|p points IH]; simpl; [done|].
  rewrite IH. lia.
Qed.

Lemma flatten_lookup points k a b :
  points !! k = Some (a, b) ->
  flatten points !! (2 * k)%nat = Some a /\ flatten points !! (2 * k + 1)%nat = Some b.
Proof.
  revert k. induction points as [|p points IH]; intros k; [done|].
  destruct k as [|k]; simpl.
  - intros [= ->]. done.
  - intros H. destruct (IH k H) as [Ha Hb].
    replace (k + S (k + 0))%nat with (S (2 * k)) by lia. simpl.
    replace (k + (k + 0))%nat with (2 * k)%nat by lia. done.
Qed.

Lemma flatten_elem points v :
  In v (flatten points) <-> exists p, In p points /\ (v = fst p \/ v = snd p).
Proof.
  unfold flatten. induction points as [|p points IH]; simpl.
  - split; [done | by intros (? & [] & _)].
  - rewrite IH. split.
    + intros [<- | [<- | (q & Hq & Hv)]]; eauto 6.
    + intros (q & [<- | Hq] & [-> | ->]); eauto 6.
Qed.





Lemma map_fmap {A B} (f : A -> B) (l : list A) : List.map f l = f <$> l.
Proof. reflexivity. Qed.

(** Preprocessing of a non-empty list of points whose first point is the
    wrist [(x0, y0)]. *)
Lemma pre_process_landmark_spec pts x0 y0 :
  pts !! 0%nat = Some (x0, y0) ->
  exists pre m,
    pre_process_landmark pts = Some pre
    /\ length pre = (2 * length pts)%nat
    /\ (forall k x y, pts !! k = Some (x, y) ->
          Qabs (x - x0) <= m /\ Qabs (y - y0) <= m)
    /\ (exists k x y, pts !! k = Some (x, y)
                      /\ (Qabs (x - x0) = m \/ Qabs (y - y0) = m))
    /\ (forall k x y, pts !! k = Some (x, y) ->
          pre !! (2 * k)%nat = Some (normalize_ m (x - x0))
          /\ pre !! (2 * k + 1)%nat = Some (normalize_ m (y - y0))).
Proof.
  intros H0. destruct pts as [|p0 pts']; [done|]. injection H0 as ->.
  set (pts := (x0, y0) :: pts').
  set (rel := List.map (fun q : Q * Q => (fst q - x0, snd q - y0)) pts).
  assert (to_relative 0 (0, 0) pts = rel) as Hrel by apply to_relative_zero.
  assert (forall k x y, pts !! k = Some (x, y) ->
            flatten rel !! (2 * k)%nat = Some (x - x0)
            /\ flatten rel !! (2 * k + 1)%nat = Some (y - y0)) as Hflat.
  { intros k x y Hk. apply flatten_lookup. unfold rel.
    rewrite map_fmap, list_lookup_fmap, Hk. done. }
  destruct (maxQ (List.map Qabs (flatten rel))) as [m|] eqn:Hmax; [|done].
  exists (List.map (normalize_ m) (flatten rel)), m.
  destruct (maxQ_spec _ _ Hmax) as [Hall Hin].
  rewrite List.Forall_forall in Hall.
  split; [|split; [|split; [|split]]].
  - unfold pre_process_landmark. rewrite Hrel. cbv zeta. by rewrite Hmax.
  - rewrite length_map, flatten_length. unfold rel. by rewrite length_map.
  - intros k x y Hk. destruct (Hflat k x y Hk) as [Hx Hy].
    split; apply Hall, in_map, list_elem_of_In, list_elem_of_lookup; eauto.
  - apply in_map_iff in Hin as (t & Ht & Hin).
    apply flatten_elem in Hin as (q & Hq & Hor).
    unfold rel in Hq. apply in_map_iff in Hq as ([x y] & <- & Hp).
    apply list_elem_of_In, list_elem_of_lookup in Hp as [k Hk].
    exists k, x, y. split; [done|]. simpl in Hor.
    destruct Hor as [-> | ->]; [left | right]; done.
  - intros k x y Hk. destruct (Hflat k x y Hk) as [Hx Hy].
    rewrite !map_fmap, !list_lookup_fmap, Hx, Hy. done.
Qed.




(** A frame whose right hand only is present: wrist at (1/2, 1/2), the
    second point at (1, 1/4), every other coordinate 0. *)
Definition right_hand_frame : list Q :=
  repeat 0 1599 ++ [1 # 2; 1 # 2; 0; 1; 1 # 4; 0] ++ repeat 0 57.


Example preprocess_right_hand_frame :
  (pre_process_landmark (points_of (right_block right_hand_frame))
     ≫= fun pre => Some (take 4 pre))
  = Some [0 # 4; 0 # 4; 2 # 2; -4 # 8]
  /\ predict_from_landmarks true (fun _ => [1 # 10; 7 # 10; 2 # 10])
       [lit "A"; lit "ASL B"; lit "C"] right_hand_frame
     = Return (Predicted (lit "B") (7 # 10) (Some RightHand)).
Proof. split; vm_compute; reflexivity. Qed.

End HandFacts.

(** ** Ingress multiplexer *)

Section IngressFacts.
Import IngressHandler.

Definition all_up : Availability := {| dynamodb_ok := true; kinesis_ok := true |}.

Definition empty_cloud : Cloud := {| stream := []; connections := ∅ |}.

(** A [sendlandmarks] event carrying the data list [data]. *)
Definition landmarks_event (data : list JNumber) : Event :=
  {| routeKey := Some "sendlandmarks";
     connectionId := Some "conn-1";
     body := Object {| msg_session_id := Some "session-1"; msg_data := Some data |};
     requestTimeEpoch := Some 1700000000000%Z |}.

(** C4 (amended). [handle_landmarks] answers 400 and leaves the landmarks
    stream and the registry untouched when the body is not valid JSON or
    when the data list is missing or empty.  It checks neither the length of
    a non-empty data list nor the finiteness of its elements: such a list
    is enqueued unchanged, as one record keyed by the session id, and
    acknowledged with 200 whenever the stream accepts the write. *)
Theorem handle_landmarks_data_check
    (up : Availability) (now : Z) (event : Event) (c : Cloud) :
  ((body event = Malformed
    \/ exists m, body event = Object m
                 /\ (msg_data m = None \/ msg_data m = Some [])) ->
   statusCode (fst (handle_landmarks up now event c)) = 400%Z
   /\ snd (handle_landmarks up now event c) = c)
  /\ (forall m data sid,
        body event = Object m -> msg_data m = Some data -> data <> [] ->
        (msg_session_id m = Some sid
         \/ (msg_session_id m = None /\ connectionId event = Some sid)) ->
        kinesis_ok up = true ->
        statusCode (fst (handle_landmarks up now event c)) = 200%Z
        /\ stream (snd (handle_landmarks up now event c))
           = stream c ++ [{| session_id := sid;
                             connection_id := connectionId event;
                             timestamp := now;
                             landmarks := data;
                             event_time := requestTimeEpoch event |}]).
Proof.
  split.
  - intros [Hb | (m & Hb & Hd)]; unfold handle_landmarks; rewrite Hb; [done|].
    destruct Hd as [-> | ->]; done.
  - intros m data sid Hb Hd Hne Hsid Hk.
    unfold handle_landmarks. rewrite Hb, Hd, Hk. cbn [default].
    rewrite bool_decide_eq_false_2 by (destruct data; [done | simpl; lia]).
    destruct Hsid as [-> | [-> ->]].
    + destruct (connectionId event), (dynamodb_ok up); done.
    + destruct (dynamodb_ok up); done.
Qed.

Lemma handle_landmarks_data_check_witness :
  statusCode (fst (handle_landmarks all_up 0 (landmarks_event []) empty_cloud)) = 400%Z
  /\ snd (handle_landmarks all_up 0 (landmarks_event []) empty_cloud) = empty_cloud.
Proof.
  apply (proj1 (handle_landmarks_data_check all_up 0 (landmarks_event []) empty_cloud)).
  right. eexists. split; [reflexivity|]. right. reflexivity.
Defined.

(** The claim as first stated asks for a rejection of every data list whose
    length is not 1662 or that holds a non-finite element.  A list of two
    elements, one of them NaN, is acknowledged with 200 and enqueued. *)
Lemma handle_landmarks_short_frame_counterexample :
  length [Finite 1; NaN] <> 1662%nat
  /\ existsb (fun x => negb (is_finite x)) [Finite 1; NaN] = true
  /\ statusCode (fst (handle_landmarks all_up 0 (landmarks_event [Finite 1; NaN])
                        empty_cloud)) = 200%Z
  /\ List.map landmarks
       (stream (snd (handle_landmarks all_up 0 (landmarks_event [Finite 1; NaN])
                       empty_cloud)))
     = [[Finite 1; NaN]].
Proof. repeat split. simpl. lia. Qed.

End IngressFacts.

(** ** Commit engine: voting *)

Section VotingFacts.
Import Config Models Runtime CommitEngine CommitSpec.
#[local] Open Scope Q_scope.

(** *** The dictionary [char_data] *)

Lemma dict_get_set_eq k v d : dict_get k (dict_set k v d) = Some v.
Proof.
  induction d as [|[k' v'] d IH]; simpl.
  - by rewrite decide_True.
  - destruct (decide (k = k')) as [->|Hne]; simpl.
    + by rewrite decide_True.
    + by rewrite decide_False.
Qed.

Lemma dict_get_set_ne k k' v d :
  k <> k' -> dict_get k' (dict_set k v d) = dict_get k' d.
Proof.
  intros Hne. induction d as [|[k0 v0] d IH]; simpl.
  - by rewrite decide_False.
  - destruct (decide (k = k0)) as [->|Hk]; simpl.
    + by rewrite !decide_False.
    + by rewrite IH.
Qed.

Lemma dict_get_None k d : dict_get k d = None <-> k ∉ List.map fst d.
Proof.
  induction d as [|[k0 v0] d IH]; simpl.
  - split; [intros _; apply not_elem_of_nil | done].
  - rewrite not_elem_of_cons. destruct (decide (k = k0)) as [->|Hk].
    + split; [done | intros [? _]; done].
    + rewrite IH. tauto.
Qed.

Lemma dict_get_Some k d : k ∈ List.map fst d -> exists v, dict_get k d = Some v.
Proof.
  intros Hin. destruct (dict_get k d) as [v|] eqn:E; [by exists v|].
  by apply dict_get_None in E.
Qed.

Lemma dict_set_keys k v d :
  List.map fst (dict_set k v d)
  = if dict_get k d is Some _ then List.map fst d else List.map fst d ++ [k].
Proof.
  induction d as [|[k0 v0] d IH]; simpl; [done|].
  destruct (decide (k = k0)) as [->|Hk]; simpl; [done|].
  rewrite IH. by destruct (dict_get k d).
Qed.

(** *** One vote *)

Definition fresh (e : LetterEntry) : CharData :=
  {| total_confidence := 0; cd_count := 0;
     cd_first_seen := timestamp e; cd_last_seen := timestamp e |}.

Definition bump (data : CharData) (e : LetterEntry) : CharData :=
  {| total_confidence := total_confidence data + confidence e;
     cd_count := cd_count data + 1;
     cd_first_seen := min2 (cd_first_seen data) (timestamp e);
     cd_last_seen := max2 (cd_last_seen data) (timestamp e) |}.

Lemma tally_get_same d e :
  dict_get (char e) (tally d e)
  = Some (bump (default (fresh e) (dict_get (char e) d)) e).
Proof.
  unfold tally. destruct (dict_get (char e) d) as [data|] eqn:E; simpl.
  - rewrite E. apply dict_get_set_eq.
  - rewrite dict_get_set_eq. apply dict_get_set_eq.
Qed.

Lemma tally_get_other d e c :
  c <> char e -> dict_get c (tally d e) = dict_get c d.
Proof.
  intros Hne. unfold tally.
  destruct (dict_get (char e) d) as [data|] eqn:E; simpl.
  - rewrite E. by apply dict_get_set_ne.
  - rewrite dict_get_set_eq. rewrite !dict_get_set_ne by done. done.
Qed.

Lemma tally_keys d e :
  List.map fst (tally d e)
  = if dict_get (char e) d is Some _ then List.map fst d
    else List.map fst d ++ [char e].
Proof.
  unfold tally. destruct (dict_get (char e) d) as [data|] eqn:E; simpl.
  - rewrite E, dict_set_keys, E. done.
  - rewrite dict_get_set_eq, dict_set_keys, dict_get_set_eq, dict_set_keys, E. done.
Qed.

(** *** Least and greatest timestamps *)

Lemma Qltb_ge x y : Qltb x y = false <-> y <= x.
Proof.
  split.
  - intros H. apply Qnot_lt_le. intros Hlt. apply Qltb_lt in Hlt. congruence.
  - intros H. destruct (Qltb x y) eqn:E; [|done].
    apply Qltb_lt in E. exfalso. by apply (Qlt_not_le x y).
Qed.

Lemma least_snoc m l x : least m l -> least (min2 m x) (l ++ [x]).
Proof.
  intros [Hin Hall]. unfold min2. rewrite List.Forall_forall in Hall.
  destruct (Qltb x m) eqn:E.
  - apply Qltb_lt in E. split; [apply in_or_app; right; by left|].
    apply Forall_app. split; [|repeat constructor; apply Qle_refl].
    apply List.Forall_forall. intros y Hy.
    apply Qlt_le_weak, (Qlt_le_trans _ m); [done | by apply Hall].
  - apply Qltb_ge in E. split; [apply in_or_app; by left|].
    apply Forall_app. split; [by apply List.Forall_forall|].
    by repeat constructor.
Qed.

Lemma greatest_snoc m l x : greatest m l -> greatest (max2 m x) (l ++ [x]).
Proof.
  intros [Hin Hall]. unfold max2. rewrite List.Forall_forall in Hall.
  destruct (Qltb m x) eqn:E.
  - apply Qltb_lt in E. split; [apply in_or_app; right; by left|].
    apply Forall_app. split; [|repeat constructor; apply Qle_refl].
    apply List.Forall_forall. intros y Hy.
    apply Qlt_le_weak, (Qle_lt_trans _ m); [by apply Hall | done].
  - apply Qltb_ge in E. split; [apply in_or_app; by left|].
    apply Forall_app. split; [by apply List.Forall_forall|].
    by repeat constructor.
Qed.

Lemma least_single x : least (min2 x x) [x].
Proof.
  unfold min2. assert (Qltb x x = false) as -> by apply Qltb_ge, Qle_refl.
  split; [by left | repeat constructor; apply Qle_refl].
Qed.

Lemma greatest_single x : greatest (max2 x x) [x].
Proof.
  unfold max2. assert (Qltb x x = false) as -> by apply Qltb_ge, Qle_refl.
  split; [by left | repeat constructor; apply Qle_refl].
Qed.

Lemma least_le_greatest a b l : least a l -> greatest b l -> a <= b.
Proof.
  intros [Ha _] [_ Hb]. rewrite List.Forall_forall in Hb. by apply Hb.
Qed.

(** *** The aggregates of a character *)

(** The entries of character [c]. *)
Definition by_char (c : str) (l : list LetterEntry) : list LetterEntry :=
  List.filter (fun e => bool_decide (char e = c)) l.

Definition aggregates (c : str) (entries : list LetterEntry)
    (total : Q) (n : nat) (first last : Q) : Prop :=
  total == sumQ (List.map confidence (by_char c entries))
  /\ n = length (by_char c entries)
  /\ least first (List.map timestamp (by_char c entries))
  /\ greatest last (List.map timestamp (by_char c entries)).

Definition agg_ok (c : str) (entries : list LetterEntry) (data : CharData) : Prop :=
  aggregates c entries (total_confidence data) (cd_count data)
    (cd_first_seen data) (cd_last_seen data).

Lemma by_char_snoc_same pre e : by_char (char e) (pre ++ [e]) = by_char (char e) pre ++ [e].
Proof. unfold by_char. rewrite List.filter_app. simpl. by rewrite bool_decide_eq_true_2. Qed.

Lemma by_char_snoc_other c pre e : c <> char e -> by_char c (pre ++ [e]) = by_char c pre.
Proof.
  intros Hne. unfold by_char. rewrite List.filter_app. simpl.
  rewrite bool_decide_eq_false_2 by congruence. apply app_nil_r.
Qed.

Lemma by_char_nil c pre : c ∉ List.map char pre -> by_char c pre = [].
Proof.
  unfold by_char. induction pre as [|e pre IH]; simpl; [done|].
  rewrite not_elem_of_cons. intros [Hne Hnin].
  rewrite bool_decide_eq_false_2 by congruence. by apply IH.
Qed.

Lemma agg_ok_bump c pre data e :
  c = char e -> agg_ok c pre data -> by_char c pre <> [] ->
  agg_ok c (pre ++ [e]) (bump data e).
Proof.
  intros -> (Ht & Hn & Hf & Hl) _. unfold agg_ok, aggregates.
  rewrite by_char_snoc_same, !map_app. simpl.
  split; [rewrite sumQ_snoc, Ht; reflexivity|].
  split; [rewrite length_app, Hn; simpl; lia|].
  split; [by apply least_snoc | by apply greatest_snoc].
Qed.

Lemma agg_ok_fresh pre e :
  char e ∉ List.map char pre -> agg_ok (char e) (pre ++ [e]) (bump (fresh e) e).
Proof.
  intros Hnin. unfold agg_ok, aggregates.
  rewrite by_char_snoc_same, (by_char_nil _ _ Hnin). simpl.
  split; [ring|]. split; [done|].
  split; [apply least_single | apply greatest_single].
Qed.

(** *** Keys are kept in the order of first appearance *)

Fixpoint ordered (keys chars : list str) : Prop :=
  match keys with
  | [] => True
  | k :: ks => (forall c, c ∈ ks -> seen_before k c chars) /\ ordered ks chars
  end.

Lemma seen_before_snoc (c c' x : str) l : seen_before c c' l -> seen_before c c' (l ++ [x]).
Proof.
  intros (l1 & l2 & -> & Hnin). exists l1, (l2 ++ [x]).
  split; [by rewrite <- app_assoc | done].
Qed.

Lemma ordered_snoc_chars keys chars x : ordered keys chars -> ordered keys (chars ++ [x]).
Proof.
  induction keys as [|k ks IH]; simpl; [done|]. intros [Hk Hks].
  split; [|by apply IH]. intros c Hc. by apply seen_before_snoc, Hk.
Qed.

Lemma ordered_snoc_key keys chars k :
  (forall c, c ∈ keys -> c ∈ chars) -> k ∉ chars -> ordered keys chars ->
  ordered (keys ++ [k]) (chars ++ [k]).
Proof.
  intros Hsub Hnew. induction keys as [|k0 ks IH]; simpl.
  { intros _. split; [|done]. intros c Hc. by apply elem_of_nil in Hc. }
  intros [Hk0 Hks]. split.
  - intros c [Hc | ->%list_elem_of_singleton]%elem_of_app.
    + by apply seen_before_snoc, Hk0.
    + assert (k0 ∈ chars) as Hin by (apply Hsub; left).
      apply list_elem_of_split in Hin as (l1 & l2 & ->).
      exists l1, (l2 ++ [k]). split; [by rewrite <- app_assoc|].
      intros Hk. apply Hnew. apply elem_of_app. by left.
  - apply IH; [|done]. intros c Hc. apply Hsub. by right.
Qed.

Lemma ordered_split ks1 k ks2 chars c :
  ordered (ks1 ++ k :: ks2) chars -> c ∈ ks2 -> seen_before k c chars.
Proof.
  induction ks1 as [|k0 ks1 IH]; simpl.
  - intros [Hk _] Hc. by apply Hk.
  - intros [_ Hks] Hc. by apply IH.
Qed.

(** *** The invariant of the voting loop *)

Record tallied (pre : list LetterEntry) (d : list (str * CharData)) : Prop := {
  tallied_keys : forall c, c ∈ List.map fst d <-> c ∈ List.map char pre;
  tallied_order : ordered (List.map fst d) (List.map char pre);
  tallied_agg : forall c data, dict_get c d = Some data -> agg_ok c pre data
}.

Lemma tallied_nil : tallied [] [].
Proof. split; simpl; done. Qed.

Lemma tallied_step pre d e : tallied pre d -> tallied (pre ++ [e]) (tally d e).
Proof.
  intros [Hkeys Hord Hagg].
  assert (dict_get (char e) d = None <-> char e ∉ List.map char pre) as Hnew.
  { rewrite dict_get_None, Hkeys. done. }
  split.
  - intros c. rewrite tally_keys, map_app. simpl.
    destruct (dict_get (char e) d) as [data|] eqn:E.
    + rewrite Hkeys, elem_of_app, list_elem_of_singleton.
      split; [by left|]. intros [?| ->]; [done|].
      apply Hkeys. destruct (decide (char e ∈ List.map fst d)) as [?|Hn]; [done|].
      apply dict_get_None in Hn. congruence.
    + rewrite !elem_of_app, Hkeys. done.
  - rewrite tally_keys, map_app. simpl.
    destruct (dict_get (char e) d) as [data|] eqn:E.
    + by apply ordered_snoc_chars.
    + apply ordered_snoc_key; [apply Hkeys | by apply Hnew | done].
  - intros c data. destruct (decide (c = char e)) as [->|Hne].
    + rewrite tally_get_same. intros [= <-].
      destruct (dict_get (char e) d) as [old|] eqn:E; simpl.
      * apply agg_ok_bump; [done | by apply Hagg |].
        intros Hnil. destruct (Hagg _ _ E) as (_ & _ & [Hin _] & _).
        rewrite Hnil in Hin. done.
      * apply agg_ok_fresh. by apply Hnew.
    + rewrite tally_get_other by done. intros Hget.
      unfold agg_ok, aggregates. rewrite by_char_snoc_other by done.
      by apply Hagg.
Qed.

Lemma tallied_fold vs : forall pre d,
  tallied pre d -> tallied (pre ++ vs) (fold_left tally vs d).
Proof.
  induction vs as [|e vs IH]; intros pre d H; simpl.
  - by rewrite app_nil_r.
  - replace (pre ++ e :: vs) with ((pre ++ [e]) ++ vs) by (by rewrite <- app_assoc).
    apply IH. by apply tallied_step.
Qed.

(** *** The first greatest key *)

Lemma max_by_spec key rest : forall best,
  exists ks1 ks2,
    best :: rest = ks1 ++ max_by key best rest :: ks2
    /\ (forall c, c ∈ ks1 -> key c < key (max_by key best rest))
    /\ (forall c, c ∈ ks2 -> key c <= key (max_by key best rest)).
Proof.
  induction rest as [|c rest IH]; intros best; simpl.
  - exists [], []. split; [done|]. split; intros ? Hin; by apply elem_of_nil in Hin.
  - destruct (Qltb (key best) (key c)) eqn:E.
    + apply Qltb_lt in E. destruct (IH c) as (ks1 & ks2 & Heq & H1 & H2).
      exists (best :: ks1), ks2. split; [by rewrite Heq|]. split; [|done].
      intros x [->|Hx]%elem_of_cons; [|by apply H1].
      destruct ks1 as [|k ks1]; simpl in Heq.
      * injection Heq as Hc _. by rewrite <- Hc.
      * injection Heq as <- _. apply (Qlt_trans _ (key c)); [done|].
        apply H1. by left.
    + apply Qltb_ge in E. destruct (IH best) as (ks1 & ks2 & Heq & H1 & H2).
      destruct ks1 as [|k ks1]; simpl in Heq.
      * injection Heq as Hb Hrest. exists [], (c :: ks2).
        split; [simpl; congruence|].
        split; [intros ? Hin; by apply elem_of_nil in Hin|].
        intros x [->|Hx]%elem_of_cons; [by rewrite <- Hb | by apply H2].
      * injection Heq as <- Hrest. exists (best :: c :: ks1), ks2.
        split; [simpl; congruence|]. split; [|done].
        intros x [->|[->|Hx]%elem_of_cons]%elem_of_cons.
        -- apply H1. by left.
        -- apply (Qle_lt_trans _ (key best)); [done|]. apply H1. by left.
        -- apply H1. by right.
Qed.

(** *** The top candidate *)

Section TopCandidate.
Variable settings : Settings.

Lemma votes_by_char c window :
  votes (min_confidence settings) c window = by_char c (valid_entries settings window).
Proof.
  unfold votes, by_char, valid_entries. induction window as [|e window IH]; [done|].
  simpl. destruct (Qle_bool (min_confidence settings) (confidence e)); simpl.
  - rewrite andb_true_r. destruct (bool_decide (char e = c)); by rewrite IH.
  - by rewrite andb_false_r.
Qed.

Lemma _find_top_candidate_spec window cand :
  _find_top_candidate settings window = Some cand ->
  let theta := min_confidence settings in
  let chars := List.map char (valid_entries settings window) in
  cand_char cand ∈ chars
  /\ aggregates (cand_char cand) (valid_entries settings window)
       (aggregate_confidence cand) (count cand) (first_seen cand) (last_seen cand)
  /\ (forall c, c ∈ chars ->
        total_votes theta c window <= total_votes theta (cand_char cand) window)
  /\ (forall c, c ∈ chars -> c <> cand_char cand ->
        total_votes theta c window == total_votes theta (cand_char cand) window ->
        seen_before (cand_char cand) c chars).
Proof.
  unfold _find_top_candidate. cbv zeta.
  set (valid := valid_entries settings window).
  destruct valid as [|e0 valid'] eqn:Hvalid; [done|]. rewrite <- Hvalid.
  set (d := fold_left tally valid []).
  assert (tallied valid d) as [Hkeys Hord Hagg] by apply (tallied_fold valid [] [] tallied_nil).
  destruct (List.map fst d) as [|k ks] eqn:Hk; [done|].
  destruct (max_by_spec (total_of d) ks k) as (ks1 & ks2 & Hsplit & Hlt & Hle).
  set (top := max_by (total_of d) k ks) in *.
  assert (top ∈ k :: ks) as Htop.
  { rewrite Hsplit. apply elem_of_app. right. by left. }
  destruct (dict_get top d) as [data|] eqn:Hdata;
    [|apply dict_get_None in Hdata; rewrite Hk in Hdata; done].
  cbn [mbind option_bind]. intros [= <-]. cbn [cand_char aggregate_confidence count first_seen last_seen].
  assert (forall c, c ∈ k :: ks ->
            total_of d c == total_votes (min_confidence settings) c window) as Htot.
  { intros c Hc. rewrite <- Hk in Hc. destruct (dict_get_Some _ _ Hc) as [v Hv].
    unfold total_of, total_votes. rewrite Hv, votes_by_char.
    apply (Hagg c v Hv). }
  split; [apply Hkeys, Htop|].
  split; [apply (Hagg top data Hdata)|].
  split.
  - intros c Hc. apply Hkeys in Hc.
    rewrite <- (Htot c Hc), <- (Htot top Htop).
    rewrite Hsplit in Hc.
    apply elem_of_app in Hc as [Hc | [-> | Hc]%elem_of_cons].
    + by apply Qlt_le_weak, Hlt.
    + apply Qle_refl.
    + by apply Hle.
  - intros c Hc Hne Htie. apply Hkeys in Hc.
    rewrite <- (Htot c Hc), <- (Htot top Htop) in Htie.
    rewrite Hsplit in Hord. rewrite Hsplit in Hc.
    apply elem_of_app in Hc as [Hc | [-> | Hc]%elem_of_cons].
    + exfalso. apply (Qlt_irrefl (total_of d top)).
      rewrite <- Htie at 1. by apply Hlt.
    + done.
    + by apply (ordered_split ks1 top ks2).
Qed.

End TopCandidate.

(** C2 (amended). The commit engine selects a character of greatest
    aggregate confidence over the confidence-filtered window; when several
    characters share that greatest value it selects the one observed first
    in the filtered window (the first key of the dictionary).  Neither
    [last_seen] nor the alphabetical order takes part in the choice. *)
Theorem top_candidate_first_seen_wins
    (settings : Settings) (window : list LetterEntry) (cand : CommitCandidate) :
  _find_top_candidate settings window = Some cand ->
  let theta := min_confidence settings in
  let chars := List.map char (valid_entries settings window) in
  cand_char cand ∈ chars
  /\ aggregate_confidence cand == total_votes theta (cand_char cand) window
  /\ (forall c, c ∈ chars ->
        total_votes theta c window <= total_votes theta (cand_char cand) window)
  /\ (forall c, c ∈ chars -> c <> cand_char cand ->
        total_votes theta c window == total_votes theta (cand_char cand) window ->
        seen_before (cand_char cand) c chars).
Proof.
  intros H. destruct (_find_top_candidate_spec settings window cand H)
    as (Hin & (Ht & _) & Hmax & Htie).
  cbv zeta. split; [done|]. split; [|by split].
  unfold total_votes. by rewrite votes_by_char.
Qed.

(** Two characters with the same aggregate confidence: ["A"] seen at time 0,
    ["B"] seen at time 1. *)
Definition tied_window : list LetterEntry :=
  [ {| char := lit "A"; confidence := 1 # 2; timestamp := 0 |};
    {| char := lit "B"; confidence := 1 # 2; timestamp := 1 |} ].

Lemma top_candidate_first_seen_wins_witness :
  aggregate_confidence
    {| cand_char := lit "A"; aggregate_confidence := 1 # 2;
       first_seen := 0; last_seen := 0; count := 1 |}
  == total_votes (3 # 10) (lit "A") tied_window
  /\ seen_before (lit "A") (lit "B") [lit "A"; lit "B"].
Proof.
  destruct (top_candidate_first_seen_wins Config.settings tied_window
              {| cand_char := lit "A"; aggregate_confidence := 1 # 2;
                 first_seen := 0; last_seen := 0; count := 1 |} eq_refl)
    as (_ & Hagg & _ & Htie).
  split; [exact Hagg|].
  apply (Htie (lit "B")); [by right; left | discriminate | reflexivity].
Defined.

(** The claim as first stated breaks a tie by the most recent [last_seen].
    On [tied_window] both characters total 1/2 and ["B"] has the most
    recent [last_seen], yet the engine selects ["A"]. *)
Lemma top_candidate_tie_counterexample :
  total_votes (3 # 10) (lit "A") tied_window == total_votes (3 # 10) (lit "B") tied_window
  /\ greatest 0 (List.map timestamp (votes (3 # 10) (lit "A") tied_window))
  /\ greatest 1 (List.map timestamp (votes (3 # 10) (lit "B") tied_window))
  /\ _find_top_candidate Config.settings tied_window
     = Some {| cand_char := lit "A"; aggregate_confidence := 1 # 2;
               first_seen := 0; last_seen := 0; count := 1 |}.
Proof.
  split; [reflexivity|].
  split; [split; [by left | repeat constructor; apply Qle_refl]|].
  split; [split; [by left | repeat constructor; apply Qle_refl]|].
  reflexivity.
Qed.

End VotingFacts.

(** ** Commit engine: the session store and the commit rules *)

Section EngineFacts.
Import Config Models Runtime CommitEngine CommitSpec.
#[local] Open Scope Q_scope.

Variable settings : Settings.
Variable clock : nat -> Q.

(** *** The window after an observation *)

Definition pruned (cutoff : Q) (entries : list LetterEntry) : list LetterEntry :=
  fst (RedisManager.prune_loop cutoff entries 0).

Definition observed (w : World) (sid : string) (e : LetterEntry) : list LetterEntry :=
  default [] (windows w !! sid) ++ [e].

Definition cutoff_at (w : World) : Q :=
  clock (ticks w) - inject_Z (window_duration_ms settings) / 1000.

(** The world once the entry is pushed and the window pruned. *)
Definition after_prune (w : World) (sid : string) (e : LetterEntry) : World :=
  {| windows := RedisManager.store_list sid (pruned (cutoff_at w) (observed w sid e))
                  (<[sid := observed w sid e]> (windows w));
     words := words w; ticks := S (ticks w); outbound := outbound w |}.

(** Steps 7 and 8 of [process_letter]. *)
Definition commit_phase (sid uid : string) (cand : CommitCandidate)
    : M (option WordBuffer) :=
  buffer ← RedisManager.get_word_buffer clock sid uid;
  if repeats settings (letters buffer) (cand_char cand) then mret None
  else
    buffer ← RedisManager.append_to_word clock sid uid (cand_char cand);
    mret (Some buffer).

(** Steps 5 and 6: the confidence gate and the stability gate. *)
Definition gates (cand : CommitCandidate) : bool :=
  negb (Qltb (aggregate_confidence cand / inject_Z (Z.of_nat (count cand)))
          commit_min_confidence)
  && negb (Qltb (stability_duration_ms cand) (inject_Z (stability_ms settings))).

Lemma store_list_lookup sid l m :
  default [] (RedisManager.store_list sid l m !! sid) = l.
Proof.
  destruct l; simpl; [by rewrite lookup_delete_eq | by rewrite lookup_insert_eq].
Qed.

Lemma store_list_lookup_ne sid sid' l m :
  sid <> sid' -> RedisManager.store_list sid l m !! sid' = m !! sid'.
Proof.
  intros Hne. destruct l; simpl;
    [by rewrite lookup_delete_ne | by rewrite lookup_insert_ne].
Qed.

Lemma process_letter_eq sid uid c conf ts w :
  process_letter settings clock sid uid c conf ts w
  = let e := {| char := c; confidence := conf; timestamp := ts |} in
    let window := pruned (cutoff_at w) (observed w sid e) in
    let w2 := after_prune w sid e in
    match window with
    | [] => (None, w2)
    | _ =>
        match _find_top_candidate settings window with
        | None => (None, w2)
        | Some cand => if gates cand then commit_phase sid uid cand w2 else (None, w2)
        end
    end.
Proof.
  cbv zeta. unfold process_letter.
  unfold mbind at 1 2 3 4. unfold M_bind at 1 2 3 4.
  unfold RedisManager.push_letter, modify, now, RedisManager.prune_window,
    RedisManager.get_window, get.
  unfold mbind at 1 2 3. unfold M_bind at 1 2 3.
  cbn [windows with_windows ticks words outbound].
  rewrite lookup_insert_eq.
  fold (observed w sid {| char := c; confidence := conf; timestamp := ts |}).
  fold (cutoff_at w).
  unfold after_prune, pruned.
  destruct (RedisManager.prune_loop (cutoff_at w)
              (observed w sid {| char := c; confidence := conf; timestamp := ts |}) 0)
    as [rest n] eqn:E.
  cbn [fst]. unfold mbind, M_bind, modify, mret, M_ret.
  cbn [with_windows windows words ticks outbound].
  rewrite store_list_lookup.
  destruct rest as [|e0 rest]; [done|].
  destruct (_find_top_candidate settings (e0 :: rest)) as [cand|]; [|done].
  unfold gates.
  destruct (Qltb (aggregate_confidence cand / inject_Z (Z.of_nat (count cand)))
              commit_min_confidence); [done|].
  destruct (Qltb (stability_duration_ms cand) (inject_Z (stability_ms settings)));
    done.
Qed.

(** *** The word buffer *)

Definition new_buffer (sid uid : string) (t : Q) : WordBuffer :=
  {| session_id := sid; user_id := uid; letters := [];
     last_commit_time := None; created_at := t |}.

Definition letters_of (w : World) (sid : string) : list str :=
  default [] (letters <$> words w !! sid).

Lemma get_word_buffer_found sid uid w b :
  words w !! sid = Some b -> RedisManager.get_word_buffer clock sid uid w = (b, w).
Proof.
  intros H. unfold RedisManager.get_word_buffer, mbind, M_bind, get. by rewrite H.
Qed.

Lemma get_word_buffer_created sid uid w :
  words w !! sid = None ->
  RedisManager.get_word_buffer clock sid uid w
  = (new_buffer sid uid (clock (ticks w)),
     {| windows := windows w;
        words := <[sid := new_buffer sid uid (clock (ticks w))]> (words w);
        ticks := S (ticks w); outbound := outbound w |}).
Proof.
  intros H. unfold RedisManager.get_word_buffer, mbind, M_bind, get. by rewrite H.
Qed.

Lemma get_word_buffer_spec sid uid w :
  exists b w',
    RedisManager.get_word_buffer clock sid uid w = (b, w')
    /\ words w' !! sid = Some b
    /\ letters b = letters_of w sid
    /\ windows w' = windows w /\ outbound w' = outbound w
    /\ (words w' = words w \/ (words w !! sid = None
                              /\ words w' = <[sid := new_buffer sid uid (clock (ticks w))]> (words w))).
Proof.
  unfold letters_of. destruct (words w !! sid) as [b|] eqn:E.
  - exists b, w. rewrite (get_word_buffer_found _ _ _ _ E), E. simpl. eauto 10.
  - eexists _, _. split; [by apply get_word_buffer_created|]. simpl.
    rewrite lookup_insert_eq. eauto 10.
Qed.

(** A commit appends the candidate to the letters of the session. *)
Definition committed_buffer (b : WordBuffer) (c : str) (t : Q) : WordBuffer :=
  {| session_id := session_id b; user_id := user_id b;
     letters := letters b ++ [c]; last_commit_time := Some t;
     created_at := created_at b |}.

Lemma commit_phase_spec sid uid cand w r w' :
  commit_phase sid uid cand w = (r, w') ->
  windows w' = windows w /\ outbound w' = outbound w
  /\ exists b w1,
       RedisManager.get_word_buffer clock sid uid w = (b, w1)
       /\ match r with
          | None => repeats settings (letters_of w sid) (cand_char cand) = true
                    /\ w' = w1
          | Some buffer =>
              repeats settings (letters_of w sid) (cand_char cand) = false
              /\ buffer = committed_buffer b (cand_char cand) (clock (ticks w1))
              /\ words w' = <[session_id b := buffer]> (words w1)
          end.
Proof.
  unfold commit_phase.
  destruct (get_word_buffer_spec sid uid w) as (b & w1 & Hget & Hb & Hl & Hw & Ho & _).
  unfold mbind at 1. unfold M_bind at 1. rewrite Hget, Hl.
  destruct (repeats settings (letters_of w sid) (cand_char cand)) eqn:Hrep.
  - intros [= <- <-]. eauto 10.
  - unfold RedisManager.append_to_word.
    unfold mbind, M_bind. rewrite (get_word_buffer_found _ _ _ _ Hb).
    unfold now, RedisManager.set_word_buffer, modify, mret, M_ret. simpl.
    intros [= <- <-]. simpl. split; [done|]. split; [done|].
    exists b, w1. eauto.
Qed.

(** *** Commits *)

Lemma process_letter_commit sid uid c conf ts w buffer w' :
  process_letter settings clock sid uid c conf ts w = (Some buffer, w') ->
  let e := {| char := c; confidence := conf; timestamp := ts |} in
  exists cand,
    default [] (windows w' !! sid) = pruned (cutoff_at w) (observed w sid e)
    /\ _find_top_candidate settings (default [] (windows w' !! sid)) = Some cand
    /\ gates cand = true
    /\ repeats settings (letters_of w sid) (cand_char cand) = false
    /\ letters buffer = letters_of w sid ++ [cand_char cand].
Proof.
  rewrite process_letter_eq. cbv zeta.
  set (e := {| char := c; confidence := conf; timestamp := ts |}).
  destruct (pruned (cutoff_at w) (observed w sid e)) as [|e0 rest] eqn:Hwin; [done|].
  destruct (_find_top_candidate settings (e0 :: rest)) as [cand|] eqn:Htop; [|done].
  destruct (gates cand) eqn:Hg; [|done].
  intros Hc. apply commit_phase_spec in Hc as (Hw & _ & b & w1 & Hget & Hrep & -> & _).
  destruct (get_word_buffer_spec sid uid (after_prune w sid e))
    as (b' & w1' & Hget' & _ & Hl & _).
  rewrite Hget in Hget'. injection Hget' as <- <-.
  exists cand. rewrite Hw. unfold after_prune at 1 2. cbn [windows].
  rewrite store_list_lookup, Hwin.
  split; [done|]. split; [done|]. split; [done|].
  split; [exact Hrep|]. simpl. by rewrite Hl.
Qed.

(** C1. Whenever [process_letter] appends a character to the word buffer,
    that character passes both gates over the pruned window of the session
    (the window left in the store, which is the old window with the new
    observation, pruned at [now - W_ms]) restricted to the observations of
    confidence at least [min_confidence] (0.3 by default): its aggregate
    confidence divided by its count is at least 0.4, and the time between its
    first and its last observation is at least the stability duration. *)
Theorem process_letter_commit_sound
    (sid uid : string) (c : str) (conf ts : Q) (w : World)
    (buffer : WordBuffer) (w' : World) :
  process_letter settings clock sid uid c conf ts w = (Some buffer, w') ->
  let theta := min_confidence settings in
  let window := default [] (windows w' !! sid) in
  exists committed first last,
    letters buffer = default [] (letters <$> words w !! sid) ++ [committed]
    /\ window
       = fst (RedisManager.prune_loop
                (clock (ticks w) - inject_Z (Config.window_duration_ms settings) / 1000)
                (default [] (windows w !! sid)
                 ++ [{| char := c; confidence := conf; timestamp := ts |}]) 0)
    /\ least first (List.map timestamp (votes theta committed window))
    /\ greatest last (List.map timestamp (votes theta committed window))
    /\ 2 # 5 <= total_votes theta committed window
                / inject_Z (Z.of_nat (length (votes theta committed window)))
    /\ inject_Z (Config.stability_duration_ms settings) <= (last - first) * 1000.
Proof.
  intros H. destruct (process_letter_commit _ _ _ _ _ _ _ _ H)
    as (cand & Hwin & Htop & Hg & _ & Hl).
  cbv zeta.
  destruct (_find_top_candidate_spec settings _ cand Htop)
    as (_ & (Ht & Hn & Hf & Hlast) & _).
  rewrite <- votes_by_char in Ht, Hn, Hf, Hlast.
  exists (cand_char cand), (first_seen cand), (last_seen cand).
  apply andb_true_iff in Hg as [Hg1 Hg2].
  apply negb_true_iff, Qltb_ge in Hg1. apply negb_true_iff, Qltb_ge in Hg2.
  split; [exact Hl|]. split; [exact Hwin|]. split; [exact Hf|]. split; [exact Hlast|].
  split.
  - unfold total_votes. rewrite <- Ht, <- Hn. exact Hg1.
  - exact Hg2.
Qed.

(** *** Anti-repetition on one commit *)





(** *** Pruning *)

Lemma prune_loop_spec cutoff entries : forall n,
  exists removed,
    entries = removed ++ fst (RedisManager.prune_loop cutoff entries n)
    /\ Forall (fun e => timestamp e < cutoff) removed
    /\ snd (RedisManager.prune_loop cutoff entries n) = (n + length removed)%nat
    /\ (forall e, head (fst (RedisManager.prune_loop cutoff entries n)) = Some e ->
         cutoff <= timestamp e).
Proof.
  induction entries as [|e entries IH]; intros n; simpl.
  - exists []. simpl. split; [done|]. split; [done|]. split; [lia | done].
  - destruct (Qltb (timestamp e) cutoff) eqn:E.
    + destruct (IH (n + 1)%nat) as (removed & Heq & Hall & Hn & Hhd).
      exists (e :: removed). simpl. split; [by rewrite <- Heq|].
      split; [constructor; [by apply Qltb_lt | done]|].
      split; [lia | done].
    + exists []. simpl. split; [done|]. split; [done|]. split; [lia|].
      intros e' [= <-]. by apply Qltb_ge.
Qed.




End EngineFacts.

(** ** Stream consumer: finalization *)

Section ConsumerFacts.
Import Config Models Runtime CommitEngine CommitSpec KinesisConsumer.
#[local] Open Scope Q_scope.

Variable settings : Settings.
Variable clock : nat -> Q.
Variable collection : option (WordResolver.Pipeline -> option (list WordResolver.Doc)).




(** How a call may change the word buffers: not at all, or by creating the
    empty buffer of a session that had none. *)
Definition words_kept (sid : string) (w w' : World) : Prop :=
  words w' = words w
  \/ exists uid t, words w !! sid = None
                   /\ words w' = <[sid := new_buffer sid uid t]> (words w).

Lemma get_word_buffer_kept sid uid w b w' :
  RedisManager.get_word_buffer clock sid uid w = (b, w') ->
  windows w' = windows w /\ outbound w' = outbound w /\ words_kept sid w w'
  /\ words w' !! sid = Some b /\ letters b = letters_of w sid.
Proof.
  intros H. destruct (get_word_buffer_spec clock sid uid w)
    as (b' & w1 & Hget & Hb & Hl & Hw & Ho & Hwords).
  rewrite H in Hget. injection Hget as <- <-.
  split; [done|]. split; [done|]. split; [|done].
  destruct Hwords as [?|[? ?]]; [by left | right; eauto].
Qed.





End ConsumerFacts.

(** ** Anti-repetition along a run of the consumer *)

Section RunFacts.
Import Config Models Runtime CommitEngine CommitSpec KinesisConsumer.
#[local] Open Scope Q_scope.

Variable settings : Settings.
Variable clock : nat -> Q.
Variable collection : option (WordResolver.Pipeline -> option (list WordResolver.Doc)).

(** [P]: a property of the labels that the stream carries. *)
Variable P : str -> Prop.

Hypothesis R_positive : (1 <= max_consecutive_same settings)%Z.

















End RunFacts.

(** ** The commit engine on concrete sessions *)

Section ServiceClaims.
Import Config Models Runtime CommitEngine CommitSpec KinesisConsumer.
#[local] Open Scope Q_scope.



(** A session whose window holds one ["A"] seen at time 0. *)
Definition one_A : World :=
  {| windows := {[ "s" := [ {| char := lit "A"; confidence := 9 # 10; timestamp := 0 |} ] ]};
     words := ∅; ticks := 0; outbound := [] |}.

(** The buffer after ["A"] is committed at time 1/5. *)
Definition buffer_A : WordBuffer :=
  {| session_id := "s"; user_id := "u"; letters := [lit "A"];
     last_commit_time := Some (1 # 5); created_at := 1 # 5 |}.

Definition one_A_after : World :=
  snd (process_letter Config.settings (fun _ => 1 # 5) "s" "u" (lit "A") (9 # 10) (1 # 5) one_A).

Lemma process_letter_commit_sound_witness :
  exists committed first last,
    letters buffer_A = default [] (letters <$> words one_A !! "s") ++ [committed]
    /\ default [] (windows one_A_after !! "s")
       = fst (RedisManager.prune_loop
                ((1 # 5) - inject_Z (Config.window_duration_ms Config.settings) / 1000)
                (default [] (windows one_A !! "s")
                 ++ [{| char := lit "A"; confidence := 9 # 10; timestamp := 1 # 5 |}]) 0)
    /\ least first
         (List.map timestamp
            (votes (min_confidence Config.settings) committed
               (default [] (windows one_A_after !! "s"))))
    /\ greatest last
         (List.map timestamp
            (votes (min_confidence Config.settings) committed
               (default [] (windows one_A_after !! "s"))))
    /\ 2 # 5 <= total_votes (min_confidence Config.settings) committed
                  (default [] (windows one_A_after !! "s"))
                / inject_Z (Z.of_nat (length
                     (votes (min_confidence Config.settings) committed
                        (default [] (windows one_A_after !! "s")))))
    /\ inject_Z (Config.stability_duration_ms Config.settings) <= (last - first) * 1000.
Proof.
  apply (process_letter_commit_sound Config.settings (fun _ => 1 # 5)
           "s" "u" (lit "A") (9 # 10) (1 # 5) one_A buffer_A one_A_after).
  vm_compute. reflexivity.
Defined.

(** A session with the word ["A"] committed at time 0, read at time 3. *)
Definition paused_A : World :=
  {| windows := {[ "s" := [ {| char := lit "A"; confidence := 9 # 10; timestamp := 0 |} ] ]};
     words := {[ "s" := {| session_id := "s"; user_id := "s"; letters := [lit "A"];
                           last_commit_time := Some 0; created_at := 0 |} ]};
     ticks := 0; outbound := [] |}.





End ServiceClaims.

(** ** Word resolver: hybrid ranking *)

Section ResolverFacts.
Import Config Models Runtime WordResolver.
#[local] Open Scope Q_scope.

(** [a] ranks no lower than [b]. *)
Definition outranks (a b : SearchResult) : Prop := hybrid_score b <= hybrid_score a.

(** The results of [l] whose hybrid score is [k], in the order of [l]. *)
Definition tied (k : Q) (l : list SearchResult) : list SearchResult :=
  List.filter (fun r => Qeq_bool (hybrid_score r) k) l.

Lemma insert_by_score_perm x l : insert_by_score x l ≡ₚ x :: l.
Proof.
  induction l as [|y l IH]; [done|]. simpl.
  destruct (Qltb (hybrid_score x) (hybrid_score y)); [|done].
  rewrite IH. apply Permutation_swap.
Qed.

Lemma sort_by_score_perm l : sort_by_score l ≡ₚ l.
Proof.
  induction l as [|x l IH]; [done|]. unfold sort_by_score in *. simpl.
  by rewrite insert_by_score_perm, IH.
Qed.

Lemma insert_by_score_sorted x l :
  StronglySorted outranks l -> StronglySorted outranks (insert_by_score x l).
Proof.
  induction 1 as [|y l Hl IH Hy]; simpl; [by repeat constructor|].
  destruct (Qltb (hybrid_score x) (hybrid_score y)) eqn:E.
  - apply Qltb_lt in E. constructor; [done|].
    rewrite insert_by_score_perm. constructor; [|done].
    unfold outranks. by apply Qlt_le_weak.
  - apply Qltb_ge in E. constructor; [by constructor|].
    constructor; [done|].
    eapply Forall_impl; [exact Hy|]. unfold outranks. intros z Hz.
    by apply (Qle_trans _ (hybrid_score y)).
Qed.

Lemma sort_by_score_sorted l : StronglySorted outranks (sort_by_score l).
Proof.
  induction l as [|x l IH]; [constructor|].
  by apply insert_by_score_sorted.
Qed.

(** The sort is stable: it never swaps two results of equal score. *)
Lemma insert_by_score_tied k x l : tied k (insert_by_score x l) = tied k (x :: l).
Proof.
  induction l as [|y l IH]; [done|]. simpl.
  destruct (Qltb (hybrid_score x) (hybrid_score y)) eqn:E; [|done].
  apply Qltb_lt in E. unfold tied in *. simpl in *. rewrite IH.
  destruct (Qeq_bool (hybrid_score x) k) eqn:Ex; [|done].
  destruct (Qeq_bool (hybrid_score y) k) eqn:Ey; [|done].
  apply Qeq_bool_iff in Ex, Ey. rewrite Ex, Ey in E.
  by apply Qlt_irrefl in E.
Qed.

Lemma sort_by_score_tied k l : tied k (sort_by_score l) = tied k l.
Proof.
  induction l as [|x l IH]; [done|].
  change (sort_by_score (x :: l)) with (insert_by_score x (sort_by_score l)).
  rewrite insert_by_score_tied. unfold tied in *. simpl. by rewrite IH.
Qed.

Lemma to_search_result_hybrid raw d :
  hybrid_score (to_search_result raw d)
  == (7 # 10) * atlas_score (to_search_result raw d)
     + (3 # 10) * alias_confidence (to_search_result raw d).
Proof. simpl. ring. Qed.

Section Resolve.
Variable settings : Settings.
Variable clock : nat -> Q.
Variable collection : option (Pipeline -> option (list Doc)).

Lemma all_results_make_resolved b raw results method w :
  all_results (fst (make_resolved clock b raw results method w)) = results.
Proof. done. Qed.

(** What [resolve_word] ranks: nothing for an empty word, a missing store
    or a failed search, the candidates of the search otherwise. *)
Lemma resolve_word_results b method w :
  all_results (fst (resolve_word settings clock collection b method w))
  = match current_word b, collection with
    | [], _ | _, None => []
    | raw, Some aggregate =>
        match _atlas_fuzzy_search settings aggregate raw (user_id b) with
        | Some docs => sort_by_score (List.map (to_search_result raw) docs)
        | None => []
        end
    end.
Proof.
  unfold resolve_word. destruct (current_word b) as [|c raw]; [done|].
  destruct collection as [aggregate|]; [|done].
  by destruct (_atlas_fuzzy_search settings aggregate (c :: raw) (user_id b)) as [[|d ds]|].
Qed.

(** C3 (amended). Every result of [resolve_word] is built from a candidate
    of the store, with hybrid score [0.7 * atlas_score + 0.3 *
    alias_confidence]; the results are sorted by hybrid score, greatest
    first; results of equal hybrid score keep the order in which the store
    returned their candidates (the surface plays no part); for a non-empty
    word the first result is a candidate of greatest hybrid score.  When the
    store is missing, the search fails or it returns no candidate, the
    results are empty. *)
Theorem resolve_word_ranking (buffer : WordBuffer) (method : string) (w : World) :
  let results := all_results (fst (resolve_word settings clock collection buffer method w)) in
  (forall aggregate docs,
      collection = Some aggregate ->
      _atlas_fuzzy_search settings aggregate (current_word buffer) (user_id buffer)
      = Some docs ->
      let candidates := List.map (to_search_result (current_word buffer)) docs in
      Forall (fun r => r ∈ candidates) results
      /\ Forall (fun r => hybrid_score r
                          == (7 # 10) * atlas_score r + (3 # 10) * alias_confidence r)
           results
      /\ StronglySorted outranks results
      /\ (forall k, tied k results `sublist_of` tied k candidates)
      /\ (current_word buffer <> [] ->
          forall c, c ∈ candidates ->
                    exists r, head results = Some r /\ outranks r c))
  /\ (collection = None
      \/ (exists aggregate,
             collection = Some aggregate
             /\ (_atlas_fuzzy_search settings aggregate (current_word buffer)
                   (user_id buffer) = None
                 \/ _atlas_fuzzy_search settings aggregate (current_word buffer)
                      (user_id buffer) = Some [])) ->
      results = []).
Proof.
  intros results. unfold results. rewrite resolve_word_results. split.
  - intros aggregate docs Hstore Hsearch. rewrite Hstore.
    set (candidates := List.map (to_search_result (current_word buffer)) docs).
    destruct (current_word buffer) as [|c raw] eqn:Hraw.
    { split; [constructor|]. split; [constructor|]. split; [constructor|].
      split; [intros k; apply sublist_nil_l | done]. }
    cbv beta iota zeta. rewrite Hsearch. fold candidates.
    assert (Forall (fun r => r ∈ candidates) (sort_by_score candidates)) as Hin.
    { rewrite sort_by_score_perm. by apply Forall_forall. }
    split; [exact Hin|]. split.
    { eapply Forall_impl; [exact Hin|]. intros r Hr. unfold candidates in Hr.
      apply (list_elem_of_fmap (to_search_result (c :: raw))) in Hr as (d & -> & _). apply to_search_result_hybrid. }
    split; [apply sort_by_score_sorted|].
    split; [intros k; by rewrite sort_by_score_tied|].
    intros _ x Hx.
    pose proof (sort_by_score_sorted candidates) as Hs.
    rewrite <- sort_by_score_perm in Hx.
    destruct (sort_by_score candidates) as [|r rest]; [by apply elem_of_nil in Hx|].
    exists r. split; [done|].
    apply elem_of_cons in Hx as [-> | Hx]; [apply Qle_refl|].
    apply StronglySorted_inv in Hs as [_ Hall].
    by apply (proj1 (Forall_forall _ _) Hall).
  - intros [Hstore | (aggregate & Hstore & [Hsearch | Hsearch])];
      rewrite Hstore; destruct (current_word buffer); try done;
      cbv beta iota zeta; by rewrite Hsearch.
Qed.

End Resolve.

(** A store of two entries for every query. *)
Definition two_docs : Pipeline -> option (list Doc) :=
  fun _ => Some [ {| doc_surface := lit "CAR"; doc_aliases := [];
                     doc_confidence_scores := []; doc_score := Some 1 |};
                  {| doc_surface := lit "CAT"; doc_aliases := [lit "CAT"];
                     doc_confidence_scores := [(lit "CAT", 1)]; doc_score := Some 2 |} ].

Definition buffer_CAT : WordBuffer :=
  {| session_id := "s"; user_id := "u"; letters := [lit "C"; lit "A"; lit "T"];
     last_commit_time := Some 0; created_at := 0 |}.

Lemma resolve_word_ranking_witness :
  StronglySorted outranks
    (all_results (fst (resolve_word Config.settings (fun _ => 0) (Some two_docs)
                         buffer_CAT "fuzzy" initial)))
  /\ List.map surface
       (all_results (fst (resolve_word Config.settings (fun _ => 0) (Some two_docs)
                            buffer_CAT "fuzzy" initial)))
     = [lit "CAT"; lit "CAR"].
Proof.
  split; [|vm_compute; reflexivity].
  refine (proj1 (proj2 (proj2
    (proj1 (resolve_word_ranking Config.settings (fun _ => 0) (Some two_docs)
              buffer_CAT "fuzzy" initial)
       two_docs
       [ ({| doc_surface := lit "CAR"; doc_aliases := [];
             doc_confidence_scores := []; doc_score := Some 1 |}, lit "CAR");
         ({| doc_surface := lit "CAT"; doc_aliases := [lit "CAT"];
             doc_confidence_scores := [(lit "CAT", 1)]; doc_score := Some 2 |},
          lit "CAT") ]
       eq_refl _)))).
  vm_compute. reflexivity.
Defined.

(** A store that answers every query with six entries of equal score, from
    ["F"] down to ["A"]. *)
Definition six_docs : Pipeline -> option (list Doc) :=
  fun _ => Some (List.map (fun s => {| doc_surface := s; doc_aliases := [];
                                       doc_confidence_scores := []; doc_score := Some 1 |})
                   [lit "F"; lit "E"; lit "D"; lit "C"; lit "B"; lit "A"]).

Definition buffer_A_word : WordBuffer :=
  {| session_id := "s"; user_id := "u"; letters := [lit "A"];
     last_commit_time := Some 0; created_at := 0 |}.

Definition six_results : list SearchResult :=
  all_results (fst (resolve_word Config.settings (fun _ => 0) (Some six_docs)
                      buffer_A_word "fuzzy" initial)).

(** The claim as first stated promises at most five results, with ties in
    ascending order of surface.  Six candidates of equal hybrid score all
    come back, in the order of the store: ["F"] first, ["A"] last. *)
Lemma resolve_word_tie_counterexample :
  List.map surface six_results
  = [lit "F"; lit "E"; lit "D"; lit "C"; lit "B"; lit "A"]
  /\ Forall (fun r => hybrid_score r == 7 # 10) six_results
  /\ (5 < length six_results)%nat.
Proof.
  split; [vm_compute; reflexivity|]. split.
  - repeat constructor.
  - vm_compute. lia.
Qed.

End ResolverFacts.

(* ===================================================================== *)
(** * Part III. Further properties of the code                            *)
(* ===================================================================== *)

(** ** Ingress multiplexer: routes and effects *)

Section IngressEffects.
Import IngressHandler.

(** The routes [lambda_handler] knows. *)
Definition landmarks_route (event : Event) : Prop :=
  routeKey event = Some "$default" \/ routeKey event = Some "sendlandmarks".

Definition known_route (event : Event) : Prop :=
  routeKey event = Some "$connect" \/ routeKey event = Some "$disconnect"
  \/ landmarks_route event.

Definition unsupported : Response :=
  {| statusCode := 400; response_body := Some "Unsupported route" |}.

(** The dispatch on the route key, as a chain of string comparisons. *)
Definition route_eqb {A} (o : option string) (a b l d : A) : A :=
  match o with
  | None => d
  | Some s =>
      if String.eqb s "$connect" then a
      else if String.eqb s "$disconnect" then b
      else if String.eqb s "$default" || String.eqb s "sendlandmarks" then l
      else d
  end.

Lemma route_spec {A} (o : option string) (a b l d : A) :
  match o with
  | Some "$connect" => a
  | Some "$disconnect" => b
  | Some "$default" | Some "sendlandmarks" => l
  | _ => d
  end = route_eqb o a b l d.
Proof.
  destruct o as [s|]; [|reflexivity]. unfold route_eqb.
  repeat (destruct s as [|[b0 b1 b2 b3 b4 b5 b6 b7] s]; [reflexivity|];
          try reflexivity;
          destruct b0; try reflexivity; destruct b1; try reflexivity;
          destruct b2; try reflexivity; destruct b3; try reflexivity;
          destruct b4; try reflexivity; destruct b5; try reflexivity;
          destruct b6; try reflexivity; destruct b7; try reflexivity).
Qed.

Lemma lambda_handler_dispatch up now event c :
  lambda_handler up now event c
  = if decide (routeKey event = Some "$connect") then handle_connect up now event c
    else if decide (routeKey event = Some "$disconnect") then handle_disconnect up event c
    else if decide (landmarks_route event) then handle_landmarks up now event c
    else (unsupported, c).
Proof.
  transitivity (route_eqb (routeKey event) (handle_connect up now event c)
                  (handle_disconnect up event c) (handle_landmarks up now event c)
                  (unsupported, c)); [apply route_spec|].
  unfold route_eqb, landmarks_route.
  destruct (routeKey event) as [s|].
  2:{ repeat (rewrite decide_False; [|by (intros [?|?] || intros ?)]). done. }
  destruct (String.eqb_spec s "$connect") as [->|H1]; [by rewrite decide_True|].
  rewrite decide_False by congruence.
  destruct (String.eqb_spec s "$disconnect") as [->|H2]; [by rewrite decide_True|].
  rewrite decide_False by congruence.
  destruct (String.eqb_spec s "$default") as [->|H3]; [by rewrite decide_True by by left|].
  destruct (String.eqb_spec s "sendlandmarks") as [->|H4];
    [by rewrite decide_True by by right|].
  rewrite decide_False; [done|]. intros [?|?]; congruence.
Qed.

Lemma handle_connect_effect up now event c :
  statusCode (fst (handle_connect up now event c)) = 200%Z
  /\ stream (snd (handle_connect up now event c)) = stream c.
Proof. unfold handle_connect. by repeat case_match. Qed.

Lemma handle_disconnect_effect up event c :
  statusCode (fst (handle_disconnect up event c)) = 200%Z
  /\ stream (snd (handle_disconnect up event c)) = stream c.
Proof. unfold handle_disconnect. by repeat case_match. Qed.

Lemma handle_landmarks_effect up now event c :
  (statusCode (fst (handle_landmarks up now event c)) = 200%Z
   /\ exists record,
        stream (snd (handle_landmarks up now event c)) = stream c ++ [record]
        /\ landmarks record <> [])
  \/ ((statusCode (fst (handle_landmarks up now event c)) = 400%Z
       \/ statusCode (fst (handle_landmarks up now event c)) = 500%Z)
      /\ stream (snd (handle_landmarks up now event c)) = stream c).
Proof.
  unfold handle_landmarks.
  destruct (body event) as [| |m]; [right; by split; [left|] | right; by split; [right|] |].
  destruct (default [] (msg_data m)) as [|x data] eqn:Hdata; cbn [length bool_decide].
  { rewrite bool_decide_eq_true_2 by done. right. by split; [left|]. }
  rewrite bool_decide_eq_false_2 by done.
  repeat case_match; simplify_eq; cbn [fst snd statusCode stream put_stream put_connections];
    try (right; by split; [right|]);
    left; (split; [done|]); eexists; (split; [reflexivity|]); done.
Qed.

(** X1. Whatever the event, [lambda_handler] answers 200, 400 or 500 and
    never removes or rewrites a record of the landmarks stream: the stream
    is left as it was, except that a landmarks message acknowledged with 200
    appends exactly one record, whose data list is not empty.  Any other
    status leaves the stream untouched, and a route that is none of
    [$connect], [$disconnect], [$default] and [sendlandmarks] is answered 400
    without any effect. *)
Theorem lambda_handler_stream_append_only
    (up : Availability) (now : Z) (event : Event) (c : Cloud) :
  let r := lambda_handler up now event c in
  (statusCode (fst r) = 200 \/ statusCode (fst r) = 400 \/ statusCode (fst r) = 500)%Z
  /\ (stream (snd r) = stream c
      \/ (statusCode (fst r) = 200%Z /\ landmarks_route event
          /\ exists record, stream (snd r) = stream c ++ [record]
                            /\ landmarks record <> []))
  /\ (statusCode (fst r) <> 200%Z -> stream (snd r) = stream c)
  /\ (~ known_route event -> r = (unsupported, c)).
Proof.
  cbv zeta. rewrite lambda_handler_dispatch. unfold known_route.
  destruct (decide (routeKey event = Some "$connect")) as [Hc|Hc].
  { destruct (handle_connect_effect up now event c) as [Hs Hst]. rewrite Hs, Hst.
    split; [by left|]. split; [by left|]. split; [done|]. tauto. }
  destruct (decide (routeKey event = Some "$disconnect")) as [Hd|Hd].
  { destruct (handle_disconnect_effect up event c) as [Hs Hst]. rewrite Hs, Hst.
    split; [by left|]. split; [by left|]. split; [done|]. tauto. }
  destruct (decide (landmarks_route event)) as [Hl|Hl].
  { destruct (handle_landmarks_effect up now event c)
      as [[Hs (record & Hst & Hne)] | [Hs Hst]].
    - rewrite Hs. split; [by left|]. split; [right; eauto|]. split; [done|]. tauto.
    - rewrite Hst. split; [destruct Hs as [-> | ->]; tauto|].
      split; [by left|]. split; [done|]. tauto. }
  simpl. split; [right; by left|]. split; [by left|]. done.
Qed.

(** X2. With the registry reachable, [handle_connect] records the
    connection under the placeholder session ["pending"] with a 24-hour
    expiry, and a following [handle_disconnect] removes it again: the
    registry ends as it started, without the row of that connection, and no
    other row is touched.  Neither call writes to the landmarks stream. *)
Theorem connect_then_disconnect
    (up : Availability) (now : Z) (event : Event) (c : Cloud) (cid : string) :
  connectionId event = Some cid -> dynamodb_ok up = true ->
  let c1 := snd (handle_connect up now event c) in
  let c2 := snd (handle_disconnect up event c1) in
  connections c1 !! cid
  = Some {| conn_session_id := "pending"; connected_at := Some now;
            last_activity := None; ttl := Some (now + 86400)%Z |}
  /\ (forall cid', cid' <> cid -> connections c1 !! cid' = connections c !! cid')
  /\ connections c2 = delete cid (connections c)
  /\ (connections c !! cid = None -> c2 = c)
  /\ stream c2 = stream c.
Proof.
  intros Hcid Hup. unfold handle_connect, handle_disconnect.
  rewrite Hcid, Hup. cbn [snd put_connections connections stream].
  split; [apply lookup_insert_eq|].
  split; [intros cid' Hne; by apply lookup_insert_ne|].
  split; [apply delete_insert_eq|].
  split; [|done].
  intros Hnone. destruct c as [st conns]. unfold put_connections. simpl in *. f_equal.
  rewrite delete_insert_eq. by apply delete_id.
Qed.

Lemma connect_then_disconnect_witness :
  connections
    (snd (handle_disconnect all_up (landmarks_event [])
            (snd (handle_connect all_up 7 (landmarks_event []) empty_cloud))))
  = delete "conn-1" (connections empty_cloud).
Proof.
  exact (proj1 (proj2 (proj2
    (connect_then_disconnect all_up 7 (landmarks_event []) empty_cloud "conn-1"
       eq_refl eq_refl)))).
Defined.

(** X3. A landmarks message with data, sent over a known connection while
    the registry is reachable, binds the connection to the session of the
    message (the connection id itself when the message names none) and
    stamps its last activity, keeping the connection time and expiry of an
    existing row; rows of other connections are untouched.  The binding is
    written before the stream is, so it stays even when the stream write
    fails and the call answers 500. *)
Theorem handle_landmarks_binds_session
    (up : Availability) (now : Z) (event : Event) (c : Cloud)
    (m : Message) (cid : string) :
  body event = Object m -> default [] (msg_data m) <> [] ->
  connectionId event = Some cid -> dynamodb_ok up = true ->
  let c' := snd (handle_landmarks up now event c) in
  connections c' !! cid
  = Some {| conn_session_id := default cid (msg_session_id m);
            connected_at := connections c !! cid ≫= connected_at;
            last_activity := Some now;
            ttl := connections c !! cid ≫= ttl |}
  /\ (forall cid', cid' <> cid -> connections c' !! cid' = connections c !! cid')
  /\ statusCode (fst (handle_landmarks up now event c))
     = (if kinesis_ok up then 200 else 500)%Z.
Proof.
  intros Hb Hdata Hcid Hup. unfold handle_landmarks. rewrite Hb, Hcid, Hup.
  destruct (default [] (msg_data m)) as [|x data]; [done|].
  rewrite bool_decide_eq_false_2 by done.
  destruct (msg_session_id m) as [sid|], (kinesis_ok up);
    cbn [fst snd default put_stream put_connections connections statusCode];
    (split; [apply lookup_insert_eq|]);
    (split; [intros cid' Hne; by apply lookup_insert_ne | done]).
Qed.

Lemma handle_landmarks_binds_session_witness :
  conn_session_id
  <$> connections (snd (handle_landmarks all_up 7 (landmarks_event [Finite 1]) empty_cloud))
        !! "conn-1"
  = Some "session-1".
Proof.
  rewrite (proj1 (handle_landmarks_binds_session all_up 7 (landmarks_event [Finite 1])
                    empty_cloud
                    {| msg_session_id := Some "session-1"; msg_data := Some [Finite 1] |}
                    "conn-1" eq_refl ltac:(discriminate) eq_refl eq_refl)).
  reflexivity.
Defined.

(** X4. An outage of the connection registry is never visible to the
    caller: for every event, the response of [lambda_handler] and the
    landmarks stream it leaves are the same whether or not the registry can
    be reached. *)
Theorem registry_outage_is_silent
    (kinesis : bool) (now : Z) (event : Event) (c : Cloud) :
  let down := {| dynamodb_ok := false; kinesis_ok := kinesis |} in
  let up := {| dynamodb_ok := true; kinesis_ok := kinesis |} in
  fst (lambda_handler down now event c) = fst (lambda_handler up now event c)
  /\ stream (snd (lambda_handler down now event c))
     = stream (snd (lambda_handler up now event c))
  /\ connections (snd (lambda_handler down now event c)) = connections c.
Proof.
  cbv zeta. rewrite !lambda_handler_dispatch.
  repeat case_decide.
  - unfold handle_connect. by repeat case_match.
  - unfold handle_disconnect. by repeat case_match.
  - unfold handle_landmarks. cbn [dynamodb_ok kinesis_ok].
    repeat case_match; simplify_eq; done.
  - done.
Qed.

End IngressEffects.

(** ** Hand extractor and classifier bridge: further properties *)

Section HandExtras.
Import KeyPointClassifier LetterASLService HandSpec Replay.
#[local] Open Scope Q_scope.

(** *** The classifier's choice *)



(** *** Range of the preprocessed values *)

Lemma normalize_range m t : Qabs t <= m -> -1 <= normalize_ m t /\ normalize_ m t <= 1.
Proof.
  intros Ht. unfold normalize_. destruct (Qeq_bool m 0) eqn:E; simpl; [split; lra|].
  apply Qeq_bool_neq in E.
  assert (0 < m) as Hm.
  { pose proof (Qabs_nonneg t) as H0.
    destruct (Qlt_le_dec 0 m) as [?|Hle]; [done|]. exfalso. apply E.
    apply Qle_antisym; [done|]. by apply (Qle_trans _ (Qabs t)). }
  apply Qabs_Qle_condition in Ht as [Hlo Hhi]. split.
  - apply Qle_shift_div_l; [done|]. lra.
  - apply Qle_shift_div_r; [done|]. lra.
Qed.

(** X6. Preprocessing fails only on an empty list of points.  On a
    non-empty list it returns two values per point, each between -1 and 1. *)
Theorem pre_process_landmark_range (landmark_list : list (Q * Q)) :
  (landmark_list = [] -> pre_process_landmark landmark_list = None)
  /\ (landmark_list <> [] ->
      exists pre,
        pre_process_landmark landmark_list = Some pre
        /\ length pre = (2 * length landmark_list)%nat
        /\ Forall (fun v => -1 <= v /\ v <= 1) pre).
Proof.
  split; [by intros ->|]. intros Hne.
  destruct landmark_list as [|[x0 y0] rest] eqn:Hpts; [done|]. rewrite <- Hpts.
  destruct (pre_process_landmark_spec landmark_list x0 y0)
    as (pre & m & Hpre & Hlen & Hbound & _ & Hscaled); [by rewrite Hpts|].
  exists pre. split; [done|]. split; [done|].
  apply Forall_lookup. intros i v Hi.
  assert (i < 2 * length landmark_list)%nat as Hlt
    by (rewrite <- Hlen; by eapply lookup_lt_Some).
  destruct (lookup_lt_is_Some_2 landmark_list (i / 2)) as [[x y] Hk].
  { apply Nat.Div0.div_lt_upper_bound. lia. }
  destruct (Hscaled _ _ _ Hk) as [Hu Hv]. destruct (Hbound _ _ _ Hk) as [Hx Hy].
  pose proof (Nat.div_mod_eq i 2) as Hdm.
  pose proof (Nat.mod_upper_bound i 2 ltac:(lia)) as Hmod.
  destruct (i mod 2)%nat as [|[|r]] eqn:Hr; [| |lia].
  - replace (2 * (i / 2))%nat with i in Hu by lia.
    rewrite Hu in Hi. injection Hi as <-. by apply normalize_range.
  - replace (2 * (i / 2) + 1)%nat with i in Hv by lia.
    rewrite Hv in Hi. injection Hi as <-. by apply normalize_range.
Qed.

(** *** Invariance under translation and scaling *)

Lemma maxQ_None l : maxQ l = None <-> l = [].
Proof. by destruct l. Qed.

Lemma maxQ_scaled k l l' m m' :
  0 < k -> Forall2 (fun a b => a == k * b) l l' ->
  maxQ l = Some m -> maxQ l' = Some m' -> m == k * m'.
Proof.
  intros Hk Hrel Hm Hm'.
  destruct (maxQ_spec _ _ Hm) as [Hall Hin].
  destruct (maxQ_spec _ _ Hm') as [Hall' Hin'].
  apply list_elem_of_In, list_elem_of_lookup in Hin as [i Hi].
  apply list_elem_of_In, list_elem_of_lookup in Hin' as [j Hj].
  destruct (Forall2_lookup_l _ _ _ _ _ Hrel Hi) as (b & Hb & Hmb).
  destruct (Forall2_lookup_r _ _ _ _ _ Hrel Hj) as (a & Ha & Ham).
  pose proof (proj1 (Forall_lookup _ _) Hall' _ _ Hb) as Hle'.
  pose proof (proj1 (Forall_lookup _ _) Hall _ _ Ha) as Hle.
  apply Qle_antisym.
  - rewrite Hmb. by apply Qmult_le_l.
  - by rewrite <- Ham.
Qed.

Lemma normalize_scaled_eq k m m' x y :
  0 < k -> m == k * m' -> x == k * y -> normalize_ m x == normalize_ m' y.
Proof.
  intros Hk Hm Hx. unfold normalize_.
  destruct (Qeq_bool m 0) eqn:E, (Qeq_bool m' 0) eqn:E'; simpl.
  - reflexivity.
  - exfalso. apply Qeq_bool_iff in E. apply Qeq_bool_neq in E'. apply E'.
    rewrite Hm in E. apply Qmult_integral in E as [E|E]; [|done].
    rewrite E in Hk. by apply Qlt_irrefl in Hk.
  - exfalso. apply Qeq_bool_neq in E. apply Qeq_bool_iff in E'. apply E.
    rewrite Hm, E'. ring.
  - apply Qeq_bool_neq in E'. rewrite Hm, Hx. field. split; [done|].
    intros Hk0. rewrite Hk0 in Hk. by apply Qlt_irrefl in Hk.
Qed.

Lemma Qabs_scaled k x y : 0 < k -> x == k * y -> Qabs x == k * Qabs y.
Proof.
  intros Hk ->. rewrite Qabs_Qmult, (Qabs_pos k); [reflexivity|].
  by apply Qlt_le_weak.
Qed.

(** Scaling by the greatest magnitude, on values that are [k] times others. *)
Lemma normalized_scaled k t t' :
  0 < k -> Forall2 (fun a b => a == k * b) t t' ->
  option_Forall2 (Forall2 Qeq)
    (maxQ (List.map Qabs t) ≫= fun m => Some (List.map (normalize_ m) t))
    (maxQ (List.map Qabs t') ≫= fun m => Some (List.map (normalize_ m) t')).
Proof.
  intros Hk Hrel.
  assert (Forall2 (fun a b => a == k * b) (List.map Qabs t) (List.map Qabs t')) as Habs.
  { rewrite !map_fmap. apply Forall2_fmap. eapply Forall2_impl; [exact Hrel|].
    intros x y Hxy. by apply Qabs_scaled. }
  destruct (maxQ (List.map Qabs t)) as [m|] eqn:Hm,
           (maxQ (List.map Qabs t')) as [m'|] eqn:Hm'; simpl.
  - constructor. rewrite !map_fmap. apply Forall2_fmap.
    eapply Forall2_impl; [exact Hrel|]. intros x y Hxy.
    apply (normalize_scaled_eq k); [done | | done].
    by apply (maxQ_scaled k _ _ _ _ Hk Habs).
  - exfalso. apply maxQ_None in Hm'. rewrite Hm' in Habs.
    apply Forall2_nil_inv_r in Habs. by rewrite Habs in Hm.
  - exfalso. apply maxQ_None in Hm. rewrite Hm in Habs.
    apply Forall2_nil_inv_l in Habs. by rewrite Habs in Hm'.
  - constructor.
Qed.

Lemma flatten_scaled k (f g : Q * Q -> Q * Q) l :
  (forall p, fst (f p) == k * fst (g p) /\ snd (f p) == k * snd (g p)) ->
  Forall2 (fun a b => a == k * b) (flatten (List.map f l)) (flatten (List.map g l)).
Proof.
  intros H. unfold flatten. induction l as [|p l IH]; simpl; [constructor|].
  destruct (H p) as [H1 H2]. by repeat constructor.
Qed.

(** X7. The preprocessed values do not depend on where the hand is in the
    image nor on how large it is: translating every point by the same
    vector and scaling every point by the same positive factor leaves every
    value of the result unchanged. *)
Theorem pre_process_landmark_invariant
    (landmark_list : list (Q * Q)) (k dx dy : Q) :
  0 < k ->
  option_Forall2 (Forall2 Qeq)
    (pre_process_landmark
       (List.map (fun p => (k * fst p + dx, k * snd p + dy)) landmark_list))
    (pre_process_landmark landmark_list).
Proof.
  intros Hk. unfold pre_process_landmark. cbv zeta.
  destruct landmark_list as [|p0 rest]; [constructor|].
  cbn [List.map]. rewrite !to_relative_zero.
  apply (normalized_scaled k); [done|].
  change ((k * fst p0 + dx, k * snd p0 + dy)
            :: List.map (fun p => (k * fst p + dx, k * snd p + dy)) rest)
    with (List.map (fun p => (k * fst p + dx, k * snd p + dy)) (p0 :: rest)).
  rewrite List.map_map. apply flatten_scaled. intros p. simpl. split; ring.
Qed.

Lemma pre_process_landmark_invariant_witness :
  0 < 2
  /\ option_Forall2 (Forall2 Qeq)
       (pre_process_landmark [(2 * 0 + 1, 2 * 0 + 3); (2 * 1 + 1, 2 * 2 + 3)])
       (pre_process_landmark [(0, 0); (1, 2)]).
Proof.
  assert (0 < 2) as Hk by reflexivity. split; [exact Hk|].
  exact (pre_process_landmark_invariant [(0, 0); (1, 2)] 2 1 3 Hk).
Defined.

(** *** Skipped frames *)

Lemma extract_blocks frame :
  extract_hand_from_holistic frame
  = if hand_active (left_block frame) && hand_active (right_block frame) then
      Some {| hand_landmarks := None; handedness := None;
              multi_hand := true; skip_inference := true |}
    else
      match (if hand_active (right_block frame)
             then Some (right_block frame, RightHand)
             else if hand_active (left_block frame)
                  then Some (left_block frame, LeftHand) else None) with
      | None =>
          Some {| hand_landmarks := None; handedness := None;
                  multi_hand := false; skip_inference := true |}
      | Some (hand_data, hand) =>
          pts ← reshape_xy (range_step (length hand_data) 3) hand_data [];
          Some {| hand_landmarks := Some pts; handedness := Some hand;
                  multi_hand := false; skip_inference := false |}
      end.
Proof. reflexivity. Qed.

(** X8. Which frames are skipped.  Without an initialised model every call
    raises.  With one, a frame in which both hand blocks are active is
    skipped as ["multi_hand"], a frame in which neither is active is skipped
    as ["no_hands"], and so is every frame of at most 1536 values, the
    empty one included; a frame is skipped in no other case. *)
Theorem predict_skips_unless_one_hand
    (interpreter : list Q -> list Q) (labels : list str) (frame : list Q) :
  predict_from_landmarks false interpreter labels frame = Raise RuntimeError
  /\ (active (left_block frame) -> active (right_block frame) ->
      predict_from_landmarks true interpreter labels frame
      = Return (Skipped "multi_hand" true None))
  /\ (~ active (left_block frame) -> ~ active (right_block frame) ->
      predict_from_landmarks true interpreter labels frame
      = Return (Skipped "no_hands" false None))
  /\ ((length frame <= 1536)%nat ->
      predict_from_landmarks true interpreter labels frame
      = Return (Skipped "no_hands" false None))
  /\ (forall reason multi hand,
        predict_from_landmarks true interpreter labels frame
        = Return (Skipped reason multi hand) ->
        (active (left_block frame) <-> active (right_block frame))).
Proof.
  assert (~ active (left_block frame) -> ~ active (right_block frame) ->
          predict_from_landmarks true interpreter labels frame
          = Return (Skipped "no_hands" false None)) as Hnone.
  { intros Hl Hr. apply hand_active_false in Hl, Hr.
    unfold predict_from_landmarks. rewrite extract_blocks, Hl, Hr. done. }
  split; [done|]. split; [|split; [exact Hnone|split]].
  - intros Hl Hr. apply hand_active_spec in Hl, Hr.
    unfold predict_from_landmarks. rewrite extract_blocks, Hl, Hr. done.
  - intros Hlen. apply Hnone; unfold left_block, right_block;
      rewrite drop_ge by lia; simpl; by intros H%Exists_nil.
  - intros reason multi hand. unfold predict_from_landmarks.
    rewrite extract_blocks.
    destruct (hand_active (left_block frame)) eqn:Hl,
             (hand_active (right_block frame)) eqn:Hr; cbn [andb negb].
    + intros _. apply hand_active_spec in Hl, Hr. tauto.
    + destruct (reshape_xy _ _ _) as [pts|]; cbn [mbind option_bind];
        [|discriminate].
      cbn [skip_inference hand_landmarks mbind option_bind].
      destruct (pre_process_landmark pts) as [pre|]; [|discriminate].
      destruct (negb _); [discriminate|].
      destruct (call interpreter pre) as [[i p]|]; [|discriminate].
      destruct (labels !! i); discriminate.
    + destruct (reshape_xy _ _ _) as [pts|]; cbn [mbind option_bind];
        [|discriminate].
      cbn [skip_inference hand_landmarks mbind option_bind].
      destruct (pre_process_landmark pts) as [pre|]; [|discriminate].
      destruct (negb _); [discriminate|].
      destruct (call interpreter pre) as [[i p]|]; [|discriminate].
      destruct (labels !! i); discriminate.
    + intros _. apply hand_active_false in Hl, Hr. tauto.
Qed.

(** *** A replayed hand *)

Definition triples (points : list (Q * Q)) : list Q :=
  concat (List.map (fun p => [fst p; snd p; 0]) points).

Lemma extend_points_triples points : forall hand_data,
  extend_points hand_data points = hand_data ++ triples points.
Proof.
  induction points as [|p points IH]; intros hand_data; simpl.
  - by rewrite app_nil_r.
  - rewrite IH. unfold triples. simpl. by rewrite <- app_assoc.
Qed.

Lemma triples_length points : length (triples points) = (3 * length points)%nat.
Proof.
  unfold triples. induction points as [|p points IH]; simpl; [done|]. rewrite IH. lia.
Qed.

Lemma triples_lookup points k x y :
  points !! k = Some (x, y) ->
  triples points !! (k * 3)%nat = Some x /\ triples points !! (k * 3 + 1)%nat = Some y.
Proof.
  revert k. induction points as [|p points IH]; intros k; [done|].
  destruct k as [|k]; simpl.
  - by intros [= ->].
  - intros H. by destruct (IH k H).
Qed.

Lemma triples_points points :
  length points = 21%nat -> points_of (triples points) = points.
Proof.
  intros Hlen. apply list_eq. intros i. unfold points_of.
  rewrite map_fmap, list_lookup_fmap.
  destruct (decide (i < 21)%nat) as [Hi|Hi].
  - rewrite lookup_seq_lt by done. simpl.
    destruct (lookup_lt_is_Some_2 points i) as [[x y] Hp]; [lia|].
    destruct (triples_lookup _ _ _ _ Hp) as [Hx Hy].
    by rewrite Hp, (nth_lookup_Some _ _ 0 _ Hx), (nth_lookup_Some _ _ 0 _ Hy).
  - rewrite lookup_seq_ge by lia. simpl. symmetry. apply lookup_ge_None. lia.
Qed.

Lemma triples_active points :
  active (triples points)
  <-> Exists (fun p => 1 # 100 < Qabs (fst p) \/ 1 # 100 < Qabs (snd p)) points.
Proof.
  unfold active, triples. induction points as [|p points IH]; simpl.
  - split; intros H; by apply Exists_nil in H.
  - rewrite !Exists_cons, IH. split.
    + intros [?|[?|[H|?]]]; try tauto. by vm_compute in H.
    + tauto.
Qed.

(** X9. A hand of 21 points laid out as a frame by
    [convert_hand_landmarks_to_holistic] is read back unchanged by the
    extractor: the frame has 1662 values, and when some coordinate of the
    hand exceeds 0.01 in magnitude the extractor returns exactly the points
    it was built from, tagged with the side it was placed on (the left for
    ["left"], the right for any other side).  A hand whose coordinates all
    stay within 0.01 is not seen: the frame is skipped. *)
Theorem replayed_hand_round_trip (hand_coordinates : list (Q * Q)) (hand_side : string) :
  length hand_coordinates = 21%nat ->
  let frame := convert_hand_landmarks_to_holistic hand_coordinates hand_side in
  length frame = 1662%nat
  /\ (Exists (fun p => 1 # 100 < Qabs (fst p) \/ 1 # 100 < Qabs (snd p)) hand_coordinates ->
      extract_hand_from_holistic frame
      = Some {| hand_landmarks := Some hand_coordinates;
                handedness := Some (if String.eqb hand_side "left"
                                    then LeftHand else RightHand);
                multi_hand := false; skip_inference := false |})
  /\ (~ Exists (fun p => 1 # 100 < Qabs (fst p) \/ 1 # 100 < Qabs (snd p))
          hand_coordinates ->
      extract_hand_from_holistic frame
      = Some {| hand_landmarks := None; handedness := None;
                multi_hand := false; skip_inference := true |}).
Proof.
  intros Hlen. cbv zeta. unfold convert_hand_landmarks_to_holistic. cbv zeta.
  rewrite extend_points_triples, app_nil_l.
  set (hand := triples hand_coordinates).
  assert (length hand = 63%nat) as Hhand by (unfold hand; rewrite triples_length; lia).
  set (zeros := repeat 0 (21 * 3)).
  assert (hand_active zeros = false) as Hzeros by reflexivity.
  assert (forall L R, length L = 63%nat -> length R = 63%nat ->
            length (repeat 0 (33 * 4) ++ repeat 0 (468 * 3) ++ L ++ R) = 1662%nat
            /\ left_block (repeat 0 (33 * 4) ++ repeat 0 (468 * 3) ++ L ++ R) = L
            /\ right_block (repeat 0 (33 * 4) ++ repeat 0 (468 * 3) ++ L ++ R) = R)
    as Hblocks.
  { intros L R HL HR. split; [rewrite !length_app, !repeat_length, HL, HR; lia|].
    unfold left_block, right_block. split.
    - rewrite (app_assoc (repeat 0 (33 * 4))).
      rewrite drop_app_length' by (rewrite length_app, !repeat_length; lia).
      by rewrite take_app_length' by done.
    - rewrite (app_assoc (repeat 0 (33 * 4))), (app_assoc _ L).
      rewrite drop_app_length'
        by (rewrite !length_app, !repeat_length, HL; lia).
      apply take_ge. lia. }
  destruct (String.eqb hand_side "left").
  - destruct (Hblocks hand zeros Hhand eq_refl) as (Hf & Hl & Hr).
    split; [done|]. rewrite extract_blocks, Hl, Hr, Hzeros, andb_false_r.
    split.
    + intros Hact. apply triples_active, hand_active_spec in Hact. fold hand in Hact.
      rewrite Hact, (reshape_block _ Hhand). cbn [mbind option_bind].
      unfold hand. by rewrite (triples_points _ Hlen).
    + intros Hno. rewrite <- triples_active in Hno. apply hand_active_false in Hno.
      fold hand in Hno. by rewrite Hno.
  - destruct (Hblocks zeros hand eq_refl Hhand) as (Hf & Hl & Hr).
    split; [done|]. rewrite extract_blocks, Hl, Hr, Hzeros. cbn [andb].
    split.
    + intros Hact. apply triples_active, hand_active_spec in Hact. fold hand in Hact.
      rewrite Hact, (reshape_block _ Hhand). cbn [mbind option_bind].
      unfold hand. by rewrite (triples_points _ Hlen).
    + intros Hno. rewrite <- triples_active in Hno. apply hand_active_false in Hno.
      fold hand in Hno. by rewrite Hno.
Qed.

(** A hand whose wrist is at (1/2, 1/2), every other point at the origin. *)
Definition wrist_only : list (Q * Q) := (1 # 2, 1 # 2) :: repeat (0, 0) 20.

Lemma replayed_hand_round_trip_witness :
  length wrist_only = 21%nat
  /\ (extract_hand_from_holistic (convert_hand_landmarks_to_holistic wrist_only "left")
        ≫= hand_landmarks) = Some wrist_only.
Proof.
  assert (length wrist_only = 21%nat) as Hlen by reflexivity.
  split; [exact Hlen|].
  rewrite (proj1 (proj2 (replayed_hand_round_trip wrist_only "left" Hlen))); [done|].
  apply Exists_cons_hd. by left.
Defined.

End HandExtras.

(** ** Alias builder: further properties *)

Section AliasExtras.
Import Levenshtein AliasBuilder AliasSpec AliasTools.
#[local] Open Scope Q_scope.

(** *** The index table *)

(** X10. [idx_to_char] and [char_to_idx] are inverse to each other on the
    37 symbols of the confusion matrix: every index from 0 to 36 is mapped to
    a character that maps back to it, every other index is mapped to a
    character outside the table, and an ASCII character of the table is
    recovered from its index in upper case. *)
Theorem idx_char_round_trip :
  (forall idx, (0 <= idx <= 36)%Z -> char_to_idx (idx_to_char idx) = idx)
  /\ (forall idx, ~ (0 <= idx <= 36)%Z -> char_to_idx (idx_to_char idx) = (-1)%Z)
  /\ (forall c, is_ascii c = true -> char_to_idx c <> (-1)%Z ->
                idx_to_char (char_to_idx c) = upper_char c).
Proof.
  split; [|split].
  - intros idx Hidx. rewrite <- (Z2Nat.id idx) by lia.
    apply Z.eqb_eq.
    apply (forall_below 37
             (fun i => (char_to_idx (idx_to_char (Z.of_nat i)) =? Z.of_nat i)%Z));
      [vm_compute; reflexivity | lia].
  - intros idx Hidx. unfold idx_to_char.
    destruct (Z.leb_spec 0 idx), (Z.leb_spec idx 9), (Z.leb_spec 10 idx),
      (Z.leb_spec idx 35), (Z.eqb_spec idx 36); cbn [andb]; try lia; reflexivity.
  - intros c _ Hc.
    pose proof (forall_codes
      (fun c => (char_to_idx c =? -1)%Z
                || Ascii.eqb (idx_to_char (char_to_idx c)) (upper_char c))
      ltac:(vm_compute; reflexivity) c) as H.
    apply orb_true_iff in H as [H|H]; [apply Z.eqb_eq in H; done|].
    by apply Ascii.eqb_eq.
Qed.

(** *** Confusion probabilities *)

Definition cell_in_range (i j : nat) : bool :=
  Qle_bool 0 (inject_Z (count i j) / inject_Z (row_total i))
  && Qle_bool (inject_Z (count i j) / inject_Z (row_total i)) 1.

Lemma confusion_probability_range a b :
  0 <= confusion_probability a b /\ confusion_probability a b <= 1.
Proof.
  unfold confusion_probability.
  destruct (symbol a) as [i|] eqn:Ea; [|split; discriminate].
  destruct (symbol b) as [j|] eqn:Eb; [|split; discriminate].
  apply position_lt in Ea, Eb.
  assert (cell_in_range i j = true) as H.
  { revert j Eb. apply forall_below. revert i Ea. apply forall_below.
    vm_compute. reflexivity. }
  apply andb_true_iff in H as [H1 H2]. by apply Qle_bool_iff in H1, H2.
Qed.

(** The probabilities of row [i], summed over the alphabet. *)
Definition row_mass (i : nat) : Q :=
  sumQ (List.map (fun b => match symbol b with
                           | Some j => inject_Z (count i j) / inject_Z (row_total i)
                           | None => 0
                           end) ALPHABET).

Lemma mapM_total {A B} (f : A -> option B) (g : A -> B) (l : list A) :
  (forall x, f x = Some (g x)) -> mapM f l = Some (List.map g l).
Proof.
  intros H. induction l as [|x l IH]; [done|].
  cbn [mapM List.map]. rewrite H, IH. done.
Qed.

(** X11. On ASCII characters [get_confusion_prob] never fails and always
    returns a probability: a value between 0 and 1, which is 0 as soon as one
    of the two characters is outside the table.  For a character of the
    table, the probabilities of being read as each of the 37 symbols sum
    to 1. *)
Theorem confusion_rows_are_distributions :
  (forall a b, is_ascii a = true -> is_ascii b = true ->
               exists p, get_confusion_prob a b = Some p /\ 0 <= p /\ p <= 1)
  /\ (forall a b, is_ascii a = true -> is_ascii b = true ->
                  char_to_idx a = (-1)%Z \/ char_to_idx b = (-1)%Z ->
                  get_confusion_prob a b = Some 0)
  /\ (forall a, is_ascii a = true -> char_to_idx a <> (-1)%Z ->
                exists ps, mapM (get_confusion_prob a) ALPHABET = Some ps
                           /\ sumQ ps == 1).
Proof.
  split; [|split].
  - intros a b _ _. exists (confusion_probability a b).
    split; [apply get_confusion_prob_spec | apply confusion_probability_range].
  - intros a b _ _ H. unfold get_confusion_prob. cbv zeta.
    destruct H as [-> | ->]; [done|]. by rewrite orb_true_r.
  - intros a _ Ha. exists (List.map (confusion_probability a) ALPHABET).
    split; [apply mapM_total, get_confusion_prob_spec|].
    rewrite char_to_idx_symbol in Ha.
    destruct (symbol a) as [i|] eqn:Ea; [|done].
    assert (List.map (confusion_probability a) ALPHABET
            = List.map (fun b => match symbol b with
                                 | Some j => inject_Z (count i j) / inject_Z (row_total i)
                                 | None => 0
                                 end) ALPHABET) as ->.
    { apply map_ext. intros b. unfold confusion_probability. by rewrite Ea. }
    fold (row_mass i). apply position_lt in Ea. apply Qeq_bool_iff. clear Ha.
    revert i Ea. apply forall_below. vm_compute. reflexivity.
Qed.

(** *** Range of the confusion-weighted score *)

Lemma pair_score_range a b : 0 <= pair_score a b /\ pair_score a b <= 1.
Proof.
  unfold pair_score. destruct (decide (a = b)); [split; discriminate|].
  cbv zeta. destruct (decide _); [split; discriminate|].
  apply confusion_probability_range.
Qed.

Lemma sum_pair_scores s a :
  0 <= sumQ (zip_with pair_score s a)
  /\ sumQ (zip_with pair_score s a) <= inject_Z (Z.of_nat (length s)).
Proof.
  revert a. induction s as [|x s IH]; intros [|y a]; simpl length; simpl zip_with;
    simpl sumQ; try (split; [discriminate|]);
    try (change 0 with (inject_Z 0); rewrite <- Zle_Qle; lia).
  destruct (IH a) as [Hlo Hhi]. destruct (pair_score_range x y) as [Plo Phi].
  rewrite Nat2Z.inj_succ, <- Z.add_1_l, inject_Z_plus.
  change (inject_Z 1) with 1. split; lra.
Qed.

Lemma confusion_score_range surface alias :
  0 <= confusion_score surface alias /\ confusion_score surface alias <= 1.
Proof.
  unfold confusion_score.
  destruct (sum_pair_scores (clean surface) (clean alias)) as [Hlo Hhi].
  destruct (clean surface) as [|c s] eqn:Hs.
  { simpl. split; discriminate. }
  assert (0 < inject_Z (Z.of_nat (length (c :: s)))) as Hpos.
  { change 0 with (inject_Z 0). rewrite <- Zlt_Qlt. simpl length. lia. }
  split.
  - apply Qle_shift_div_l; [done|]. lra.
  - apply Qle_shift_div_r; [done|]. lra.
Qed.

(** X12. [validate_alias] never fails on ASCII text, whatever the two
    strings are.  The score it returns lies between 0 and 1; an accepted
    alias has a score of at least 0.5 and a rejected one a score below
    0.5. *)
Theorem validate_alias_score_range (surface alias : str) :
  ascii_text surface -> ascii_text alias ->
  exists ok score,
    validate_alias surface alias = Some (ok, score)
    /\ 0 <= score /\ score <= 1
    /\ (ok = true -> 1 # 2 <= score)
    /\ (ok = false -> score < 1 # 2).
Proof.
  intros _ _. unfold validate_alias. cbv zeta.
  set (a := strip (upper alias)). set (s := strip (upper surface)).
  assert (exists ok score,
            Some (false, 0) = Some (ok, score)
            /\ 0 <= score /\ score <= 1
            /\ (ok = true -> 1 # 2 <= score) /\ (ok = false -> score < 1 # 2))
    as Hrej by (exists false, 0; repeat split; done).
  destruct ((length a <? 2)%nat || (40 <? length a)%nat); [exact Hrej|].
  destruct (negb (alias_pattern_match a)); [exact Hrej|].
  rewrite !clean_spec, levenshtein_distance_spec. cbn [mbind option_bind].
  destruct (Nat.ltb_spec 2 (lev (clean s) (clean a))) as [Hfar|Hnear]; [exact Hrej|].
  destruct (confusion_weighted_edit_distance_spec s a Hnear) as (sc & -> & Hsc).
  cbn [mbind option_bind].
  destruct (confusion_score_range s a) as [Hlo Hhi]. rewrite <- Hsc in Hlo, Hhi.
  destruct (Qltb sc (1 # 2)) eqn:Hlow.
  - apply Qltb_lt in Hlow. exists false, sc. repeat split; done.
  - apply Qltb_ge in Hlow. exists true, sc. repeat split; done.
Qed.

(** *** Aliases that spell the surface *)

Lemma sum_pair_scores_diag s :
  sumQ (zip_with pair_score s s) == inject_Z (Z.of_nat (length s)).
Proof.
  induction s as [|x s IH]; [reflexivity|].
  simpl length. simpl zip_with. simpl sumQ. rewrite IH. unfold pair_score.
  rewrite decide_True by done.
  rewrite Nat2Z.inj_succ, <- Z.add_1_l, inject_Z_plus. reflexivity.
Qed.

Lemma same_spelling_accepted (surface alias : str) :
  well_formed (strip (upper alias)) ->
  clean (strip (upper alias)) = clean (strip (upper surface)) ->
  clean (strip (upper surface)) <> [] ->
  exists score, validate_alias surface alias = Some (true, score) /\ score == 1.
Proof.
  intros Hwf Hsame Hne. unfold validate_alias. cbv zeta.
  set (a := strip (upper alias)) in *. set (s := strip (upper surface)) in *.
  pose proof Hwf as [[Hmin Hmax] _].
  destruct (Nat.ltb_spec (length a) 2) as [?|_]; [lia|].
  destruct (Nat.ltb_spec 40 (length a)) as [?|_]; [lia|]. cbn [orb].
  rewrite (alias_pattern_match_spec a Hmax).
  apply class_run_spec in Hwf. rewrite Hwf. cbn [negb].
  rewrite !clean_spec, levenshtein_distance_spec. cbn [mbind option_bind].
  rewrite Hsame, lev_refl. cbn [Nat.ltb Nat.leb].
  destruct (confusion_weighted_edit_distance_spec s a) as (sc & -> & Hsc).
  { rewrite Hsame, lev_refl. lia. }
  cbn [mbind option_bind].
  assert (sc == 1) as Hone.
  { rewrite Hsc. unfold confusion_score. rewrite Hsame, sum_pair_scores_diag.
    field. change 0 with (inject_Z 0). rewrite inject_Z_injective.
    destruct (clean s); [done | simpl; lia]. }
  assert (Qltb sc (1 # 2) = false) as ->.
  { apply Qltb_ge. rewrite Hone. discriminate. }
  by exists sc.
Qed.

(** X13. An alias that spells the surface is always accepted with the full
    score: on ASCII text, when after upper-casing and trimming the alias
    matches the
    pattern and differs from the surface only in spaces and hyphens (and the
    surface holds at least one other character), [validate_alias] returns
    [True] with score 1. *)
Theorem validate_alias_same_spelling (surface alias : str) :
  ascii_text surface -> ascii_text alias ->
  well_formed (strip (upper alias)) ->
  clean (strip (upper alias)) = clean (strip (upper surface)) ->
  clean (strip (upper surface)) <> [] ->
  exists score, validate_alias surface alias = Some (true, score) /\ score == 1.
Proof. intros _ _. apply same_spelling_accepted. Qed.

Lemma validate_alias_same_spelling_witness :
  exists score,
    validate_alias (lit "new york") (lit " NEW-YORK ") = Some (true, score) /\ score == 1.
Proof.
  apply validate_alias_same_spelling.
  - repeat constructor.
  - repeat constructor.
  - apply class_run_spec. reflexivity.
  - reflexivity.
  - discriminate.
Defined.

Lemma validate_alias_score_range_witness :
  exists ok score,
    validate_alias (lit "AWS") (lit "AW6") = Some (ok, score)
    /\ 0 <= score /\ score <= 1
    /\ (ok = true -> 1 # 2 <= score)
    /\ (ok = false -> score < 1 # 2).
Proof.
  apply validate_alias_score_range; repeat constructor.
Defined.

(** *** Placeholder aliases *)

Lemma dict_find_put_eq {V} (k : str) (v : V) d : dict_find k (dict_put k v d) = Some v.
Proof.
  induction d as [|[k' v'] d IH]; simpl; [by rewrite decide_True|].
  destruct (decide (k = k')) as [->|Hne]; simpl.
  - by rewrite decide_True.
  - by rewrite decide_False.
Qed.

Lemma dict_find_put_ne {V} (k k' : str) (v : V) d :
  k <> k' -> dict_find k' (dict_put k v d) = dict_find k' d.
Proof.
  intros Hne. induction d as [|[k0 v0] d IH]; simpl.
  - by rewrite decide_False by congruence.
  - destruct (decide (k = k0)) as [->|Hne0]; simpl.
    + by rewrite !decide_False by congruence.
    + destruct (decide (k' = k0)); [done | exact IH].
Qed.

Lemma dict_put_length {V} (k : str) (v : V) d :
  (length (dict_put k v d) <= S (length d))%nat.
Proof.
  induction d as [|[k' v'] d IH]; simpl; [lia|].
  destruct (decide (k = k')); simpl; lia.
Qed.

(** The placeholder list of an upper-cased term. *)
Definition placeholder_list (term_upper : str) : list (str * Q) :=
  if 2 <? length term_upper then [(join " " term_upper, 4 # 5)] else [].

Lemma placeholder_fold terms : forall aliases,
  (forall k v, dict_find k aliases = Some v -> v = placeholder_list k) ->
  (length (fold_left placeholder_step terms aliases) <= length aliases + length terms)%nat
  /\ (forall k v, dict_find k (fold_left placeholder_step terms aliases) = Some v ->
                 v = placeholder_list k)
  /\ (forall k, is_Some (dict_find k aliases) \/ k ∈ List.map upper terms ->
                is_Some (dict_find k (fold_left placeholder_step terms aliases))).
Proof.
  induction terms as [|term terms IH]; intros aliases Hval.
  - simpl. split; [lia|]. split; [done|]. intros k [H|H]; [done|].
    by apply elem_of_nil in H.
  - cbn [fold_left]. unfold placeholder_step at 2 4 6. cbv zeta.
    fold (placeholder_list (upper term)).
    destruct (IH (dict_put (upper term) (placeholder_list (upper term)) aliases))
      as (Hlen & Hv & Hkeys).
    { intros k v. destruct (decide (upper term = k)) as [<-|Hne].
      - rewrite dict_find_put_eq. by intros [= <-].
      - rewrite dict_find_put_ne by done. apply Hval. }
    split; [|split; [exact Hv|]].
    + pose proof (dict_put_length (upper term) (placeholder_list (upper term)) aliases).
      simpl. lia.
    + intros k Hk. apply Hkeys.
      destruct (decide (upper term = k)) as [<-|Hne].
      * left. by rewrite dict_find_put_eq.
      * rewrite dict_find_put_ne by done.
        destruct Hk as [Hk|Hk]; [by left|]. right.
        cbn [List.map] in Hk. apply elem_of_cons in Hk as [->|Hk]; done.
Qed.

Definition alnum (c : ascii) : bool := isalpha c || isdigit c.

Lemma upper_alnum c :
  alnum c = true ->
  alias_class (upper_char c) = true /\ isspace (upper_char c) = false
  /\ Ascii.eqb (upper_char c) " " = false /\ Ascii.eqb (upper_char c) "-" = false.
Proof.
  intros Hc.
  pose proof (forall_codes
    (fun c => negb (alnum c)
              || (alias_class (upper_char c) && negb (isspace (upper_char c))
                  && negb (Ascii.eqb (upper_char c) " ")
                  && negb (Ascii.eqb (upper_char c) "-")))
    ltac:(vm_compute; reflexivity) c) as H.
  cbv beta in H. rewrite Hc in H. cbn [negb orb] in H.
  apply andb_true_iff in H as [[[H1 H2]%andb_true_iff H3]%andb_true_iff H4].
  by rewrite negb_true_iff in H2, H3, H4.
Qed.

Lemma upper_char_idem c : upper_char (upper_char c) = upper_char c.
Proof.
  apply Ascii.eqb_eq. revert c. apply forall_codes. vm_compute. reflexivity.
Qed.

Lemma join_upper s : upper (join " " s) = join " " (upper s).
Proof.
  induction s as [|c s IH]; [done|].
  destruct s as [|c' s]; [done|].
  cbn [join upper List.map] in *. by rewrite IH.
Qed.

Lemma join_length s : s <> [] -> length (join " " s) = (2 * length s - 1)%nat.
Proof.
  induction s as [|c s IH]; [done|]. intros _.
  destruct s as [|c' s]; [done|].
  cbn [join length] in *. rewrite IH by done. simpl. lia.
Qed.

Lemma join_head s : head (join " " s) = head s.
Proof. destruct s as [|c [|c' s]]; done. Qed.

Lemma join_last s : last (join " " s) = last s.
Proof.
  induction s as [|c s IH]; [done|].
  destruct s as [|c' s]; [done|].
  cbn [join]. rewrite !last_cons_cons. cbn [join] in IH.
  destruct s as [|c'' s]; [done|]. by rewrite last_cons_cons, IH.
Qed.

Lemma join_clean s : clean (join " " s) = clean s.
Proof.
  induction s as [|c s IH]; [done|].
  destruct s as [|c' s]; [done|].
  cbn [join clean List.filter] in *. rewrite IH. done.
Qed.

Lemma join_class s :
  forallb alias_class s = true -> forallb alias_class (join " " s) = true.
Proof.
  induction s as [|c s IH]; [done|].
  destruct s as [|c' s]; [done|].
  cbn [join forallb] in *. intros [Hc H]%andb_true_iff.
  rewrite Hc, (IH H). done.
Qed.

Lemma lstrip_id s :
  (forall c, head s = Some c -> isspace c = false) -> lstrip s = s.
Proof. destruct s as [|c s]; [done|]. intros H. simpl. by rewrite (H c eq_refl). Qed.

Lemma strip_id s :
  (forall c, head s = Some c -> isspace c = false) ->
  (forall c, last s = Some c -> isspace c = false) -> strip s = s.
Proof.
  intros Hh Hl. unfold strip. rewrite (lstrip_id s Hh), lstrip_id; [apply rev_involutive|].
  intros c Hc. apply Hl. rewrite <- Hc, rev_alt. symmetry. apply head_reverse.
Qed.

Lemma Forall_head_last {A} (P : A -> Prop) (l : list A) :
  Forall P l -> (forall c, head l = Some c -> P c) /\ (forall c, last l = Some c -> P c).
Proof.
  intros H. split; intros c Hc; apply (proj1 (Forall_forall _ _) H).
  - destruct l; [done|]. injection Hc as ->. by left.
  - by apply last_Some_elem_of.
Qed.

Lemma filter_all {A} (f : A -> bool) (l : list A) :
  Forall (fun x => f x = true) l -> List.filter f l = l.
Proof. induction 1 as [|x l Hx _ IH]; simpl; [done|]. by rewrite Hx, IH. Qed.

(** The spaced alias of a term of letters and digits. *)
Lemma spaced_alias_accepted term :
  Forall (fun c => alnum c = true) term -> (2 <= length term <= 20)%nat ->
  exists score,
    validate_alias term (join " " (upper term)) = Some (true, score) /\ score == 1.
Proof.
  intros Hterm Hlen. set (U := upper term).
  assert (length U = length term) as HU by apply length_map.
  assert (Forall (fun u => alias_class u = true /\ isspace u = false
                           /\ Ascii.eqb u " " = false /\ Ascii.eqb u "-" = false) U)
    as HUc.
  { unfold U, upper. rewrite map_fmap. apply Forall_fmap.
    eapply Forall_impl; [exact Hterm|]. intros c Hc. by apply upper_alnum. }
  assert (upper U = U) as Hidem.
  { unfold U, upper. rewrite List.map_map. apply map_ext. intros c. apply upper_char_idem. }
  assert (strip U = U) as HsU.
  { destruct (Forall_head_last _ _ HUc) as [Hh Hl].
    apply strip_id; intros c Hc; [by apply Hh | by apply Hl]. }
  assert (clean U = U) as HcU.
  { unfold clean. apply filter_all. eapply Forall_impl; [exact HUc|].
    intros u (_ & _ & -> & ->). done. }
  assert (strip (upper (join " " U)) = join " " U) as Hsa.
  { rewrite join_upper, Hidem.
    destruct (Forall_head_last _ _ HUc) as [Hh Hl].
    apply strip_id; intros c; [rewrite join_head | rewrite join_last];
      intros Hc; [by apply Hh | by apply Hl]. }
  apply same_spelling_accepted.
  - rewrite Hsa. apply class_run_spec. unfold class_run.
    assert (U <> []) as Hne by (intros E; rewrite E in HU; simpl in HU; lia).
    rewrite (join_length U Hne), HU.
    apply andb_true_iff. split; [apply andb_true_iff; split|].
    + apply Nat.leb_le. lia.
    + apply Nat.leb_le. lia.
    + apply join_class, forallb_forall. intros u Hu.
      by apply (proj1 (Forall_forall _ _) HUc), list_elem_of_In.
  - fold U. by rewrite Hsa, HsU, join_clean.
  - fold U. rewrite HsU, HcU. intros E. rewrite E in HU. simpl in HU. lia.
Qed.

(** X27. The placeholder table holds at most ten terms.  Each of the first
    ten terms is found under its upper-case form, with no alias when it has
    at most two characters and otherwise with one alias, its characters
    separated by single spaces, at confidence 0.8.  That alias is a valid
    one: for a term of 3 to 20 ASCII letters and digits, [validate_alias]
    accepts it with score 1. *)
Theorem placeholder_aliases_are_valid (terms : list str) :
  (length (generate_placeholder_aliases terms) <= 10)%nat
  /\ forall term, term ∈ take 10 terms ->
       dict_find (upper term) (generate_placeholder_aliases terms)
       = Some (if 2 <? length (upper term)
               then [(join " " (upper term), 4 # 5)] else [])
       /\ (Forall (fun c => isalpha c || isdigit c = true) term ->
           (3 <= length term <= 20)%nat ->
           exists score,
             validate_alias term (join " " (upper term)) = Some (true, score)
             /\ score == 1).
Proof.
  unfold generate_placeholder_aliases.
  destruct (placeholder_fold (take 10 terms) []) as (Hlen & Hval & Hkeys); [done|].
  split.
  - rewrite length_take in Hlen. cbn [length] in Hlen.
    pose proof (Nat.le_min_l 10 (length terms)). lia.
  - intros term Hin. split.
    + destruct (Hkeys (upper term)) as [v Hv].
      { right. rewrite map_fmap. by apply list_elem_of_fmap_2. }
      by rewrite Hv, (Hval _ _ Hv).
    + intros Hterm Hl. apply spaced_alias_accepted; [done | lia].
Qed.

End AliasExtras.

(** ** Edit distance: a metric *)

Section LevenshteinExtras.
Import Levenshtein.

Lemma subst_cost_triangle a b c : subst_cost a c <= subst_cost a b + subst_cost b c.
Proof.
  unfold subst_cost.
  destruct (Ascii.eqb_spec a c), (Ascii.eqb_spec a b), (Ascii.eqb_spec b c);
    try lia; congruence.
Qed.

(** Edit scripts compose. *)
Lemma edit_trans n s t :
  edit n s t -> forall m u, edit m t u -> exists k, k <= n + m /\ edit k s u.
Proof.
  induction 1 as [ | a s t n _ IH | b s t n _ IH | a b s t n _ IH ]; intros m u H2.
  - eauto.
  - destruct (IH m u H2) as (k & Hk & He). exists (S k). split; [lia | by constructor].
  - remember (b :: t) as bt eqn:Hbt.
    induction H2 as [ | a0 s0 t0 n0 H2 _ | b0 s0 t0 n0 H2 IH2 | a0 b0 s0 t0 n0 H2 _ ].
    + done.
    + injection Hbt as -> ->. destruct (IH n0 t0 H2) as (k & Hk & He).
      exists k. split; [lia | done].
    + destruct (IH2 Hbt) as (k & Hk & He).
      exists (S k). split; [lia | by constructor].
    + injection Hbt as -> ->. destruct (IH n0 t0 H2) as (k & Hk & He).
      exists (S k). split; [lia | by constructor].
  - remember (b :: t) as bt eqn:Hbt.
    induction H2 as [ | a0 s0 t0 n0 H2 _ | b0 s0 t0 n0 H2 IH2 | a0 b0 s0 t0 n0 H2 _ ].
    + done.
    + injection Hbt as -> ->. destruct (IH n0 t0 H2) as (k & Hk & He).
      exists (S k). split; [lia | by constructor].
    + destruct (IH2 Hbt) as (k & Hk & He).
      exists (S k). split; [lia | by constructor].
    + injection Hbt as -> ->. destruct (IH n0 t0 H2) as (k & Hk & He).
      exists (k + subst_cost a b0). split; [|by constructor].
      pose proof (subst_cost_triangle a b b0). lia.
Qed.

Lemma lev_triangle s t u : lev s u <= lev s t + lev t u.
Proof.
  destruct (edit_trans _ _ _ (lev_edit s t) _ _ (lev_edit t u)) as (k & Hk & He).
  apply edit_lev in He. lia.
Qed.

Lemma edit_lengths n s t :
  edit n s t -> length s <= length t + n /\ length t <= length s + n.
Proof. induction 1; simpl; lia. Qed.

Lemma lev_upper s : forall t, lev s t <= Nat.max (length s) (length t).
Proof.
  induction s as [|a s IH]; intros t.
  - rewrite lev_nil_l. lia.
  - destruct t as [|b t]; [rewrite lev_nil_r; simpl; lia|].
    pose proof (edit_lev _ _ _ (edit_sub a b s t _ (lev_edit s t))) as H.
    specialize (IH t). unfold subst_cost in H. simpl length.
    destruct (Ascii.eqb a b); lia.
Qed.

(** X14. Both edit-distance routines compute a metric bounded by the
    lengths of its arguments: neither ever fails, the distance from [s] to
    [u] is at most the distance from [s] to [t] plus that from [t] to [u],
    the distance between two strings is at least the difference of their
    lengths and at most the length of the longer one. *)
Theorem levenshtein_is_a_metric :
  Forall (fun distance : str -> str -> option nat =>
            forall s t u, exists a b c,
              distance s t = Some a /\ distance t u = Some b /\ distance s u = Some c
              /\ c <= a + b
              /\ length s - length t <= a /\ length t - length s <= a
              /\ a <= Nat.max (length s) (length t))
    [levenshtein_distance; _levenshtein_distance].
Proof.
  assert (forall s t u,
            lev s u <= lev s t + lev t u
            /\ length s - length t <= lev s t /\ length t - length s <= lev s t
            /\ lev s t <= Nat.max (length s) (length t)) as H.
  { intros s t u. split; [apply lev_triangle|].
    pose proof (edit_lengths _ _ _ (lev_edit s t)).
    pose proof (lev_upper s t). lia. }
  repeat constructor; intros s t u; exists (lev s t), (lev t u), (lev s u);
    destruct (H s t u) as (H1 & H2 & H3 & H4).
  - rewrite !levenshtein_distance_spec. done.
  - rewrite !_levenshtein_distance_spec. done.
Qed.

End LevenshteinExtras.

(** ** Word resolver: alias matching and search *)

Section ResolverExtras.
Import Config Models Runtime Levenshtein WordResolver.

(** The normal form under which query and aliases are compared. *)
Definition norm (s : str) : str := remove_char "-" (remove_char " " (upper s)).

(** How far an alias is from a normalised query: the difference of the
    lengths when one is a prefix of, or contains, the other as the code
    tests it; the edit distance when that is at most 2; no distance
    otherwise. *)
Definition alias_distance (query_upper alias : str) : option nat :=
  let alias_upper := norm alias in
  if startswith alias_upper query_upper || contains query_upper alias_upper then
    Some (Z.abs_nat (Z.of_nat (length alias_upper) - Z.of_nat (length query_upper)))
  else if lev alias_upper query_upper <=? 2 then Some (lev alias_upper query_upper)
  else None.

(** [r] is the first of the aliases at the least distance, if any has one. *)
Definition first_closest (query_upper : str) (aliases : list str) (r : option str) : Prop :=
  match r with
  | None => Forall (fun b => alias_distance query_upper b = None) aliases
  | Some a =>
      exists d pre post,
        aliases = pre ++ a :: post
        /\ alias_distance query_upper a = Some d
        /\ Forall (fun b => forall e, alias_distance query_upper b = Some e -> d < e) pre
        /\ Forall (fun b => forall e, alias_distance query_upper b = Some e -> d <= e) post
  end.

Lemma startswith_length s p : startswith s p = true -> length p <= length s.
Proof.
  unfold startswith. intros H%bool_decide_eq_true. rewrite <- H, length_take. lia.
Qed.

Lemma startswith_same_length s p :
  startswith s p = true -> length s = length p -> s = p.
Proof.
  unfold startswith. intros H%bool_decide_eq_true Hlen.
  by rewrite <- Hlen, firstn_all in H.
Qed.

Lemma contains_length sub s : contains sub s = true -> length sub <= length s.
Proof.
  induction s as [|c s IH]; cbn [contains]; intros [H|H]%orb_true_iff.
  - by apply startswith_length.
  - done.
  - by apply startswith_length.
  - specialize (IH H). simpl. lia.
Qed.

Lemma contains_same_length sub s :
  contains sub s = true -> length s = length sub -> s = sub.
Proof.
  destruct s as [|c s]; cbn [contains]; intros [H|H]%orb_true_iff Hlen.
  - by apply startswith_same_length.
  - done.
  - by apply startswith_same_length.
  - apply contains_length in H. simpl in Hlen. lia.
Qed.

Lemma alias_distance_exact q a : norm a = q -> alias_distance q a = Some 0.
Proof.
  intros Ha. unfold alias_distance. cbv zeta. rewrite Ha.
  assert (startswith q q = true) as ->.
  { unfold startswith. apply bool_decide_eq_true. apply firstn_all. }
  cbn [orb]. f_equal. lia.
Qed.

Lemma alias_distance_zero q a : alias_distance q a = Some 0 -> norm a = q.
Proof.
  unfold alias_distance. cbv zeta.
  destruct (startswith (norm a) q || contains q (norm a)) eqn:E.
  - intros [= Hd]. assert (length (norm a) = length q) as Hlen by lia.
    apply orb_true_iff in E as [E|E].
    + by apply startswith_same_length.
    + by apply contains_same_length.
  - destruct (lev (norm a) q <=? 2); [|done]. intros [= Hd].
    by apply lev_zero_iff.
Qed.

(** What the loop has established after the aliases [seen]. *)
Definition loop_state (q : str) (seen : list str)
    (best_alias : option str) (best_distance : option nat) : Prop :=
  Forall (fun b => norm b <> q) seen
  /\ match best_alias, best_distance with
     | None, None => Forall (fun b => alias_distance q b = None) seen
     | Some a, Some d =>
         exists pre post,
           seen = pre ++ a :: post
           /\ alias_distance q a = Some d
           /\ Forall (fun b => forall e, alias_distance q b = Some e -> d < e) pre
           /\ Forall (fun b => forall e, alias_distance q b = Some e -> d <= e) post
     | _, _ => False
     end.

Lemma loop_state_keep q seen a best bd :
  norm a <> q ->
  (forall d, bd = Some d -> forall e, alias_distance q a = Some e -> d <= e) ->
  (bd = None -> alias_distance q a = None) ->
  loop_state q seen best bd -> loop_state q (seen ++ [a]) best bd.
Proof.
  intros Hne Hge Hnone [Hseen Hst]. split.
  { apply Forall_app. split; [done | by repeat constructor]. }
  destruct best as [a0|], bd as [d0|]; try done.
  - destruct Hst as (pre & post & -> & Hd & Hpre & Hpost).
    exists pre, (post ++ [a]). split; [by rewrite <- app_assoc|].
    split; [done|]. split; [done|].
    apply Forall_app. split; [done|]. repeat constructor. by apply Hge.
  - apply Forall_app. split; [done|]. repeat constructor. by apply Hnone.
Qed.

Lemma loop_state_take q seen a d best bd :
  norm a <> q -> alias_distance q a = Some d ->
  (forall d0, bd = Some d0 -> d < d0) ->
  loop_state q seen best bd -> loop_state q (seen ++ [a]) (Some a) (Some d).
Proof.
  intros Hne Hd Hlt [Hseen Hst]. split.
  { apply Forall_app. split; [done | by repeat constructor]. }
  exists seen, []. split; [done|]. split; [done|]. split; [|constructor].
  destruct best as [a0|], bd as [d0|]; try done.
  - destruct Hst as (pre & post & -> & Hd0 & Hpre & Hpost).
    specialize (Hlt d0 eq_refl).
    apply Forall_app. split; [|constructor].
    + eapply Forall_impl; [exact Hpre|]. intros b Hb e He. specialize (Hb e He). simpl in *. lia.
    + intros e He. rewrite Hd0 in He. injection He as <-. done.
    + eapply Forall_impl; [exact Hpost|]. intros b Hb e He. specialize (Hb e He). simpl in *. lia.
  - eapply Forall_impl; [exact Hst|]. intros b Hb e He. simpl in Hb. congruence.
Qed.

Lemma below_spec distance bd :
  below distance bd = true <-> forall d0, bd = Some d0 -> distance < d0.
Proof.
  unfold below. destruct bd as [d0|].
  - rewrite Nat.ltb_lt. split; [by intros H ? [= <-] | eauto].
  - split; [by intros _ ? [=] | done].
Qed.

Lemma alias_loop_spec q aliases : forall seen best bd,
  loop_state q seen best bd ->
  exists r, alias_loop q aliases best bd = Some r /\ first_closest q (seen ++ aliases) r.
Proof.
  induction aliases as [|a aliases IH]; intros seen best bd Hst.
  - exists best. split; [done|]. rewrite app_nil_r. destruct Hst as [_ Hst].
    unfold first_closest. destruct best as [a0|], bd as [d0|]; try done.
    destruct Hst as (pre & post & ? & ? & ? & ?). by exists d0, pre, post.
  - cbn [alias_loop]. fold (norm a).
    assert (seen ++ a :: aliases = (seen ++ [a]) ++ aliases) as Happ
      by (by rewrite <- app_assoc).
    destruct (decide (norm a = q)) as [Hex|Hne].
    { rewrite bool_decide_eq_true_2 by done. exists (Some a). split; [done|].
      exists 0, seen, aliases. split; [done|].
      split; [by apply alias_distance_exact|]. destruct Hst as [Hseen _]. split.
      - eapply Forall_impl; [exact Hseen|]. intros b Hb e He. simpl in Hb.
        destruct e; [|lia]. by apply alias_distance_zero in He.
      - apply Forall_forall. intros; lia. }
    rewrite bool_decide_eq_false_2 by done. rewrite Happ.
    destruct (startswith (norm a) q || contains q (norm a)) eqn:Epre.
    + set (d := Z.abs_nat (Z.of_nat (length (norm a)) - Z.of_nat (length q))).
      assert (alias_distance q a = Some d) as Hd
        by (unfold alias_distance; cbv zeta; by rewrite Epre).
      destruct (below d bd) eqn:Eb.
      * apply IH. apply (loop_state_take q seen a d best bd); try done.
        by apply below_spec.
      * apply IH. apply loop_state_keep; try done.
        -- intros d0 -> e He. rewrite Hd in He. injection He as <-.
           simpl in Eb. apply Nat.ltb_ge in Eb. done.
        -- intros ->. done.
    + rewrite _levenshtein_distance_spec. cbn [mbind option_bind].
      destruct (lev (norm a) q <=? 2) eqn:Elev; cbn [andb].
      * assert (alias_distance q a = Some (lev (norm a) q)) as Hd
          by (unfold alias_distance; cbv zeta; by rewrite Epre, Elev).
        destruct (below (lev (norm a) q) bd) eqn:Eb.
        -- apply IH. apply (loop_state_take q seen a _ best bd); try done.
           by apply below_spec.
        -- apply IH. apply loop_state_keep; try done.
           ++ intros d0 -> e He. rewrite Hd in He. injection He as <-.
              simpl in Eb. apply Nat.ltb_ge in Eb. done.
           ++ intros ->. done.
      * assert (alias_distance q a = None) as Hd
          by (unfold alias_distance; cbv zeta; by rewrite Epre, Elev).
        apply IH. apply loop_state_keep; try done.
        intros d0 _ e He. congruence.
Qed.

Lemma best_matching_alias_spec (query : str) (aliases : list str) :
  exists r, _find_best_matching_alias query aliases = Some r
            /\ first_closest (norm query) aliases r.
Proof.
  unfold _find_best_matching_alias. destruct aliases as [|a aliases].
  - exists None. split; [done | constructor].
  - apply (alias_loop_spec (norm query) (a :: aliases) [] None None).
    split; constructor.
Qed.

(** X15. On ASCII text [_find_best_matching_alias] never fails and returns
    the first of the aliases that lies closest to the query, both normalised by
    upper-casing and removing spaces and hyphens: the distance of an alias is
    the difference of the lengths when the alias starts with the query or
    contains it, and the edit distance when that is at most 2.  It returns
    [None] exactly when no alias has a distance; an alias equal to the query
    after normalisation is at distance 0 and is returned before any other. *)
Theorem best_matching_alias_is_first_closest (query : str) (aliases : list str) :
  ascii_text query -> Forall ascii_text aliases ->
  exists r,
    _find_best_matching_alias query aliases = Some r
    /\ first_closest (norm query) aliases r
    /\ (forall a, a ∈ aliases -> norm a = norm query ->
                  exists a', r = Some a' /\ norm a' = norm query).
Proof.
  intros _ _.
  destruct (best_matching_alias_spec query aliases) as (r & Hr & Hfirst).
  exists r. split; [done|]. split; [done|].
  intros a Hin Hex. apply alias_distance_exact in Hex.
  destruct r as [a'|].
  - exists a'. split; [done|].
    destruct Hfirst as (d & pre & post & -> & Hd & Hpre & Hpost).
    apply alias_distance_zero. rewrite Hd. f_equal.
    apply elem_of_app in Hin as [Hin|Hin].
    + pose proof (proj1 (Forall_forall _ _) Hpre a Hin 0 Hex). lia.
    + apply elem_of_cons in Hin as [->|Hin]; [congruence|].
      pose proof (proj1 (Forall_forall _ _) Hpost a Hin 0 Hex). lia.
  - simpl in Hfirst. pose proof (proj1 (Forall_forall _ _) Hfirst a Hin). congruence.
Qed.

Lemma best_matching_alias_is_first_closest_witness :
  exists r,
    _find_best_matching_alias (lit "cat") [lit "CART"; lit "C-A-T"; lit "CAT"] = Some r
    /\ first_closest (norm (lit "cat")) [lit "CART"; lit "C-A-T"; lit "CAT"] r
    /\ (forall a, a ∈ [lit "CART"; lit "C-A-T"; lit "CAT"] -> norm a = norm (lit "cat") ->
                  exists a', r = Some a' /\ norm a' = norm (lit "cat")).
Proof.
  apply best_matching_alias_is_first_closest; repeat constructor.
Defined.

(** *** The search *)

Section Search.
Variable settings : Settings.

(** The pipeline sent for a query: autocomplete up to three characters,
    fuzzy text beyond. *)
Definition pipeline_for (query : str) : Pipeline :=
  if length query <=? 3 then Autocomplete (lower query) 1 0 20
  else FuzzyText (lower query) (fuzzy_max_edits settings)
         (fuzzy_prefix_length settings) 20.

Lemma mapM_pairs (g : Doc -> option (Doc * str)) (docs : list Doc) :
  (forall d, exists a, g d = Some (d, a) /\ (a ∈ doc_aliases d \/ a = doc_surface d)) ->
  exists results,
    mapM g docs = Some results
    /\ List.map fst results = docs
    /\ Forall (fun r => snd r ∈ doc_aliases (fst r) \/ snd r = doc_surface (fst r)) results.
Proof.
  intros Hg. induction docs as [|d docs (results & Hm & Hfst & Hall)].
  - exists []. by repeat split.
  - destruct (Hg d) as (a & Ha & Hor). exists ((d, a) :: results).
    cbn [mapM]. rewrite Ha. cbn [mbind option_bind]. rewrite Hm.
    split; [done|]. split; [simpl; by rewrite Hfst|]. by constructor.
Qed.

(** X16. For an ASCII query, [_atlas_fuzzy_search] sends one pipeline,
    chosen by the length of the query, and fails only if the store does.  It returns the documents
    of the store in the order received, none dropped or added, each paired
    with a matched alias that is one of the document's own aliases or else
    its surface.  The user id takes no part: the result is the same for
    every user. *)
Theorem atlas_search_keeps_store_order
    (aggregate : Pipeline -> option (list Doc)) (query : str) (user_id : string) :
  ascii_text query ->
  (aggregate (pipeline_for query) = None ->
   _atlas_fuzzy_search settings aggregate query user_id = None)
  /\ (forall docs, aggregate (pipeline_for query) = Some docs ->
        exists results,
          _atlas_fuzzy_search settings aggregate query user_id = Some results
          /\ List.map fst results = docs
          /\ Forall (fun r => snd r ∈ doc_aliases (fst r) \/ snd r = doc_surface (fst r))
               results)
  /\ (forall other, _atlas_fuzzy_search settings aggregate query other
                    = _atlas_fuzzy_search settings aggregate query user_id).
Proof.
  intros _. unfold _atlas_fuzzy_search. cbv zeta. fold (pipeline_for query).
  split; [by intros ->|]. split; [|done].
  intros docs ->. cbn [mbind option_bind].
  apply mapM_pairs. intros d.
  destruct (best_matching_alias_spec query (doc_aliases d)) as (r & -> & Hfirst).
  cbn [mbind option_bind]. eexists. split; [reflexivity|].
  destruct r as [[|c a]|]; [by right | | by right]. left.
  destruct Hfirst as (dist & pre & post & -> & _). apply elem_of_app. right. by left.
Qed.

End Search.

Lemma atlas_search_keeps_store_order_witness :
  ascii_text (lit "CAT")
  /\ _atlas_fuzzy_search Config.settings two_docs (lit "CAT") "v"
     = _atlas_fuzzy_search Config.settings two_docs (lit "CAT") "u".
Proof.
  assert (ascii_text (lit "CAT")) as Hquery by repeat constructor.
  split; [exact Hquery|].
  exact (proj2 (proj2 (atlas_search_keeps_store_order Config.settings two_docs
                         (lit "CAT") "u" Hquery)) "v").
Defined.

(** *** Resolution *)

Lemma resolve_word_effect
    (settings : Settings) (clock : nat -> Q)
    (collection : option (Pipeline -> option (list Doc)))
    (buffer : WordBuffer) (method : string) (w : World) :
  let r := resolve_word settings clock collection buffer method w in
  windows (snd r) = windows w /\ words (snd r) = words w
  /\ outbound (snd r) = outbound w /\ ticks (snd r) = S (ticks w)
  /\ rw_session_id (fst r) = session_id buffer
  /\ rw_user_id (fst r) = user_id buffer
  /\ raw_word (fst r) = current_word buffer
  /\ search_method (fst r) = method
  /\ rw_timestamp (fst r) = clock (ticks w)
  /\ (current_word buffer = [] -> all_results (fst r) = []).
Proof.
  cbv zeta. unfold resolve_word.
  destruct (current_word buffer) as [|c raw] eqn:Hraw; [done|].
  destruct collection as [aggregate|]; [|done].
  by destruct (_atlas_fuzzy_search settings aggregate (c :: raw) (user_id buffer))
    as [[|d ds]|].
Qed.

(** X17. Resolving a word reads the clock once and nothing else of the
    session state: windows, word buffers and outbound log are left as they
    were.  The result echoes the session, the user and the letters of the
    buffer and the search method asked for, is stamped with the clock
    reading, and holds no result at all for an empty word, whatever the
    store would answer. *)
Theorem resolve_word_leaves_store
    (settings : Settings) (clock : nat -> Q)
    (collection : option (Pipeline -> option (list Doc)))
    (buffer : WordBuffer) (method : string) (w : World) :
  let r := resolve_word settings clock collection buffer method w in
  windows (snd r) = windows w /\ words (snd r) = words w
  /\ outbound (snd r) = outbound w /\ ticks (snd r) = S (ticks w)
  /\ rw_session_id (fst r) = session_id buffer
  /\ rw_user_id (fst r) = user_id buffer
  /\ raw_word (fst r) = current_word buffer
  /\ search_method (fst r) = method
  /\ rw_timestamp (fst r) = clock (ticks w)
  /\ (current_word buffer = [] -> all_results (fst r) = []).
Proof. apply resolve_word_effect. Qed.

End ResolverExtras.

(** ** Session store and commit engine: further properties *)

Section SessionExtras.
Import Config Models Runtime CommitEngine CommitSpec.
#[local] Open Scope Q_scope.

Variable settings : Settings.
Variable clock : nat -> Q.

(** *** Candidates *)

Lemma filter_nil_Forall {A} (f : A -> bool) (l : list A) :
  List.filter f l = [] <-> Forall (fun x => f x = false) l.
Proof.
  induction l as [|x l IH]; simpl; [by split; [constructor|]|].
  destruct (f x) eqn:E.
  - split; [done|]. intros H. apply Forall_cons in H as [H _]. congruence.
  - rewrite IH. split; [by constructor | by intros [_ H]%Forall_cons].
Qed.

Lemma top_candidate_found window :
  valid_entries settings window <> [] ->
  exists cand, _find_top_candidate settings window = Some cand.
Proof.
  intros Hne. unfold _find_top_candidate. cbv zeta.
  set (valid := valid_entries settings window) in *.
  destruct valid as [|e0 valid'] eqn:Hvalid; [done|]. rewrite <- Hvalid.
  set (d := fold_left tally valid []).
  assert (tallied valid d) as [Hkeys _ _] by apply (tallied_fold valid [] [] tallied_nil).
  assert (char e0 ∈ List.map fst d) as Hin.
  { apply Hkeys. rewrite Hvalid. simpl. by left. }
  destruct (List.map fst d) as [|k ks] eqn:Hk; [by apply elem_of_nil in Hin|].
  destruct (max_by_spec (total_of d) ks k) as (ks1 & ks2 & Hsplit & _).
  assert (max_by (total_of d) k ks ∈ List.map fst d) as Htop.
  { rewrite Hk, Hsplit. apply elem_of_app. right. by left. }
  destruct (dict_get_Some _ _ Htop) as [data ->]. by eexists.
Qed.

(** X18. The vote has a winner exactly when some observation of the
    window reaches the voting threshold.  The winner was then observed at
    least once: its count is the number of its observations that reach the
    threshold, so the average confidence never divides by zero, and its
    first sighting is not after its last, so the stability is never
    negative. *)
Theorem top_candidate_exists_iff (window : list LetterEntry) :
  (_find_top_candidate settings window = None
   <-> Forall (fun e => confidence e < min_confidence settings) window)
  /\ (forall cand,
        _find_top_candidate settings window = Some cand ->
        (1 <= count cand)%nat
        /\ count cand
           = length (votes (min_confidence settings) (cand_char cand) window)
        /\ first_seen cand <= last_seen cand
        /\ 0 <= stability_duration_ms cand).
Proof.
  split.
  - assert (valid_entries settings window = []
            <-> Forall (fun e => confidence e < min_confidence settings) window) as Hv.
    { unfold valid_entries. rewrite filter_nil_Forall. apply Forall_iff. intros e.
      rewrite <- Qltb_lt. unfold Qltb. by destruct (Qle_bool _ _). }
    rewrite <- Hv. split.
    + intros Hnone. destruct (valid_entries settings window) as [|e l] eqn:E; [done|].
      destruct (top_candidate_found window) as [cand Hc]; [by rewrite E | congruence].
    + intros Hnil. unfold _find_top_candidate. cbv zeta. by rewrite Hnil.
  - intros cand Hcand.
    destruct (_find_top_candidate_spec settings window cand Hcand)
      as (Hin & (_ & Hn & Hleast & Hgreatest) & _).
    rewrite (votes_by_char settings).
    assert (first_seen cand <= last_seen cand) as Hle
      by (by apply (least_le_greatest _ _ _ Hleast Hgreatest)).
    split; [|split; [done|split; [done|]]].
    + rewrite Hn. destruct Hleast as [Hfirst _].
      destruct (by_char (cand_char cand) (valid_entries settings window));
        [done | simpl; lia].
    + unfold stability_duration_ms. lra.
Qed.

(** *** A first observation *)

Lemma single_entry_fails_gates cutoff e cand :
  (0 < Config.stability_duration_ms settings)%Z ->
  _find_top_candidate settings (pruned cutoff [e]) = Some cand ->
  gates settings cand = false.
Proof.
  intros HS. unfold pruned. cbn [RedisManager.prune_loop].
  destruct (Qltb (timestamp e) cutoff); cbn [fst]; [done|]. intros Hcand.
  destruct (_find_top_candidate_spec settings [e] cand Hcand)
    as (_ & (_ & _ & [Hfirst _] & [Hlast _]) & _).
  assert (forall t, In t (List.map timestamp
                            (by_char (cand_char cand) (valid_entries settings [e]))) ->
                    t = timestamp e) as Hone.
  { intros t (e' & <- & He')%in_map_iff. unfold by_char in He'.
    apply filter_In in He' as [He' _]. unfold valid_entries in He'.
    apply filter_In in He' as [[<-|[]] _]. done. }
  apply Hone in Hfirst, Hlast.
  unfold gates. apply andb_false_iff. right. apply negb_false_iff, Qltb_lt.
  unfold stability_duration_ms, stability_ms. rewrite Hfirst, Hlast.
  rewrite Zlt_Qlt in HS. change (inject_Z 0) with 0 in HS. lra.
Qed.

(** X19. With a positive stability requirement (200 ms by default), the
    first observation of a session is never committed: when the session has
    no window yet, [process_letter] returns [None] whatever the character,
    its confidence and the clock. *)
Theorem first_observation_never_commits
    (sid uid : string) (c : str) (conf ts : Q) (w : World) :
  (0 < Config.stability_duration_ms settings)%Z ->
  windows w !! sid = None ->
  fst (process_letter settings clock sid uid c conf ts w) = None.
Proof.
  intros HS Hnone. rewrite process_letter_eq. cbv zeta.
  unfold observed. rewrite Hnone. cbn [default app].
  destruct (pruned _ _) as [|e0 rest] eqn:Hp; [done|]. rewrite <- Hp.
  destruct (_find_top_candidate settings _) as [cand|] eqn:Hcand; [|done].
  by rewrite (single_entry_fails_gates _ _ _ HS Hcand).
Qed.

(** *** Pruning *)

Lemma prune_loop_fixed cutoff entries :
  RedisManager.prune_loop cutoff (pruned cutoff entries) 0 = (pruned cutoff entries, 0%nat).
Proof.
  destruct (prune_loop_spec cutoff entries 0) as (removed & _ & _ & _ & Hhead).
  fold (pruned cutoff entries) in Hhead.
  destruct (pruned cutoff entries) as [|e0 rest]; [done|].
  cbn [RedisManager.prune_loop].
  assert (Qltb (timestamp e0) cutoff = false) as ->; [|done].
  apply Qltb_ge. by apply Hhead.
Qed.

(** X20. Pruning is idempotent and local.  A second [prune_window] with the
    same cutoff removes nothing and leaves the store exactly as the first
    one left it; pruning a session that has no window returns 0 and changes
    nothing; and a prune never touches the window of another session, any
    word buffer, or the outbound log. *)
Theorem prune_window_idempotent (sid : string) (cutoff : Q) (w : World) :
  let w1 := snd (RedisManager.prune_window sid cutoff w) in
  RedisManager.prune_window sid cutoff w1 = (0%nat, w1)
  /\ (windows w !! sid = None -> RedisManager.prune_window sid cutoff w = (0%nat, w))
  /\ (forall sid', sid' <> sid -> windows w1 !! sid' = windows w !! sid')
  /\ words w1 = words w /\ outbound w1 = outbound w /\ ticks w1 = ticks w.
Proof.
  cbv zeta. unfold RedisManager.prune_window, mbind, M_bind, get.
  destruct (windows w !! sid) as [entries|] eqn:E.
  2:{ cbn [snd mret M_ret]. rewrite E. done. }
  pose proof (prune_loop_fixed cutoff entries) as Hfix. unfold pruned in Hfix.
  destruct (RedisManager.prune_loop cutoff entries 0) as [rest n] eqn:Hloop.
  cbn [fst] in Hfix. unfold modify, mret, M_ret, with_windows.
  cbn [snd windows words outbound ticks].
  split; [|split; [done|split; [|done]]].
  - destruct rest as [|e0 rest]; cbn [RedisManager.store_list].
    + by rewrite lookup_delete_eq.
    + rewrite lookup_insert_eq, Hfix.
      cbn [RedisManager.store_list windows words ticks outbound].
      by rewrite insert_insert_eq.
  - intros sid' Hne. by apply store_list_lookup_ne.
Qed.

(** *** Word buffers *)

Lemma append_to_word_found sid uid c w b :
  words w !! sid = Some b ->
  RedisManager.append_to_word clock sid uid c w
  = (committed_buffer b c (clock (ticks w)),
     {| windows := windows w;
        words := <[session_id b := committed_buffer b c (clock (ticks w))]> (words w);
        ticks := S (ticks w); outbound := outbound w |}).
Proof.
  intros Hb. unfold RedisManager.append_to_word, mbind, M_bind.
  by rewrite (get_word_buffer_found clock _ _ _ _ Hb).
Qed.

Lemma append_to_word_created sid uid c w :
  words w !! sid = None ->
  RedisManager.append_to_word clock sid uid c w
  = (committed_buffer (new_buffer sid uid (clock (ticks w))) c (clock (S (ticks w))),
     {| windows := windows w;
        words := <[sid := committed_buffer (new_buffer sid uid (clock (ticks w))) c
                             (clock (S (ticks w)))]>
                   (<[sid := new_buffer sid uid (clock (ticks w))]> (words w));
        ticks := S (S (ticks w)); outbound := outbound w |}).
Proof.
  intros Hb. unfold RedisManager.append_to_word, mbind, M_bind.
  by rewrite (get_word_buffer_created clock _ _ _ Hb).
Qed.

(** X21. The word buffer of a session keeps its owner.  [append_to_word]
    stores the buffer it returns, with the new letter at the end and the
    time of the commit; when the session already had a buffer, its user id
    and creation time are kept and the user id passed to the call is
    ignored, and only a session without a buffer gets the caller's user id.
    Reading the buffer back returns it unchanged, whatever user id is
    passed. *)
Theorem append_to_word_keeps_owner (sid uid : string) (c : str) (w : World) :
  (forall b, words w !! sid = Some b -> session_id b = sid) ->
  let buffer := fst (RedisManager.append_to_word clock sid uid c w) in
  let w' := snd (RedisManager.append_to_word clock sid uid c w) in
  words w' !! sid = Some buffer
  /\ letters buffer = default [] (letters <$> words w !! sid) ++ [c]
  /\ (forall b, words w !! sid = Some b ->
        user_id buffer = user_id b /\ created_at buffer = created_at b
        /\ last_commit_time buffer = Some (clock (ticks w)))
  /\ (words w !! sid = None -> user_id buffer = uid)
  /\ (forall other, RedisManager.get_word_buffer clock sid other w' = (buffer, w'))
  /\ (forall sid', sid' <> sid -> words w' !! sid' = words w !! sid')
  /\ windows w' = windows w /\ outbound w' = outbound w.
Proof.
  intros Hkey. cbv zeta.
  destruct (words w !! sid) as [b|] eqn:Hb.
  - rewrite (append_to_word_found _ uid c _ _ Hb), (Hkey b eq_refl).
    cbn [fst snd words windows outbound].
    split; [apply lookup_insert_eq|]. split; [done|]. split; [by intros ? [= <-]|].
    split; [done|]. split.
    { intros other. apply get_word_buffer_found. apply lookup_insert_eq. }
    split; [intros sid' Hne; by apply lookup_insert_ne | done].
  - rewrite (append_to_word_created _ uid c _ Hb).
    cbn [fst snd words windows outbound].
    split; [apply lookup_insert_eq|]. split; [done|]. split; [done|].
    split; [done|]. split.
    { intros other. apply get_word_buffer_found. apply lookup_insert_eq. }
    split; [|done]. intros sid' Hne. by rewrite !lookup_insert_ne.
Qed.

(** *** The pause check *)

Lemma check_pause_effect sid w :
  exists r w',
    check_pause settings clock sid w = (r, w')
    /\ windows w' = windows w /\ outbound w' = outbound w
    /\ (r = true <->
        exists b t,
          words w !! sid = Some b /\ letters b <> []
          /\ last_commit_time b = Some t
          /\ inject_Z (pause_duration_ms settings) <= (clock (ticks w) - t) * 1000)
    /\ words w' = match words w !! sid with
                  | Some _ => words w
                  | None => <[sid := new_buffer sid "temp" (clock (ticks w))]> (words w)
                  end.
Proof.
  unfold check_pause. unfold mbind at 1. unfold M_bind at 1.
  destruct (words w !! sid) as [b|] eqn:Hb.
  - rewrite (get_word_buffer_found clock _ _ _ _ Hb).
    destruct (letters b) as [|l ls] eqn:Hl.
    { eexists _, _. split; [reflexivity|]. split; [done|]. split; [done|].
      split; [|done]. split; [done|]. intros (b' & t & [= <-] & Hne & _). congruence. }
    destruct (last_commit_time b) as [t|] eqn:Ht.
    2:{ eexists _, _. split; [reflexivity|]. split; [done|]. split; [done|].
        split; [|done]. split; [done|]. intros (b' & t & [= <-] & _ & Ht' & _).
        congruence. }
    unfold mbind, M_bind, now, mret, M_ret.
    eexists _, _. split; [reflexivity|]. split; [done|]. split; [done|].
    split; [|done]. rewrite Qle_bool_iff. split.
    + intros Hle. exists b, t. rewrite Hl. done.
    + intros (b' & t' & [= <-] & _ & Ht' & Hle). rewrite Ht in Ht'. by injection Ht' as <-.
  - rewrite (get_word_buffer_created clock _ _ _ Hb). cbn [new_buffer letters].
    eexists _, _. split; [reflexivity|]. split; [done|]. split; [done|].
    split; [|done]. split; [done|]. by intros (b' & t & [=] & _).
Qed.

(** X22. [check_pause] answers [True] exactly when the session has a
    buffer with at least one letter whose last commit lies at least the
    pause duration before the reading of the clock.  It never changes a
    window or the outbound log, and leaves an existing buffer as it is; but
    on a session without a buffer it creates an empty one, owned by the user
    ["temp"], as a side effect of the check. *)
Theorem check_pause_exact (sid : string) (w : World) :
  let r := check_pause settings clock sid w in
  (fst r = true <->
   exists b t,
     words w !! sid = Some b /\ letters b <> []
     /\ last_commit_time b = Some t
     /\ inject_Z (pause_duration_ms settings) <= (clock (ticks w) - t) * 1000)
  /\ windows (snd r) = windows w /\ outbound (snd r) = outbound w
  /\ (is_Some (words w !! sid) -> words (snd r) = words w)
  /\ (words w !! sid = None ->
      fst r = false
      /\ words (snd r)
         = <[sid := {| session_id := sid; user_id := "temp"; letters := [];
                       last_commit_time := None;
                       created_at := clock (ticks w) |}]> (words w)).
Proof.
  cbv zeta. destruct (check_pause_effect sid w) as (r & w' & -> & Hw & Ho & Hr & Hwords).
  cbn [fst snd]. split; [done|]. split; [done|]. split; [done|]. split.
  - intros [b Hb]. by rewrite Hb in Hwords.
  - intros Hnone. rewrite Hnone in Hwords. split; [|done].
    destruct r; [|done]. destruct (proj1 Hr eq_refl) as (b & t & Hb & _). congruence.
Qed.

End SessionExtras.

(** ** Stream consumer: further properties *)

Section ConsumerExtras.
Import Config Models Runtime CommitEngine CommitSpec KinesisConsumer.
#[local] Open Scope Q_scope.

Variable settings : Settings.
Variable clock : nat -> Q.
Variable collection : option (WordResolver.Pipeline -> option (list WordResolver.Doc)).

(** *** Effects of the building blocks *)

Lemma _finalize_word_effect sid method w b :
  words w !! sid = Some b -> letters b <> [] ->
  exists rw w',
    _finalize_word settings clock collection sid method w = (tt, w')
    /\ outbound w' = outbound w ++ [(sid, rw)]
    /\ windows w' = delete sid (windows w)
    /\ words w' = delete sid (words w)
    /\ rw_session_id rw = session_id b /\ rw_user_id rw = user_id b
    /\ raw_word rw = concat (letters b) /\ search_method rw = method.
Proof.
  intros Hb Hl. unfold _finalize_word. unfold mbind at 1. unfold M_bind at 1.
  rewrite (get_word_buffer_found clock _ _ _ _ Hb).
  destruct (letters b) as [|l ls] eqn:Hlb; [done|]. unfold mbind, M_bind.
  pose proof (resolve_word_effect settings clock collection b method w) as H.
  cbv zeta in H.
  destruct (WordResolver.resolve_word settings clock collection b method w) as [rw w1].
  cbn [fst snd] in H. destruct H as (Hw & Hwords & Ho & _ & Hs & Hu & Hraw & Hm & _).
  unfold _send_to_outbound_lambda, invoke_outbound, RedisManager.clear_word_buffer,
    RedisManager.clear_window, modify, with_words, with_windows.
  cbn [windows words outbound ticks].
  eexists rw, _. split; [reflexivity|]. cbn [windows words outbound].
  rewrite Hw, Hwords, Ho. unfold current_word in Hraw. rewrite Hlb in Hraw. done.
Qed.

(** The two outcomes of [finalize_if_paused]. *)
Definition pause_checked (sid : string) (w w' : World) : Prop :=
  outbound w' = outbound w /\ windows w' = windows w
  /\ words w' = match words w !! sid with
                | Some _ => words w
                | None => <[sid := new_buffer sid "temp" (clock (ticks w))]> (words w)
                end.

Definition finalized (sid method : string) (w w' : World) : Prop :=
  exists b rw,
    words w !! sid = Some b /\ letters b <> []
    /\ outbound w' = outbound w ++ [(sid, rw)]
    /\ windows w' = delete sid (windows w)
    /\ words w' = delete sid (words w)
    /\ rw_session_id rw = session_id b /\ rw_user_id rw = user_id b
    /\ raw_word rw = concat (letters b) /\ search_method rw = method.

Lemma finalize_if_paused_effect sid method w :
  exists w',
    finalize_if_paused settings clock collection sid method w = (tt, w')
    /\ (pause_checked sid w w' \/ finalized sid method w w').
Proof.
  unfold finalize_if_paused, mbind, M_bind.
  destruct (check_pause_effect settings clock sid w)
    as (r & w1 & -> & Hw & Ho & Hr & Hwords).
  destruct r.
  - destruct (proj1 Hr eq_refl) as (b & t & Hb & Hl & _).
    rewrite Hb in Hwords.
    destruct (_finalize_word_effect sid method w1 b) as (rw & w' & -> & H);
      [by rewrite Hwords | done |].
    exists w'. split; [done|]. right. exists b, rw.
    rewrite Hw, Ho, Hwords in H. done.
  - exists w1. split; [done|]. by left.
Qed.

Lemma process_letter_outbound sid uid c conf ts w :
  outbound (snd (process_letter settings clock sid uid c conf ts w)) = outbound w.
Proof.
  rewrite process_letter_eq. cbv zeta.
  destruct (pruned _ _) as [|e0 rest]; [done|].
  destruct (_find_top_candidate settings _) as [cand|]; [|done].
  destruct (gates settings cand); [|done].
  destruct (commit_phase settings clock sid uid cand _) as [r w'] eqn:H.
  apply commit_phase_spec in H as (_ & Ho & _). cbn [snd]. by rewrite Ho.
Qed.

(** *** Records that change nothing *)

(** X23. A record of the letters stream that does not parse, carries an
    event type other than ["skip"] and ["prediction"], or is a prediction
    without a label (missing or empty), leaves the whole session state as
    it was: no window, buffer or clock reading is touched and nothing is
    sent. *)
Theorem process_record_ignores_malformed (record : StreamRecord) (w : World) :
  (Data record = None
   \/ exists p, Data record = Some p
                /\ event_type p <> "skip"
                /\ (event_type p <> "prediction"
                    \/ prediction p = None \/ prediction p = Some [])) ->
  process_record settings clock collection record w = (tt, w).
Proof.
  unfold process_record. intros [-> | (p & -> & Hskip & Hor)]; [done|].
  rewrite bool_decide_eq_false_2 by done.
  destruct Hor as [Hpred | [-> | ->]]; [|done..].
  destruct (prediction p) as [[|c l]|]; [done| |done].
  by rewrite bool_decide_eq_false_2.
Qed.

(** *** The outbound log *)

Lemma for_each_invariant {A} (f : A -> M unit) (I : World -> Prop) (l : list A) :
  (forall x w, I w -> I (snd (f x w))) ->
  forall w, I w -> I (snd (for_each l f w)).
Proof.
  intros Hf. induction l as [|x l IH]; intros w Hw; [done|].
  cbn [for_each]. unfold mbind, M_bind.
  specialize (Hf x w Hw). destruct (f x w) as [u w1]. by apply IH.
Qed.





(** *** One session at a time *)

Lemma process_letter_words sid uid c conf ts w :
  let e := {| char := c; confidence := conf; timestamp := ts |} in
  let window := pruned (cutoff_at settings clock w) (observed w sid e) in
  let r := process_letter settings clock sid uid c conf ts w in
  windows (snd r)
  = RedisManager.store_list sid window (<[sid := observed w sid e]> (windows w))
  /\ ((words (snd r) = words w /\ fst r = None)
      \/ exists cand b w1,
           _find_top_candidate settings window = Some cand
           /\ gates settings cand = true
           /\ RedisManager.get_word_buffer clock sid uid (after_prune settings clock w sid e)
              = (b, w1)
           /\ match fst r with
              | None => words (snd r) = words w1
              | Some buffer =>
                  buffer = committed_buffer b (cand_char cand) (clock (ticks w1))
                  /\ words (snd r) = <[session_id b := buffer]> (words w1)
              end).
Proof.
  cbv zeta. rewrite process_letter_eq. cbv zeta.
  set (e := {| char := c; confidence := conf; timestamp := ts |}).
  assert (windows (after_prune settings clock w sid e)
          = RedisManager.store_list sid
              (pruned (cutoff_at settings clock w) (observed w sid e))
              (<[sid := observed w sid e]> (windows w))) as Hw2 by reflexivity.
  assert (words (after_prune settings clock w sid e) = words w) as Hwd2 by reflexivity.
  remember (pruned (cutoff_at settings clock w) (observed w sid e)) as window eqn:Hp.
  destruct window as [|e0 rest]; [split; [done | by left]|].
  destruct (_find_top_candidate settings (e0 :: rest)) as [cand|] eqn:Htop;
    [|split; [done | by left]].
  destruct (gates settings cand) eqn:Hg; [|split; [done | by left]].
  destruct (commit_phase settings clock sid uid cand _) as [r w'] eqn:H.
  apply commit_phase_spec in H as (Hw & _ & b & w1 & Hget & Hr).
  cbn [fst snd]. split; [by rewrite Hw|]. right.
  exists cand, b, w1. split; [done|]. split; [done|]. split; [done|].
  destruct r as [buffer|]; [by destruct Hr as (_ & ? & ?) | by destruct Hr as (_ & ->)].
Qed.

(** X25. [process_letter] works on one session.  It leaves the window and
    the word buffer of every other session and the outbound log as they
    were; the window of its own session becomes the old window with the new
    observation appended, pruned from the left; when it returns [None] the
    letters of the session are unchanged; and the buffer stored under a
    session keeps naming that session. *)
Theorem process_letter_touches_one_session
    (sid uid : string) (c : str) (conf ts : Q) (w : World) :
  (forall b, words w !! sid = Some b -> session_id b = sid) ->
  let r := process_letter settings clock sid uid c conf ts w in
  (forall sid', sid' <> sid ->
     windows (snd r) !! sid' = windows w !! sid'
     /\ words (snd r) !! sid' = words w !! sid')
  /\ outbound (snd r) = outbound w
  /\ default [] (windows (snd r) !! sid)
     = fst (RedisManager.prune_loop
              (clock (ticks w) - inject_Z (Config.window_duration_ms settings) / 1000)
              (default [] (windows w !! sid)
               ++ [{| char := c; confidence := conf; timestamp := ts |}]) 0)
  /\ (fst r = None ->
      default [] (letters <$> words (snd r) !! sid)
      = default [] (letters <$> words w !! sid))
  /\ (forall b, words (snd r) !! sid = Some b -> session_id b = sid).
Proof.
  intros Hkey. cbv zeta.
  destruct (process_letter_words sid uid c conf ts w) as [Hwin Hwords].
  cbv zeta in Hwin, Hwords.
  pose proof (process_letter_outbound sid uid c conf ts w) as Hout.
  destruct (process_letter settings clock sid uid c conf ts w) as [r w'].
  cbn [fst snd] in *.
  assert (forall sid', sid' <> sid -> windows w' !! sid' = windows w !! sid') as Hother.
  { intros sid' Hne. rewrite Hwin, store_list_lookup_ne, lookup_insert_ne; done. }
  assert (default [] (windows w' !! sid)
          = fst (RedisManager.prune_loop
                   (clock (ticks w) - inject_Z (Config.window_duration_ms settings) / 1000)
                   (default [] (windows w !! sid)
                    ++ [{| char := c; confidence := conf; timestamp := ts |}]) 0))
    as Hown by (rewrite Hwin; apply store_list_lookup).
  destruct Hwords as [[Hsame ->] | (cand & b & w1 & _ & _ & Hget & Hr)].
  { rewrite Hsame. repeat split; try done. by apply Hother. }
  apply get_word_buffer_kept in Hget as (_ & _ & Hkept & Hb & Hl).
  cbn [words after_prune] in Hkept, Hb, Hl.
  assert (session_id b = sid /\ forall sid', sid' <> sid ->
                                   words w1 !! sid' = words w !! sid') as [Hsid Hw1].
  { destruct Hkept as [Hk | (uid' & t & Hnone & Hk)].
    - cbn [words after_prune] in Hk. rewrite Hk in Hb.
      split; [by apply Hkey | by rewrite Hk].
    - cbn [words after_prune] in Hk. rewrite Hk, lookup_insert_eq in Hb.
      injection Hb as <-.
      split; [done|]. intros sid' Hne. by rewrite Hk, lookup_insert_ne. }
  unfold letters_of in Hl. cbn [words] in Hl.
  destruct r as [buffer|].
  - destruct Hr as [-> Hwords]. rewrite Hsid in Hwords.
    split; [|split; [done|split; [done|split; [done|]]]].
    + intros sid' Hne. split; [by apply Hother|].
      rewrite Hwords, lookup_insert_ne by done. by apply Hw1.
    + intros b'. rewrite Hwords, lookup_insert_eq. by intros [= <-].
  - split; [|split; [done|split; [done|split]]].
    + intros sid' Hne. split; [by apply Hother|]. rewrite Hr. by apply Hw1.
    + intros _. by rewrite Hr, Hb.
    + intros b'. rewrite Hr, Hb. by intros [= <-].
Qed.

(** *** Who owns a resolved word *)

(** Every buffer is keyed by its session and owned by ["temp"], every
    session with a window has a buffer, and every word sent names its
    session and the owner ["temp"]. *)
Record owned (w : World) : Prop := {
  owned_words : forall sid b, words w !! sid = Some b ->
                              session_id b = sid /\ user_id b = "temp";
  owned_windows : forall sid, is_Some (windows w !! sid) -> is_Some (words w !! sid);
  owned_outbound : forall sid rw, (sid, rw) ∈ outbound w ->
                                  rw_session_id rw = sid /\ rw_user_id rw = "temp"
}.

(** The same, except that session [sid] may have a window without a
    buffer. *)
Record owned_but (sid : string) (w : World) : Prop := {
  but_words : forall sid' b, words w !! sid' = Some b ->
                             session_id b = sid' /\ user_id b = "temp";
  but_windows : forall sid', sid' <> sid ->
                             is_Some (windows w !! sid') -> is_Some (words w !! sid');
  but_outbound : forall sid' rw, (sid', rw) ∈ outbound w ->
                                 rw_session_id rw = sid' /\ rw_user_id rw = "temp"
}.

Lemma owned_initial : owned initial.
Proof.
  split; intros sid; simpl.
  - intros b H. by rewrite lookup_empty in H.
  - rewrite lookup_empty. by intros [? ?].
  - intros rw H. by apply elem_of_nil in H.
Qed.

Section Stable.
Hypothesis stability_positive : (0 < Config.stability_duration_ms settings)%Z.

Lemma process_letter_owned sid uid c conf ts w :
  owned w -> owned_but sid (snd (process_letter settings clock sid uid c conf ts w)).
Proof.
  intros [Hwords Hwin Hout].
  destruct (process_letter_words sid uid c conf ts w) as [Hw' Hcases].
  cbv zeta in Hw', Hcases.
  pose proof (process_letter_outbound sid uid c conf ts w) as Ho.
  destruct (process_letter settings clock sid uid c conf ts w) as [r w'].
  cbn [fst snd] in *.
  assert (forall sid', sid' <> sid -> windows w' !! sid' = windows w !! sid') as Hother.
  { intros sid' Hne. rewrite Hw', store_list_lookup_ne, lookup_insert_ne; done. }
  destruct Hcases as [[Hsame _] | (cand & b & w1 & Htop & Hg & Hget & Hr)].
  { split.
    - rewrite Hsame. apply Hwords.
    - intros sid' Hne. rewrite Hother, Hsame by done. apply Hwin.
    - rewrite Ho. apply Hout. }
  destruct (windows w !! sid) as [l|] eqn:Hl.
  2:{ unfold observed in Htop. rewrite Hl in Htop. cbn [default app] in Htop.
      rewrite (single_entry_fails_gates settings _ _ _ stability_positive Htop) in Hg.
      done. }
  destruct (Hwin sid) as [b0 Hb0]; [by rewrite Hl|].
  rewrite (get_word_buffer_found clock sid uid _ b0) in Hget by done.
  injection Hget as <- <-. cbn [words after_prune ticks] in Hr.
  destruct (Hwords sid b0 Hb0) as [Hsid Huser].
  destruct r as [buffer|].
  - destruct Hr as [-> Hr]. rewrite Hsid in Hr. split.
    + intros sid' b. rewrite Hr. destruct (decide (sid = sid')) as [<-|Hne].
      * rewrite lookup_insert_eq. by intros [= <-].
      * rewrite lookup_insert_ne by done. apply Hwords.
    + intros sid' Hne. rewrite Hother, Hr, lookup_insert_ne by done. apply Hwin.
    + rewrite Ho. apply Hout.
  - split.
    + rewrite Hr. apply Hwords.
    + intros sid' Hne. rewrite Hother, Hr by done. apply Hwin.
    + rewrite Ho. apply Hout.
Qed.

Lemma finalize_if_paused_owned sid method w :
  owned_but sid w ->
  owned (snd (finalize_if_paused settings clock collection sid method w)).
Proof.
  intros [Hwords Hwin Hout].
  destruct (finalize_if_paused_effect sid method w) as (w' & -> & [H|H]); cbn [snd].
  - destruct H as (Ho & Hw & Hwd). split.
    + intros sid' b. rewrite Hwd. destruct (words w !! sid) as [b0|] eqn:Hb0;
        [apply Hwords|].
      destruct (decide (sid = sid')) as [<-|Hne].
      * rewrite lookup_insert_eq. by intros [= <-].
      * rewrite lookup_insert_ne by done. apply Hwords.
    + intros sid'. rewrite Hw, Hwd. destruct (decide (sid = sid')) as [<-|Hne].
      * intros _. destruct (words w !! sid) as [b0|] eqn:Hb0; [by rewrite Hb0|].
        by rewrite lookup_insert_eq.
      * intros Hs. destruct (words w !! sid) as [b0|]; [by apply Hwin|].
        rewrite lookup_insert_ne by done. by apply Hwin.
    + rewrite Ho. apply Hout.
  - destruct H as (b & rw & Hb & _ & Ho & Hw & Hwd & Hs & Hu & _).
    destruct (Hwords sid b Hb) as [Hsid Huser]. split.
    + intros sid' b'. rewrite Hwd. intros [_ H]%lookup_delete_Some. by apply Hwords.
    + intros sid'. rewrite Hw, Hwd. intros [l [Hne Hl]%lookup_delete_Some].
      rewrite lookup_delete_ne by done. by apply Hwin.
    + intros sid' rw'. rewrite Ho.
      intros [Hin | Hin%list_elem_of_singleton]%elem_of_app; [by apply Hout|].
      injection Hin as -> ->. by rewrite Hs, Hu.
Qed.

Lemma owned_weaken sid w : owned w -> owned_but sid w.
Proof. intros [? Hwin ?]. split; try done. intros sid' _. apply Hwin. Qed.

Lemma step_owned s w : owned w -> owned (snd (step settings clock collection s w)).
Proof.
  intros Hw. destruct s as [record|]; cbn [step].
  - unfold process_record.
    destruct (Data record) as [p|]; [|done].
    destruct (bool_decide _); [by apply finalize_if_paused_owned, owned_weaken|].
    destruct (prediction p) as [[|c l]|]; [done| |done].
    destruct (bool_decide _); [|done].
    unfold mbind, M_bind.
    pose proof (process_letter_owned (lp_session_id p) (lp_session_id p) (c :: l)
                  (default 0 (lp_confidence p))
                  (default 0 (ApproximateArrivalTimestamp record)) w Hw) as H1.
    destruct (process_letter _ _ _ _ _ _ _ w) as [r w1]. cbn [snd] in H1.
    by apply finalize_if_paused_owned.
  - unfold _check_all_sessions_for_pause, mbind, M_bind, get.
    apply (for_each_invariant _ owned); [|done].
    intros sid w1 H1. by apply finalize_if_paused_owned, owned_weaken.
Qed.

(** X26. As long as no key of the store expires, every resolved word is
    sent under the user id ["temp"], not under the id of its session's
    user.  With a positive stability requirement (200 ms by default) the
    first observation of a session cannot be committed, so the word buffer
    of every session is created by the pause check that follows, which
    creates it for the user ["temp"]; later commits keep that owner.  Every
    word of the outbound log also names the session it was sent for. *)
Theorem resolved_words_belong_to_temp (steps : list Step) (sid : string) (rw : ResolvedWord) :
  (sid, rw) ∈ outbound (snd (run settings clock collection steps initial)) ->
  rw_session_id rw = sid /\ rw_user_id rw = "temp".
Proof.
  apply owned_outbound. unfold run.
  apply (for_each_invariant _ owned); [|apply owned_initial].
  intros s w Hw. by apply step_owned.
Qed.

End Stable.

End ConsumerExtras.

(** ** The further properties on concrete sessions *)

Section ExtraWitnesses.
Import Config Models Runtime CommitEngine CommitSpec KinesisConsumer.
#[local] Open Scope Q_scope.

Lemma first_observation_never_commits_witness :
  (0 < Config.stability_duration_ms Config.settings)%Z
  /\ fst (process_letter Config.settings (fun _ => 0) "s" "u" (lit "A") 1 0 initial) = None.
Proof.
  assert (0 < Config.stability_duration_ms Config.settings)%Z as HS by reflexivity.
  split; [exact HS|].
  exact (first_observation_never_commits Config.settings (fun _ => 0)
           "s" "u" (lit "A") 1 0 initial HS eq_refl).
Defined.

Lemma append_to_word_keeps_owner_witness :
  user_id (fst (RedisManager.append_to_word (fun _ => 5) "s" "other" (lit "B") paused_A))
  = "s"
  /\ letters (fst (RedisManager.append_to_word (fun _ => 5) "s" "other" (lit "B") paused_A))
     = [lit "A"; lit "B"].
Proof.
  assert (forall b, words paused_A !! "s" = Some b -> session_id b = "s") as Hkey.
  { intros b H. vm_compute in H. by injection H as <-. }
  destruct (append_to_word_keeps_owner (fun _ => 5) "s" "other" (lit "B") paused_A Hkey)
    as (_ & Hl & Hu & _).
  split; [|exact Hl].
  exact (proj1 (Hu {| session_id := "s"; user_id := "s"; letters := [lit "A"];
                      last_commit_time := Some 0; created_at := 0 |} eq_refl)).
Defined.

Lemma process_record_ignores_malformed_witness :
  process_record Config.settings (fun _ => 0) None
    {| Data := Some {| lp_session_id := "s"; event_type := "prediction";
                       prediction := Some []; lp_confidence := Some 1;
                       skip_reason := None |};
       ApproximateArrivalTimestamp := Some 0 |} initial
  = (tt, initial).
Proof.
  apply process_record_ignores_malformed. right. eexists. split; [reflexivity|].
  split; [discriminate|]. right. right. reflexivity.
Defined.

Lemma process_letter_touches_one_session_witness :
  outbound (snd (process_letter Config.settings (fun _ => 1 # 5) "s" "u" (lit "A")
                   (9 # 10) (1 # 5) one_A))
  = outbound one_A
  /\ windows (snd (process_letter Config.settings (fun _ => 1 # 5) "s" "u" (lit "A")
                     (9 # 10) (1 # 5) one_A)) !! "t"
     = windows one_A !! "t".
Proof.
  assert (forall b, words one_A !! "s" = Some b -> session_id b = "s") as Hkey.
  { intros b H. vm_compute in H. discriminate. }
  destruct (process_letter_touches_one_session Config.settings (fun _ => 1 # 5)
              "s" "u" (lit "A") (9 # 10) (1 # 5) one_A Hkey) as (Hother & Ho & _).
  split; [exact Ho|]. apply (Hother "t"). discriminate.
Defined.

(** Two observations of ["A"] a quarter of a second apart, then a sweep
    after the pause. *)
Definition observation (ts : Q) : Step :=
  Incoming {| Data := Some {| lp_session_id := "s"; event_type := "prediction";
                              prediction := Some (lit "A");
                              lp_confidence := Some (9 # 10);
                              skip_reason := None |};
              ApproximateArrivalTimestamp := Some ts |}.

Definition quarter_then_pause (k : nat) : Q := if (k <? 5)%nat then 1 # 4 else 3.

Lemma resolved_words_belong_to_temp_witness :
  (0 < Config.stability_duration_ms Config.settings)%Z
  /\ exists rw,
       outbound (snd (run Config.settings quarter_then_pause None
                        [observation 0; observation (1 # 4); Sweep] initial))
       = [("s", rw)]
       /\ raw_word rw = lit "A" /\ rw_user_id rw = "temp".
Proof.
  assert (0 < Config.stability_duration_ms Config.settings)%Z as HS by reflexivity.
  split; [exact HS|]. eexists. split; [vm_compute; reflexivity|]. split; [reflexivity|].
  refine (proj2 (resolved_words_belong_to_temp Config.settings quarter_then_pause None HS
                   [observation 0; observation (1 # 4); Sweep] "s" _ _)).
  apply list_elem_of_lookup. exists 0%nat. vm_compute. reflexivity.
Defined.

End ExtraWitnesses.
